(** * A deep Q-learning agent with auxiliary tasks: shallow embedding

    The development follows [core/nn.py] (the networks) and
    [core/agent.py] (action selection, the optimisation step, target
    synchronisation and the training loop).

    Conventions of the embedding.
    - Python and torch floating-point numbers are idealised as real
      numbers ([R]); Python integers are [Z] or [nat].  The exploration
      threshold is given a second time as the double-precision
      computation that Python performs ([eps_threshold_double]).
    - Parameter tensors live in a store ([Heap]); a network object holds
      the locations of its parameters, so that copying values
      ([load_state_dict]) and sharing storage are different things.
    - Methods that mutate the agent are computations in a state and
      exception monad over the [Machine] record; a Python exception is
      [Raise].
    - Random draws, the environment, the convolutions, the FTA
      activation and the AdamW update are collaborators: they are fields
      of the records [Torch] and [Env]. *)

From Stdlib Require Import Reals Lra Lia ZArith.
From Stdlib Require Floats Uint63.
From stdpp Require Import base list strings.

Set Default Proof Using "Type".

(** ** Exceptions and the state-and-exception monad *)

Inductive Exn : Type :=
| ZeroDivisionError
| KeyError
| TypeError
| RuntimeError
| AttributeError
| ValueError
| IndexError
| UnboundLocalError
| OutOfFuel.

Inductive Result (A : Type) : Type :=
| Ok (a : A)
| Raise (e : Exn).
Arguments Ok {A} a.
Arguments Raise {A} e.

Definition ST (S A : Type) : Type := S -> Result (A * S).

Definition ret {S A} (a : A) : ST S A := fun s => Ok (a, s).

Definition bind {S A B} (m : ST S A) (k : A -> ST S B) : ST S B :=
  fun s => match m s with
           | Ok (a, s') => k a s'
           | Raise e => Raise e
           end.

Definition raise {S A} (e : Exn) : ST S A := fun _ => Raise e.
Definition get {S} : ST S S := fun s => Ok (s, s).
Definition modify {S} (f : S -> S) : ST S unit := fun s => Ok (tt, f s).
Definition lift {S A} (r : Result A) : ST S A :=
  fun s => match r with Ok a => Ok (a, s) | Raise e => Raise e end.
Definition when {S} (b : bool) (m : ST S unit) : ST S unit :=
  if b then m else ret tt.

Declare Scope st_scope.
Delimit Scope st_scope with st.
Notation "x <- m ;; k" := (bind m (fun x => k))
  (at level 100, m at next level, right associativity) : st_scope.
Notation "m ;; k" := (bind m (fun _ => k))
  (at level 100, right associativity) : st_scope.

(** Exceptions of a pure computation. *)
Definition rbind {A B} (r : Result A) (k : A -> Result B) : Result B :=
  match r with Ok a => k a | Raise e => Raise e end.

Fixpoint mapR {A B} (f : A -> Result B) (l : list A) : Result (list B) :=
  match l with
  | [] => Ok []
  | x :: l' => rbind (f x) (fun y => rbind (mapR f l') (fun ys => Ok (y :: ys)))
  end.

(** ** Tensors and the parameter store *)

Record Tensor : Type := mkTensor { shape : list nat; data : list R }.

Definition numel (sh : list nat) : nat := foldr Nat.mul 1%nat sh.

Abbreviation loc := nat.
Abbreviation Heap := (list Tensor).

(** Initial value of element [i] of the tensor created at location [l]:
    torch draws it at random. *)
Definition Init : Type := loc -> nat -> R.

Definition new_tensor (init : Init) (l : loc) (sh : list nat) : Tensor :=
  mkTensor sh (map (init l) (seq 0 (numel sh))).

(** A new parameter tensor of the given shape gets the next location. *)
Definition new_parameter (init : Init) (sh : list nat) : ST Heap loc :=
  fun h => Ok (length h, h ++ [new_tensor init (length h) sh]).

(** Named parameters of a module, in registration order. *)
Abbreviation Params := (list (string * loc)).

(** Renaming the keys of a list of parameters. *)
Definition rename (g : string -> string) (ps : Params) : Params :=
  map (fun kl => (g (fst kl), snd kl)) ps.

(** The parameters of a submodule registered under the name [p]. *)
Definition prefixed (p : string) (ps : Params) : Params :=
  rename (fun k => String.append p (String.append "." k)) ps.

(** Collaborators from torch whose arithmetic is not modelled. *)
Record Torch : Type := {
  (** [F.conv2d weight bias stride padding input] *)
  conv2d : Tensor -> Tensor -> nat -> nat -> Tensor -> Result Tensor;
  (** [F.conv_transpose2d weight bias stride padding input] *)
  conv_transpose2d : Tensor -> Tensor -> nat -> nat -> Tensor -> Result Tensor;
  (** the forward pass of [core.activations.fta.FTA] *)
  fta_forward : list R -> list R;
  (** state of the AdamW optimizer *)
  OptState : Type;
  optimizer_init : R -> OptState;
  (** One AdamW step after [zero_grad], [backward] and the clipping of
      each gradient entry to [-100, 100]: from the optimizer state, the
      current values of the optimised parameters and the loss as a
      function of those values to the new optimizer state and the new
      value of element [i] of parameter number [j]. *)
  adamw_step : OptState -> list Tensor -> (list Tensor -> Result R) ->
               OptState * (nat -> nat -> R)
}.

Module nn.
Section Networks.
Context (torch : Torch).
Local Open Scope R_scope.
Local Open Scope st_scope.

Definition relu (v : list R) : list R := map (Rmax 0) v.

Definition dot (u v : list R) : R := foldr Rplus 0 (zip_with Rmult u v).

(** Row [j] of a matrix with [cols] columns stored row by row. *)
Definition row (t : Tensor) (cols j : nat) : list R :=
  take cols (drop (j * cols) (data t)).

(** *** [nn.Linear] *)
Record Linear : Type := {
  in_features : nat;
  out_features : nat;
  weight : loc;
  bias : loc
}.

Definition Linear_init (init : Init) (i o : nat) : ST Heap Linear :=
  w <- new_parameter init [o; i] ;;
  b <- new_parameter init [o] ;;
  ret {| in_features := i; out_features := o; weight := w; bias := b |}.

Definition Linear_parameters (l : Linear) : Params :=
  [("weight"%string, weight l); ("bias"%string, bias l)].

(** [F.linear]: the size of the result is the first dimension of the
    weight; an input of another width than the second dimension is an
    error. *)
Definition Linear_forward (h : Heap) (l : Linear) (x : list R) :
    Result (list R) :=
  match h !! weight l, h !! bias l with
  | Some W, Some b =>
      match shape W with
      | [o; i] =>
          if bool_decide (length x = i /\ shape b = [o])
          then Ok (map (fun j => dot (row W i j) x + nth j (data b) 0)
                       (seq 0 o))
          else Raise RuntimeError
      | _ => Raise RuntimeError
      end
  | _, _ => Raise RuntimeError
  end.

(** *** [nn.Conv2d] and [nn.ConvTranspose2d] *)
Record Conv : Type := {
  conv_weight : loc;
  conv_bias : loc;
  stride : nat;
  padding : nat
}.

Definition Conv2d_init (init : Init) (cin cout k s p : nat) : ST Heap Conv :=
  w <- new_parameter init [cout; cin; k; k] ;;
  b <- new_parameter init [cout] ;;
  ret {| conv_weight := w; conv_bias := b; stride := s; padding := p |}.

Definition ConvTranspose2d_init (init : Init) (cin cout k s p : nat) :
    ST Heap Conv :=
  w <- new_parameter init [cin; cout; k; k] ;;
  b <- new_parameter init [cout] ;;
  ret {| conv_weight := w; conv_bias := b; stride := s; padding := p |}.

Definition Conv_parameters (c : Conv) : Params :=
  [("weight"%string, conv_weight c); ("bias"%string, conv_bias c)].

Definition Conv_apply
    (op : Tensor -> Tensor -> nat -> nat -> Tensor -> Result Tensor)
    (h : Heap) (c : Conv) (x : Tensor) : Result Tensor :=
  match h !! conv_weight c, h !! conv_bias c with
  | Some W, Some b => op W b (stride c) (padding c) x
  | _, _ => Raise RuntimeError
  end.

Definition Conv2d_forward := Conv_apply (conv2d torch).
Definition ConvTranspose2d_forward := Conv_apply (conv_transpose2d torch).

Definition tensor_relu (t : Tensor) : Tensor :=
  mkTensor (shape t) (relu (data t)).

(** *** Successor Feature auxiliary head *)
Record SFNetwork : Type := {
  sf_linear1 : Linear;
  sf_linear2 : Linear
}.

Definition SFNetwork_init (init : Init) (use_fta : bool) : ST Heap SFNetwork :=
  if use_fta then
    l1 <- Linear_init init 640 640 ;;
    l2 <- Linear_init init 640 640 ;;
    ret {| sf_linear1 := l1; sf_linear2 := l2 |}
  else
    l1 <- Linear_init init 32 32 ;;
    l2 <- Linear_init init 32 32 ;;
    ret {| sf_linear1 := l1; sf_linear2 := l2 |}.

Definition SFNetwork_parameters (m : SFNetwork) : Params :=
  prefixed "linear1" (Linear_parameters (sf_linear1 m)) ++
  prefixed "linear2" (Linear_parameters (sf_linear2 m)).

Definition SFNetwork_forward (h : Heap) (m : SFNetwork) (x : list R) :
    Result (list R) :=
  rbind (Linear_forward h (sf_linear1 m) x) (fun x1 =>
  Linear_forward h (sf_linear2 m) (relu x1)).

(** *** Reward Prediction auxiliary head *)
Record Reward : Type := {
  rw_linear1 : Linear;
  rw_linear2 : Linear;
  rw_linear3 : Linear
}.

Definition Reward_init (init : Init) (use_fta : bool) : ST Heap Reward :=
  l1 <- (if use_fta then Linear_init init 640 1024
         else Linear_init init 32 1024) ;;
  l2 <- Linear_init init 1024 128 ;;
  l3 <- Linear_init init 128 1 ;;
  ret {| rw_linear1 := l1; rw_linear2 := l2; rw_linear3 := l3 |}.

Definition Reward_parameters (m : Reward) : Params :=
  prefixed "linear1" (Linear_parameters (rw_linear1 m)) ++
  prefixed "linear2" (Linear_parameters (rw_linear2 m)) ++
  prefixed "linear3" (Linear_parameters (rw_linear3 m)).

Definition Reward_forward (h : Heap) (m : Reward) (x : list R) :
    Result (list R) :=
  rbind (Linear_forward h (rw_linear1 m) x) (fun x1 =>
  rbind (Linear_forward h (rw_linear2 m) (relu x1)) (fun x2 =>
  Linear_forward h (rw_linear3 m) (relu x2))).

(** *** Input Reconstruction auxiliary head *)
Record InputReconstruction : Type := {
  ir_linear : Linear;
  ir_convT1 : Conv;
  ir_convT2 : Conv
}.

Definition InputReconstruction_init (init : Init) (use_fta : bool) :
    ST Heap InputReconstruction :=
  l <- (if use_fta then Linear_init init 640 1024
        else Linear_init init 32 1024) ;;
  c1 <- ConvTranspose2d_init init 16 32 4 2 2 ;;
  c2 <- ConvTranspose2d_init init 32 3 4 1 1 ;;
  ret {| ir_linear := l; ir_convT1 := c1; ir_convT2 := c2 |}.

Definition InputReconstruction_parameters (m : InputReconstruction) : Params :=
  prefixed "linear" (Linear_parameters (ir_linear m)) ++
  prefixed "convT1" (Conv_parameters (ir_convT1 m)) ++
  prefixed "convT2" (Conv_parameters (ir_convT2 m)).

(** [nn.Unflatten(1, (16, 8, 8))] *)
Definition unflat (x : list R) : Result Tensor :=
  if (length x =? 1024)%nat then Ok (mkTensor [16; 8; 8]%nat x)
  else Raise RuntimeError.

Definition InputReconstruction_forward (h : Heap) (m : InputReconstruction)
    (x : list R) : Result (list R) :=
  rbind (Linear_forward h (ir_linear m) x) (fun x1 =>
  rbind (unflat (relu x1)) (fun x2 =>
  rbind (ConvTranspose2d_forward h (ir_convT1 m) x2) (fun x3 =>
  rbind (ConvTranspose2d_forward h (ir_convT2 m) (tensor_relu x3)) (fun x4 =>
  Ok (data (tensor_relu x4)))))).

(** *** Virtual Value Function auxiliary head *)
Record VirtualValueFunction : Type := {
  vvf_fc1 : Linear;
  vvf_fc2 : Linear;
  vvf_fc3 : Linear
}.

Definition VirtualValueFunction_init (init : Init) (use_fta : bool) :
    ST Heap VirtualValueFunction :=
  l1 <- (if use_fta then Linear_init init 640 64
         else Linear_init init 32 64) ;;
  l2 <- Linear_init init 64 64 ;;
  l3 <- Linear_init init 64 4 ;;
  ret {| vvf_fc1 := l1; vvf_fc2 := l2; vvf_fc3 := l3 |}.

Definition VirtualValueFunction_parameters (m : VirtualValueFunction) :
    Params :=
  prefixed "q_network_fc1" (Linear_parameters (vvf_fc1 m)) ++
  prefixed "q_network_fc2" (Linear_parameters (vvf_fc2 m)) ++
  prefixed "q_network_fc3" (Linear_parameters (vvf_fc3 m)).

Definition VirtualValueFunction_forward (h : Heap) (m : VirtualValueFunction)
    (x : list R) : Result (list R) :=
  rbind (Linear_forward h (vvf_fc1 m) x) (fun x1 =>
  rbind (Linear_forward h (vvf_fc2 m) (relu x1)) (fun x2 =>
  Linear_forward h (vvf_fc3 m) (relu x2))).

(** *** Main representation network *)
Record RepresentationNetwork : Type := {
  rep_use_fta : bool;
  rep_conv1 : Conv;
  rep_conv2 : Conv;
  rep_fc1 : Linear
}.

(** The FTA activation is created with fixed settings and is taken to
    hold no parameters. *)
Definition RepresentationNetwork_init (init : Init) (use_fta : bool) :
    ST Heap RepresentationNetwork :=
  c1 <- Conv2d_init init 3 32 4 1 1 ;;
  c2 <- Conv2d_init init 32 16 4 2 2 ;;
  l <- Linear_init init (8 * 8 * 16) 32 ;;
  ret {| rep_use_fta := use_fta; rep_conv1 := c1; rep_conv2 := c2;
         rep_fc1 := l |}.

Definition RepresentationNetwork_parameters (m : RepresentationNetwork) :
    Params :=
  prefixed "conv1" (Conv_parameters (rep_conv1 m)) ++
  prefixed "conv2" (Conv_parameters (rep_conv2 m)) ++
  prefixed "fc1" (Linear_parameters (rep_fc1 m)).

(** One input image; [flatten] and [reshape((-1, 1024))] keep the
    elements in order, and the width is checked by [fc1]. *)
Definition RepresentationNetwork_forward (h : Heap)
    (m : RepresentationNetwork) (x : Tensor) : Result (list R) :=
  let x0 := mkTensor (shape x) (map (fun v => v / 255) (data x)) in
  rbind (Conv2d_forward h (rep_conv1 m) x0) (fun x1 =>
  rbind (Conv2d_forward h (rep_conv2 m) (tensor_relu x1)) (fun x2 =>
  rbind (Linear_forward h (rep_fc1 m) (data (tensor_relu x2))) (fun x3 =>
  if rep_use_fta m then Ok (fta_forward torch x3) else Ok (relu x3)))).


(** *** The combined network *)
Inductive AuxNetwork : Type :=
| AuxIR (m : InputReconstruction)
| AuxReward (m : Reward)
| AuxSF (m : SFNetwork) (next_state_rep : InputReconstruction)
| AuxVVF (m : VirtualValueFunction)
| AuxAbsent.

Record Network : Type := {
  use_fta : bool;
  use_aux : option string;
  rep_net : RepresentationNetwork;
  q_network_fc1 : Linear;
  aux_network : AuxNetwork;
  q_network_fc2 : Linear;
  q_network_fc3 : Linear
}.

(** [use_aux == s] for a configuration value that may be [None]. *)
Definition aux_is (use_aux : option string) (s : string) : bool :=
  match use_aux with
  | Some u => String.eqb u s
  | None => false
  end.

Definition is_vvf (use_aux : option string) : bool :=
  aux_is use_aux "virtual-reward-1" || aux_is use_aux "virtual-reward-5".

Definition AuxNetwork_init (init : Init) (use_fta : bool)
    (use_aux : option string) : ST Heap AuxNetwork :=
  if negb (aux_is use_aux "no_aux") then
    if aux_is use_aux "ir" then
      m <- InputReconstruction_init init use_fta ;; ret (AuxIR m)
    else if aux_is use_aux "reward" then
      m <- Reward_init init use_fta ;; ret (AuxReward m)
    else if aux_is use_aux "sf" then
      m <- SFNetwork_init init use_fta ;;
      n <- InputReconstruction_init init use_fta ;;
      ret (AuxSF m n)
    else if is_vvf use_aux then
      m <- VirtualValueFunction_init init use_fta ;; ret (AuxVVF m)
    else ret AuxAbsent
  else ret AuxAbsent.

Definition Network_init (init : Init) (use_fta : bool)
    (use_aux : option string) : ST Heap Network :=
  rep <- RepresentationNetwork_init init use_fta ;;
  fc1 <- (if use_fta then Linear_init init 640 64
          else Linear_init init 32 64) ;;
  aux <- AuxNetwork_init init use_fta use_aux ;;
  fc2 <- Linear_init init 64 64 ;;
  fc3 <- Linear_init init 64 4 ;;
  ret {| use_fta := use_fta; use_aux := use_aux; rep_net := rep;
         q_network_fc1 := fc1; aux_network := aux;
         q_network_fc2 := fc2; q_network_fc3 := fc3 |}.

Definition AuxNetwork_parameters (a : AuxNetwork) : Params :=
  match a with
  | AuxIR m => prefixed "aux_network" (InputReconstruction_parameters m)
  | AuxReward m => prefixed "aux_network" (Reward_parameters m)
  | AuxSF m n =>
      prefixed "aux_network" (SFNetwork_parameters m) ++
      prefixed "next_state_rep" (InputReconstruction_parameters n)
  | AuxVVF m => prefixed "aux_network" (VirtualValueFunction_parameters m)
  | AuxAbsent => []
  end.

Definition named_parameters (net : Network) : Params :=
  prefixed "rep_net" (RepresentationNetwork_parameters (rep_net net)) ++
  prefixed "q_network_fc1" (Linear_parameters (q_network_fc1 net)) ++
  AuxNetwork_parameters (aux_network net) ++
  prefixed "q_network_fc2" (Linear_parameters (q_network_fc2 net)) ++
  prefixed "q_network_fc3" (Linear_parameters (q_network_fc3 net)).

(** [self.aux_network(rep)] and [self.next_state_rep(rep)]: the attribute
    exists only if the constructor created it. *)
Definition call_aux_network (h : Heap) (a : AuxNetwork) (rep : list R) :
    Result (list R) :=
  match a with
  | AuxIR m => InputReconstruction_forward h m rep
  | AuxReward m => Reward_forward h m rep
  | AuxSF m _ => SFNetwork_forward h m rep
  | AuxVVF m => VirtualValueFunction_forward h m rep
  | AuxAbsent => Raise AttributeError
  end.

Definition call_next_state_rep (h : Heap) (a : AuxNetwork) (rep : list R) :
    Result (list R) :=
  match a with
  | AuxSF _ n => InputReconstruction_forward h n rep
  | _ => Raise AttributeError
  end.

(** The list [[x, aux, rep, next_rep]] returned by [forward], for one
    input image; every entry is kept as the flat list of its elements. *)
Record NetReturn : Type := {
  ret_q : list R;
  ret_aux : option (list R);
  ret_rep : list R;
  ret_next_rep : option (list R)
}.

Definition forward_aux (h : Heap) (net : Network) (rep : list R) :
    Result (option (list R) * option (list R)) :=
  let u := use_aux net in
  if negb (aux_is u "no_aux") then
    if aux_is u "reward" then
      rbind (call_aux_network h (aux_network net) rep) (fun a =>
      Ok (Some a, None))
    else if aux_is u "sf" then
      rbind (call_aux_network h (aux_network net) rep) (fun a =>
      rbind (call_next_state_rep h (aux_network net) rep) (fun n =>
      Ok (Some a, Some n)))
    else if aux_is u "ir" then
      rbind (call_aux_network h (aux_network net) rep) (fun a =>
      Ok (Some a, None))
    else if is_vvf u then
      rbind (call_aux_network h (aux_network net) rep) (fun a =>
      Ok (Some a, None))
    else Ok (None, None)
  else Ok (None, None).

(** The action-value head. *)
Definition q_head (h : Heap) (net : Network) (rep : list R) : Result (list R) :=
  rbind (Linear_forward h (q_network_fc1 net) rep) (fun x1 =>
  rbind (Linear_forward h (q_network_fc2 net) (relu x1)) (fun x2 =>
  Linear_forward h (q_network_fc3 net) (relu x2))).

Definition forward (h : Heap) (net : Network) (x : Tensor) : Result NetReturn :=
  rbind (RepresentationNetwork_forward h (rep_net net) x) (fun rep =>
  rbind (forward_aux h net rep) (fun an =>
  rbind (q_head h net rep) (fun q =>
  Ok {| ret_q := q; ret_aux := fst an; ret_rep := rep;
        ret_next_rep := snd an |}))).

(** *** State dictionaries *)

(** An entry of a state dictionary is a tensor object: the stored
    parameter itself (it shares the parameter's storage) or a new tensor. *)
Inductive TensorRef : Type :=
| Stored (l : loc)
| Fresh (t : Tensor).

Abbreviation StateDict := (list (string * TensorRef)).

Definition state_dict (net : Network) : StateDict :=
  map (fun kl => (fst kl, Stored (snd kl))) (named_parameters net).

Definition deref (h : Heap) (v : TensorRef) : option Tensor :=
  match v with
  | Stored l => h !! l
  | Fresh t => Some t
  end.

Fixpoint dict_get {V} (k : string) (d : list (string * V)) : option V :=
  match d with
  | [] => None
  | (k', v) :: d' => if String.eqb k k' then Some v else dict_get k d'
  end.

(** [d[k] = v]: an existing key keeps its place. *)
Fixpoint dict_set {V} (k : string) (v : V) (d : list (string * V)) :
    list (string * V) :=
  match d with
  | [] => [(k, v)]
  | (k', v') :: d' =>
      if String.eqb k k' then (k, v) :: d' else (k', v') :: dict_set k v d'
  end.

(** [param.copy_(input_param)] for every parameter, key by key. *)
Fixpoint copy_params (ps : Params) (sd : StateDict) (h : Heap) : Result Heap :=
  match ps with
  | [] => Ok h
  | (k, l) :: ps' =>
      match dict_get k sd with
      | None => Raise RuntimeError
      | Some v =>
          match deref h v, h !! l with
          | Some t, Some old =>
              if bool_decide (shape t = shape old)
              then copy_params ps' sd (<[l := mkTensor (shape old) (data t)]> h)
              else Raise RuntimeError
          | _, _ => Raise RuntimeError
          end
      end
  end.

(** [load_state_dict] with the default [strict=True]: a key of the
    dictionary that names no parameter, a missing key and a tensor of
    another shape are errors. *)
Definition load_state_dict (net : Network) (sd : StateDict) : ST Heap unit :=
  fun h =>
    if forallb (fun kv => bool_decide (is_Some (dict_get (fst kv) (named_parameters net)))) sd
    then match copy_params (named_parameters net) sd h with
         | Ok h' => Ok (tt, h')
         | Raise e => Raise e
         end
    else Raise RuntimeError.

End Networks.
End nn.

(** ** Configuration, transitions and replay memory *)

(** The values of [config.yaml] read by the agent. *)
Record Args : Type := {
  learning_rate : R;
  batch_size : Z;
  gamma : R;
  eps_start : R;
  eps_end : R;
  eps_decay : R;
  horizon : Z;
  max_episodes : Z;
  consecutive_episodes : Z;
  target_update : Z;
  soft_target_update : bool;
  tau : R;
  use_fta : bool;
  use_aux : option string;
  aux_loss_weight : R;
  transfer : bool;
  save_ratio : Z;
  save_model : bool;
  save_rewards : bool;
  plot_during_training : bool
}.

(** Modelled from the spec: the [Transition] record of [core.utils],
    which is not among the sources.  The fields and their order are those
    of section 3 of the specification and of the calls of [push] in
    [Agent.train]; a field that may hold [None] is an [option]. *)
Record Transition : Type := {
  state : Tensor;
  action : Z;
  next_state : option Tensor;
  reward : R;
  next_action : option Z;
  virtual_reward : option R
}.

(** Modelled from the spec: the [ReplayMemory] of [core.utils], which is
    not among the sources: a container in insertion order of fixed
    capacity; once full, a push evicts the oldest entry before it inserts
    the new one. *)
Record ReplayMemory : Type := {
  capacity : Z;
  items : list Transition
}.

Definition ReplayMemory_init (c : Z) : ReplayMemory :=
  {| capacity := c; items := [] |}.

Definition push (m : ReplayMemory) (tr : Transition) : ReplayMemory :=
  {| capacity := capacity m;
     items := if (capacity m <=? Z.of_nat (length (items m)))%Z
              then drop 1 (items m) ++ [tr]
              else items m ++ [tr] |}.

Definition len (m : ReplayMemory) : nat := length (items m).

(** [sample]: the transitions at the positions drawn by the random
    generator. *)
Definition sample (m : ReplayMemory) (positions : list nat) :
    Result (list Transition) :=
  mapR (fun i => match items m !! i with
                 | Some tr => Ok tr
                 | None => Raise ValueError
                 end) positions.

(** ** The environment and the random generator *)

(** The entry ['virtual-reward'] of an [info] dictionary, if present. *)
Abbreviation Info := (option R).

Record Env : Type := {
  EnvState : Type;
  (** [reset() -> (state, info)] *)
  env_reset : EnvState -> EnvState * (Tensor * Info);
  (** [step(action) -> (observation, reward, terminated, truncated, info)] *)
  env_step : EnvState -> Z -> EnvState * (Tensor * R * bool * bool * Info);
  (** [action_space.n] *)
  action_space_n : Z;
  (** [action_space.sample()], at a state of the random generator *)
  action_space_sample : nat -> Z
}.

(** The draws of Python's [random] module, by the number of draws made
    before. *)
Record Random : Type := {
  (** [random.random()] *)
  random_random : nat -> R;
  (** [random.sample(population, k)] as positions in a population of the
      given size *)
  random_sample : nat -> nat -> nat -> list nat
}.

(** [observation.transpose((2, 0, 1))] of an array of shape (H, W, C). *)
Definition transpose_2_0_1 (t : Tensor) : Result Tensor :=
  match shape t with
  | [H; W; C] =>
      Ok (mkTensor [C; H; W]
            (c ← seq 0 C; h ← seq 0 H; w ← seq 0 W;
             [nth ((h * W + w) * C + c)%nat (data t) 0%R]))
  | _ => Raise ValueError
  end.

(** [torch.tensor(array, dtype=torch.float32).unsqueeze(0)] *)
Definition unsqueeze_0 (t : Tensor) : Tensor :=
  mkTensor (1%nat :: shape t) (data t).

Definition to_state (obs : Tensor) : Result Tensor :=
  rbind (transpose_2_0_1 obs) (fun t => Ok (unsqueeze_0 t)).

(** ** Batch arithmetic of the optimisation step

    A batch is the list of its rows; a row is the flat list of the
    elements of one sample. *)
Section Batch.
Local Open Scope R_scope.

(** [torch.cat] of a non-empty sequence of one-row tensors. *)
Definition cat {A} (l : list A) : Result (list A) :=
  match l with
  | [] => Raise RuntimeError
  | _ => Ok l
  end.

(** [torch.cat] of a field that may hold [None]. *)
Definition cat_field {A} (l : list (option A)) : Result (list A) :=
  rbind (mapR (fun o => match o with
                        | Some x => Ok x
                        | None => Raise TypeError
                        end) l) cat.

(** [t.gather(1, index)] for one row. *)
Definition gather (q : list R) (a : Z) : Result R :=
  if (a <? 0)%Z then Raise RuntimeError
  else match q !! Z.to_nat a with
       | Some v => Ok v
       | None => Raise RuntimeError
       end.

Fixpoint gather_rows (qs : list (list R)) (idx : list Z) : Result (list R) :=
  match qs, idx with
  | [], [] => Ok []
  | q :: qs', a :: idx' =>
      rbind (gather q a) (fun v =>
      rbind (gather_rows qs' idx') (fun vs => Ok (v :: vs)))
  | _, _ => Raise RuntimeError
  end.

(** [t.max(1)[0]] for one row. *)
Definition row_max (q : list R) : Result R :=
  match q with
  | [] => Raise RuntimeError
  | x :: q' => Ok (foldl Rmax x q')
  end.

(** [t.max(1)[1]] for one row: the first position of the largest entry. *)
Fixpoint argmax_from (best : R) (bi i : nat) (q : list R) : nat :=
  match q with
  | [] => bi
  | x :: q' => if Rgt_dec x best then argmax_from x i (S i) q'
               else argmax_from best bi (S i) q'
  end.

Definition row_argmax (q : list R) : Result Z :=
  match q with
  | [] => Raise RuntimeError
  | x :: q' => Ok (Z.of_nat (argmax_from x 0 1 q'))
  end.

(** [base[mask] = values] *)
Fixpoint masked_assign (base : list R) (mask : list bool) (values : list R) :
    Result (list R) :=
  match base, mask with
  | [], [] => match values with [] => Ok [] | _ => Raise RuntimeError end
  | b :: base', true :: mask' =>
      match values with
      | v :: values' =>
          rbind (masked_assign base' mask' values') (fun r => Ok (v :: r))
      | [] => Raise RuntimeError
      end
  | b :: base', false :: mask' =>
      rbind (masked_assign base' mask' values) (fun r => Ok (b :: r))
  | _, _ => Raise IndexError
  end.

(** Element-wise [a * c + b] of two vectors of one size. *)
Definition scale_add (a : list R) (c : R) (b : list R) : Result (list R) :=
  if (length a =? length b)%nat
  then Ok (zip_with (fun x y => x * c + y) a b)
  else Raise RuntimeError.

(** [t.unsqueeze(1)] of a vector. *)
Definition unsqueeze_1 (v : list R) : list (list R) := map (fun x => [x]) v.

Definition same_shape (a b : list (list R)) : bool :=
  bool_decide (map length a = map length b).

Definition sum_list (l : list R) : R := foldr Rplus 0 l.

Definition sq_diff (a b : list R) : list R :=
  zip_with (fun x y => (x - y) * (x - y)) a b.

(** [nn.MSELoss()(input, target)] with the default mean reduction, for
    two batches of one shape.  Batches of different shapes are reported
    as an error (broadcasting is not modelled). *)
Definition MSELoss (input target : list (list R)) : Result R :=
  if same_shape input target
  then Ok (sum_list (concat (zip_with sq_diff input target)) /
           INR (length (concat input)))
  else Raise RuntimeError.

End Batch.

(** ** The exploration threshold at double precision

    The expression of [Agent.select_action],
    [eps_end + (eps_start - eps_end) * math.exp(-1. * steps_done / eps_decay)],
    as Python evaluates it: on binary64 numbers, with every operation
    rounded to nearest.  [math.exp] is a collaborator.  The count is a
    Python integer that the product with [-1.] converts to a double;
    the conversion is modelled for counts from 0 to below [2^63], and
    other counts are outside the definition ([None]).  A division by a
    zero [eps_decay] raises [ZeroDivisionError]. *)
Section Double.
Import PrimFloat.
Local Open Scope float_scope.



End Double.

(** ** The agent *)
Module agent.
Section Agent.
Context (torch : Torch) (env : Env) (rnd : Random) (args : Args).
Local Open Scope st_scope.

(** What the training loop does to its collaborators, in order. *)
Inductive Event : Type :=
| EvReset (i : Z)
| EvSelect (s : Tensor) (a : Z)
| EvEnvStep (s : Tensor) (a : Z) (observation : Tensor) (r : R) (done : bool)
| EvPush (tr : Transition)
| EvSoftUpdate
| EvHardUpdate (i : Z)
| EvSave
| EvEpisodeEnd (i : Z).

(** The local variables of [train]; a variable is [None] until it is
    first assigned. *)
Record Frame : Type := {
  l_consecutive_episodes : Z;
  l_reward_in_episode : R;
  l_state : option Tensor;
  l_info : option Info;
  l_previous_state : option Tensor;
  l_previous_action : option Z;
  l_reward : option R
}.

Record Machine : Type := {
  (** attributes of the agent *)
  need_next : bool;
  action_space : Z;
  policy_net : nn.Network;
  target_net : nn.Network;
  optimizer : OptState torch;
  memory : ReplayMemory;
  steps_done : nat;
  reward_in_episode : list R;
  (** the parameter store *)
  heap : Heap;
  (** the state of the environment and the number of random draws *)
  world : EnvState env;
  draws : nat;
  (** the local variables of [train] *)
  frame : Frame;
  (** the trace *)
  log : list Event
}.

Abbreviation M := (ST Machine).

Definition set_optimizer_heap (o : OptState torch) (h : Heap) (s : Machine) :=
  {| need_next := need_next s; action_space := action_space s;
     policy_net := policy_net s; target_net := target_net s;
     optimizer := o; memory := memory s; steps_done := steps_done s;
     reward_in_episode := reward_in_episode s; heap := h;
     world := world s; draws := draws s; frame := frame s; log := log s |}.

Definition set_heap (h : Heap) (s : Machine) :=
  set_optimizer_heap (optimizer s) h s.

Definition set_memory (m : ReplayMemory) (s : Machine) :=
  {| need_next := need_next s; action_space := action_space s;
     policy_net := policy_net s; target_net := target_net s;
     optimizer := optimizer s; memory := m; steps_done := steps_done s;
     reward_in_episode := reward_in_episode s; heap := heap s;
     world := world s; draws := draws s; frame := frame s; log := log s |}.

Definition set_steps_done (n : nat) (s : Machine) :=
  {| need_next := need_next s; action_space := action_space s;
     policy_net := policy_net s; target_net := target_net s;
     optimizer := optimizer s; memory := memory s; steps_done := n;
     reward_in_episode := reward_in_episode s; heap := heap s;
     world := world s; draws := draws s; frame := frame s; log := log s |}.

Definition set_reward_in_episode (l : list R) (s : Machine) :=
  {| need_next := need_next s; action_space := action_space s;
     policy_net := policy_net s; target_net := target_net s;
     optimizer := optimizer s; memory := memory s; steps_done := steps_done s;
     reward_in_episode := l; heap := heap s;
     world := world s; draws := draws s; frame := frame s; log := log s |}.

Definition set_world (w : EnvState env) (s : Machine) :=
  {| need_next := need_next s; action_space := action_space s;
     policy_net := policy_net s; target_net := target_net s;
     optimizer := optimizer s; memory := memory s; steps_done := steps_done s;
     reward_in_episode := reward_in_episode s; heap := heap s;
     world := w; draws := draws s; frame := frame s; log := log s |}.

Definition set_draws (n : nat) (s : Machine) :=
  {| need_next := need_next s; action_space := action_space s;
     policy_net := policy_net s; target_net := target_net s;
     optimizer := optimizer s; memory := memory s; steps_done := steps_done s;
     reward_in_episode := reward_in_episode s; heap := heap s;
     world := world s; draws := n; frame := frame s; log := log s |}.

Definition set_frame (f : Frame) (s : Machine) :=
  {| need_next := need_next s; action_space := action_space s;
     policy_net := policy_net s; target_net := target_net s;
     optimizer := optimizer s; memory := memory s; steps_done := steps_done s;
     reward_in_episode := reward_in_episode s; heap := heap s;
     world := world s; draws := draws s; frame := f; log := log s |}.

Definition set_log (l : list Event) (s : Machine) :=
  {| need_next := need_next s; action_space := action_space s;
     policy_net := policy_net s; target_net := target_net s;
     optimizer := optimizer s; memory := memory s; steps_done := steps_done s;
     reward_in_episode := reward_in_episode s; heap := heap s;
     world := world s; draws := draws s; frame := frame s; log := l |}.

Definition emit (e : Event) : M unit :=
  modify (fun s => set_log (log s ++ [e]) s).

(** One draw of the random generator. *)
Definition draw : M nat :=
  s <- get ;;
  modify (set_draws (S (draws s))) ;;
  ret (draws s).

(** Reading a local variable. *)
Definition local {A} (v : Frame -> option A) : M A :=
  s <- get ;;
  match v (frame s) with
  | Some x => ret x
  | None => raise UnboundLocalError
  end.

(** *** [Agent.__init__] *)

(** Some auxiliary tasks require the next action as well. *)
Definition requires_next (u : option string) : bool :=
  nn.aux_is u "sf" || nn.aux_is u "sf+reward" ||
  nn.aux_is u "virtual-reward-1" || nn.aux_is u "virtual-reward-5".

Definition empty_frame : Frame :=
  {| l_consecutive_episodes := 0; l_reward_in_episode := 0%R;
     l_state := None; l_info := None; l_previous_state := None;
     l_previous_action := None; l_reward := None |}.

(** The constructor, from the store, the state of the environment and
    the number of draws at the time of the call.  The two networks are
    created one after the other, then the target network loads the
    state dictionary of the policy network. *)
Definition init (ini : Init) (h0 : Heap) (w : EnvState env) (d : nat) :
    Result Machine :=
  rbind (nn.Network_init ini (use_fta args) (use_aux args) h0) (fun ph =>
  rbind (nn.Network_init ini (use_fta args) (use_aux args) (snd ph)) (fun th =>
  rbind (nn.load_state_dict (fst th) (nn.state_dict (fst ph)) (snd th)) (fun uh =>
  Ok {| need_next := requires_next (use_aux args);
        action_space := action_space_n env;
        policy_net := fst ph;
        target_net := fst th;
        optimizer := optimizer_init torch (learning_rate args);
        memory := ReplayMemory_init 1000000;
        steps_done := 0;
        reward_in_episode := [];
        heap := snd uh;
        world := w;
        draws := d;
        frame := empty_frame;
        log := [] |}))).

(** *** [Agent.select_action] *)

Definition eps_threshold (steps : nat) : Result R :=
  if Req_dec_T (eps_decay args) 0 then Raise ZeroDivisionError
  else Ok (eps_end args + (eps_start args - eps_end args) *
           exp (-1 * INR steps / eps_decay args))%R.

Definition select_action (st : Tensor) : M Z :=
  n <- draw ;;
  let sample := random_random rnd n in
  s <- get ;;
  eps <- lift (eps_threshold (steps_done s)) ;;
  modify (set_steps_done (steps_done s + 1)) ;;
  if Rgt_dec sample eps then
    r <- lift (nn.forward torch (heap s) (policy_net s) st) ;;
    lift (row_argmax (nn.ret_q r))
  else
    k <- draw ;;
    ret (action_space_sample env k).

(** *** [Agent.optimize] *)

(** The tensors built from the sampled transitions. *)
Record Batch : Type := {
  non_final_mask : list bool;
  non_final_next_states : list Tensor;
  state_batch : list Tensor;
  action_batch : list Z;
  reward_batch : list R;
  (** bound only if [need_next] *)
  next_action_batch : option (list Z);
  next_state_batch : option (list Tensor)
}.

Definition collate (need : bool) (transitions : list Transition) :
    Result Batch :=
  match transitions with
  | [] => Raise TypeError
  | _ =>
    rbind (cat (omap next_state transitions)) (fun nf =>
    rbind (cat (map state transitions)) (fun sb =>
    rbind (cat (map action transitions)) (fun ab =>
    rbind (cat (map reward transitions)) (fun rb =>
    if need then
      rbind (cat_field (map next_action transitions)) (fun na =>
      rbind (cat_field (map next_state transitions)) (fun ns =>
      Ok {| non_final_mask :=
              map (fun tr => bool_decide (is_Some (next_state tr))) transitions;
            non_final_next_states := nf; state_batch := sb;
            action_batch := ab; reward_batch := rb;
            next_action_batch := Some na; next_state_batch := Some ns |}))
    else
      Ok {| non_final_mask :=
              map (fun tr => bool_decide (is_Some (next_state tr))) transitions;
            non_final_next_states := nf; state_batch := sb;
            action_batch := ab; reward_batch := rb;
            next_action_batch := None; next_state_batch := None |}))))
  end.

(** A network applied to a batch: row by row. *)
Definition forward_batch (h : Heap) (net : nn.Network) (xs : list Tensor) :
    Result (list nn.NetReturn) :=
  mapR (nn.forward torch h net) xs.

(** [net_return[0].gather(1, action_batch)]: one column. *)
Definition gather_column (qs : list (list R)) (idx : list Z) :
    Result (list (list R)) :=
  rbind (gather_rows qs idx) (fun v => Ok (unsqueeze_1 v)).

(** [next_state_values]: zero, except where the mask holds, where it is
    the largest action value of the target network at the next state. *)
Definition next_state_values (h : Heap) (target : nn.Network) (b : Batch) :
    Result (list R) :=
  let zeros := repeat 0%R (Z.to_nat (batch_size args)) in
  rbind (forward_batch h target (non_final_next_states b)) (fun tr =>
  rbind (mapR row_max (map nn.ret_q tr)) (fun mx =>
  masked_assign zeros (non_final_mask b) mx)).

(** The bootstrapped Q values. *)
Definition expected_state_action_values (h : Heap) (target : nn.Network)
    (b : Batch) : Result (list R) :=
  rbind (next_state_values h target b) (fun nsv =>
  scale_add nsv (gamma args) (reward_batch b)).

Definition primary_loss (h : Heap) (target : nn.Network) (b : Batch)
    (net_return : list nn.NetReturn) : Result R :=
  rbind (gather_column (map nn.ret_q net_return) (action_batch b))
    (fun state_action_values =>
  rbind (expected_state_action_values h target b) (fun expected =>
  MSELoss state_action_values (unsqueeze_1 expected))).

(** [net_return[k]] as a batch; an entry that is [None] is no tensor. *)
Definition rows_of (f : nn.NetReturn -> option (list R))
    (net_return : list nn.NetReturn) : Result (list (list R)) :=
  mapR (fun r => match f r with
                 | Some v => Ok v
                 | None => Raise TypeError
                 end) net_return.

Definition bound {A} (v : option A) : Result A :=
  match v with
  | Some x => Ok x
  | None => Raise UnboundLocalError
  end.

(** Input Reconstruction auxiliary task *)
Definition ir_term (b : Batch) (net_return : list nn.NetReturn) : Result R :=
  rbind (rows_of nn.ret_aux net_return) (fun aux_return =>
  rbind (MSELoss aux_return (map data (state_batch b))) (fun l =>
  Ok (aux_loss_weight args * l)%R)).

(** Reward Prediction auxiliary task *)
Definition reward_term (b : Batch) (net_return : list nn.NetReturn) :
    Result R :=
  rbind (rows_of nn.ret_aux net_return) (fun aux_return =>
  if (length (reward_batch b) =? Z.to_nat (batch_size args))%nat
  then MSELoss aux_return (unsqueeze_1 (reward_batch b))
  else Raise RuntimeError).

(** Successor Features auxiliary task *)
Definition sf_term (h : Heap) (target : nn.Network) (b : Batch)
    (net_return : list nn.NetReturn) : Result R :=
  rbind (rows_of nn.ret_aux net_return) (fun aux_return =>
  let representation_st := map nn.ret_rep net_return in
  rbind (rows_of nn.ret_next_rep net_return) (fun next_state_rec =>
  rbind (bound (next_state_batch b)) (fun nsb =>
  rbind (bound (next_action_batch b)) (fun nab =>
  rbind (forward_batch h target nsb) (fun tr =>
  rbind (rows_of nn.ret_aux tr) (fun taux =>
  rbind (gather_rows taux nab) (fun next_state_aux_return =>
  if (length representation_st =? length next_state_aux_return)%nat then
    rbind (MSELoss aux_return
             (zip_with (fun rep g => map (fun x => x + gamma args * g)%R rep)
                       representation_st next_state_aux_return))
      (fun l =>
    rbind (MSELoss next_state_rec (map data nsb)) (fun l' =>
    Ok (aux_loss_weight args * l + l')%R))
  else Raise RuntimeError))))))).

(** Virtual Value Functions auxiliary tasks: the bootstrapped value. *)
Definition bootstraped_value (h : Heap) (target : nn.Network) (b : Batch)
    (virtual_reward_batch : list R) : Result (list R) :=
  rbind (bound (next_state_batch b)) (fun nsb =>
  rbind (bound (next_action_batch b)) (fun nab =>
  rbind (forward_batch h target nsb) (fun tr =>
  rbind (rows_of nn.ret_aux tr) (fun taux =>
  rbind (gather_rows taux nab) (fun next_state_virtual_action_values =>
  scale_add next_state_virtual_action_values (gamma args)
            virtual_reward_batch))))).

Definition vvf_term (h : Heap) (target : nn.Network)
    (transitions : list Transition) (b : Batch)
    (net_return : list nn.NetReturn) : Result R :=
  rbind (cat_field (map virtual_reward transitions))
    (fun virtual_reward_batch =>
  rbind (rows_of nn.ret_aux net_return) (fun aux_return =>
  rbind (gather_column aux_return (action_batch b)) (fun action_values =>
  rbind (bootstraped_value h target b virtual_reward_batch) (fun bv =>
  MSELoss action_values (unsqueeze_1 bv))))).

(** [loss = loss + term] under a guard. *)
Definition add_if (c : bool) (term : Result R) (loss : R) : Result R :=
  if c then rbind term (fun x => Ok (loss + x)%R) else Ok loss.

(** The loss of one optimisation step on the sampled transitions. *)
Definition loss_of (need : bool) (policy target : nn.Network)
    (transitions : list Transition) (h : Heap) : Result R :=
  rbind (collate need transitions) (fun b =>
  rbind (forward_batch h policy (state_batch b)) (fun net_return =>
  rbind (primary_loss h target b net_return) (fun loss =>
  if negb (transfer args) then
    match use_aux args with
    | Some _ =>
        rbind (add_if (nn.aux_is (use_aux args) "ir")
                 (ir_term b net_return) loss) (fun loss =>
        rbind (add_if (nn.aux_is (use_aux args) "reward")
                 (reward_term b net_return) loss) (fun loss =>
        rbind (add_if (nn.aux_is (use_aux args) "sf")
                 (sf_term h target b net_return) loss) (fun loss =>
        add_if (nn.is_vvf (use_aux args))
          (vvf_term h target transitions b net_return) loss)))
    | None => Ok loss
    end
  else Ok loss))).

(** The values of the parameters at the given locations. *)
Definition read_all (ls : list loc) (h : Heap) : Result (list Tensor) :=
  mapR (fun l => match h !! l with
                 | Some t => Ok t
                 | None => Raise RuntimeError
                 end) ls.

Definition write_all (ls : list loc) (vals : list Tensor) (h : Heap) : Heap :=
  foldl (fun h lv => <[fst lv := snd lv]> h) h (zip ls vals).

(** An in-place update of the elements of parameter number [j], stored
    at [l]; then of all the parameters at [ls]. *)
Definition update_one (upd : nat -> nat -> R) (h : Heap) (jl : nat * loc) :
    Heap :=
  match h !! snd jl with
  | Some t =>
      <[snd jl := mkTensor (shape t)
                    (map (upd (fst jl)) (seq 0 (length (data t))))]> h
  | None => h
  end.

Definition update_all (upd : nat -> nat -> R) (ls : list loc) (h : Heap) :
    Heap :=
  foldl (update_one upd) h (imap pair ls).

Definition optimize (i : Z) : M unit :=
  s <- get ;;
  (* check if replay buffer has enough transition samples *)
  if (Z.of_nat (len (memory s)) <? batch_size args)%Z then ret tt
  else if (batch_size args <? 0)%Z then raise ValueError
  else
    n <- draw ;;
    transitions <- lift (sample (memory s)
                           (random_sample rnd n (len (memory s))
                                          (Z.to_nat (batch_size args)))) ;;
    let ls := map snd (nn.named_parameters (policy_net s)) in
    let f := loss_of (need_next s) (policy_net s) (target_net s) transitions in
    _ <- lift (f (heap s)) ;;
    vals <- lift (read_all ls (heap s)) ;;
    let ou := adamw_step torch (optimizer s) vals
                (fun vs => f (write_all ls vs (heap s))) in
    modify (fun s' => set_optimizer_heap (fst ou)
                        (update_all (snd ou) ls (heap s')) s').

(** *** Target synchronisation *)

(** A computation on the store, run on the store of the machine. *)
Definition on_heap {A} (m : ST Heap A) : M A :=
  fun s => match m (heap s) with
           | Ok (a, h') => Ok (a, set_heap h' s)
           | Raise e => Raise e
           end.

Definition tensor_mul (t : Tensor) (c : R) : Tensor :=
  mkTensor (shape t) (map (fun x => x * c)%R (data t)).

(** The sum of two tensors of one shape; tensors of different shapes are
    reported as an error (broadcasting is not modelled). *)
Definition tensor_add (a b : Tensor) : Result Tensor :=
  if bool_decide (shape a = shape b)
  then Ok (mkTensor (shape a) (zip_with Rplus (data a) (data b)))
  else Raise RuntimeError.

Definition lookup_tensor (h : Heap) (k : string) (d : list (string * nn.TensorRef)) :
    Result Tensor :=
  match nn.dict_get k d with
  | Some v => match nn.deref h v with
              | Some t => Ok t
              | None => Raise RuntimeError
              end
  | None => Raise KeyError
  end.

(** The loop over the keys of the policy dictionary:
    [target[key] = policy[key] * tau + target[key] * (1 - tau)]. *)
Fixpoint blend (h : Heap) (keys : list string)
    (policy_sd target_sd : list (string * nn.TensorRef)) :
    Result (list (string * nn.TensorRef)) :=
  match keys with
  | [] => Ok target_sd
  | key :: keys' =>
      rbind (lookup_tensor h key policy_sd) (fun p =>
      rbind (lookup_tensor h key target_sd) (fun t =>
      rbind (tensor_add (tensor_mul p (tau args))
                        (tensor_mul t (1 - tau args))) (fun v =>
      blend h keys' policy_sd (nn.dict_set key (nn.Fresh v) target_sd))))
  end.

(** The soft update of the target network's weights. *)
Definition soft_update : M unit :=
  s <- get ;;
  let target_net_state_dict := nn.state_dict (target_net s) in
  let policy_net_state_dict := nn.state_dict (policy_net s) in
  sd <- lift (blend (heap s) (map fst policy_net_state_dict)
                policy_net_state_dict target_net_state_dict) ;;
  on_heap (nn.load_state_dict (target_net s) sd) ;;
  emit EvSoftUpdate.

(** The hard update:
    [self.target_net.load_state_dict(self.policy_net.state_dict())]. *)
Definition hard_update (i : Z) : M unit :=
  s <- get ;;
  on_heap (nn.load_state_dict (target_net s) (nn.state_dict (policy_net s))) ;;
  emit (EvHardUpdate i).

(** *** [Agent._save] *)
Definition _save : M unit :=
  when (save_rewards args || save_model args) (emit EvSave).

(** *** [Agent.train] *)

Definition set_locals (f : Frame -> Frame) : M unit :=
  modify (fun s => set_frame (f (frame s)) s).

Definition push_transition (tr : Transition) : M unit :=
  modify (fun s => set_memory (push (memory s) tr) s) ;;
  emit (EvPush tr).

(** [info['virtual-reward']] *)
Definition info_virtual_reward : M R :=
  i <- local l_info ;;
  match i with
  | Some v => ret v
  | None => raise KeyError
  end.

(** Storing the pending transition of an auxiliary task that needs the
    next action, and optimising:
    [push(previous_state, previous_action, state, reward, action, v)],
    where [v] is the virtual reward for the virtual value functions and
    [None] otherwise.  The source has this block twice, at the start of a
    step and at the end of an episode. *)
Definition store_pending (i : Z) (a : Z) : M unit :=
  v <- (if nn.is_vvf (use_aux args)
        then r <- info_virtual_reward ;; ret (Some r)
        else ret None) ;;
  ps <- local l_previous_state ;;
  pa <- local l_previous_action ;;
  st <- local l_state ;;
  r <- local l_reward ;;
  push_transition {| state := ps; action := pa; next_state := Some st;
                     reward := r; next_action := Some a;
                     virtual_reward := v |} ;;
  optimize i.

(** The end of the body of an episode's last step. *)
Definition finish_episode (i : Z) : M unit :=
  s <- get ;;
  let total := l_reward_in_episode (frame s) in
  modify (set_reward_in_episode (reward_in_episode s ++ [total])) ;;
  set_locals (fun f =>
    {| l_consecutive_episodes :=
         if Req_dec_T total 1 then (l_consecutive_episodes f + 1)%Z else 0%Z;
       l_reward_in_episode := l_reward_in_episode f;
       l_state := l_state f; l_info := l_info f;
       l_previous_state := l_previous_state f;
       l_previous_action := l_previous_action f;
       l_reward := l_reward f |}) ;;
  emit (EvEpisodeEnd i).

(** The body of the loop over the steps [t] of episode [i], in three
    parts.  First part: the selection of the action, the environment
    step and the storing, up to the update of the previous state and
    action; the result is the action and [done]. *)
Definition interact (i : Z) (t : nat) : M (Z * bool) :=
  st <- local l_state ;;
  (* select action based on an epsilon-greedy approach *)
  a <- select_action st ;;
  emit (EvSelect st a) ;;
  s <- get ;;
  when (need_next s && (0 <? t)%nat) (store_pending i a) ;;
  (* step in the environment *)
  s <- get ;;
  let r := env_step env (world s) a in
  let rew := snd (fst (fst (fst (snd r)))) in
  let done := snd (fst (fst (snd r))) || snd (fst (snd r)) in
  modify (set_world (fst r)) ;;
  observation <- lift (transpose_2_0_1 (fst (fst (fst (fst (snd r)))))) ;;
  let nxt := unsqueeze_0 observation in
  emit (EvEnvStep st a nxt rew done) ;;
  set_locals (fun f =>
    {| l_consecutive_episodes := l_consecutive_episodes f;
       l_reward_in_episode := l_reward_in_episode f;
       l_state := l_state f; l_info := Some (snd (snd r));
       l_previous_state := l_previous_state f;
       l_previous_action := l_previous_action f;
       l_reward := Some rew |}) ;;
  (* store transitions in memory *)
  when (negb (need_next s))
    (push_transition {| state := st; action := a; next_state := Some nxt;
                        reward := rew; next_action := None;
                        virtual_reward := None |} ;;
     optimize i) ;;
  (* update previous actions and next state *)
  set_locals (fun f =>
    {| l_consecutive_episodes := l_consecutive_episodes f;
       l_reward_in_episode := (l_reward_in_episode f + rew)%R;
       l_state := Some nxt; l_info := l_info f;
       l_previous_state := Some st;
       l_previous_action := Some a;
       l_reward := l_reward f |}) ;;
  ret (a, done).

(** Second part: update target network weights. *)
Definition sync_step : M unit :=
  when (soft_target_update args) soft_update.

(** Third part: check if reached horizon to truncate; the result tells
    whether the loop is left. *)
Definition conclude (i : Z) (t : nat) (a : Z) (done : bool) : M bool :=
  if done || (horizon args <? Z.of_nat t)%Z then
    s <- get ;;
    when (need_next s) (store_pending i a) ;;
    finish_episode i ;;
    ret true
  else ret false.

Definition step (i : Z) (t : nat) : M bool :=
  x <- interact i t ;;
  sync_step ;;
  conclude i t (fst x) (snd x).

(** [for t in count(): ...], with a bound on the number of rounds. *)
Fixpoint steps (fuel : nat) (i : Z) (t : nat) : M unit :=
  match fuel with
  | O => raise OutOfFuel
  | S fuel' =>
      stop <- step i t ;;
      if stop then ret tt else steps fuel' i (S t)
  end.

(** The body of the loop over the episodes, in three parts.  First
    part: the reset of the environment. *)
Definition begin_episode (i : Z) : M unit :=
  s <- get ;;
  let r := env_reset env (world s) in
  modify (set_world (fst r)) ;;
  st <- lift (to_state (fst (snd r))) ;;
  set_locals (fun f =>
    {| l_consecutive_episodes := l_consecutive_episodes f;
       l_reward_in_episode := 0%R;
       l_state := Some st; l_info := Some (snd (snd r));
       l_previous_state := l_previous_state f;
       l_previous_action := l_previous_action f;
       l_reward := l_reward f |}) ;;
  emit (EvReset i).

(** Third part, after the loop over the steps; the result tells whether
    the loop over the episodes is left. *)
Definition end_episode (i : Z) : M bool :=
  (* check for consecutive successful episodes *)
  s <- get ;;
  if (l_consecutive_episodes (frame s) =? consecutive_episodes args)%Z then
    _save ;; ret true
  else
    when (negb (soft_target_update args))
      (if (target_update args =? 0)%Z then raise ZeroDivisionError
       else when (i mod target_update args =? 0)%Z (hard_update i)) ;;
    (* save networks with a frequency defined in config.yaml *)
    (if (save_ratio args =? 0)%Z then raise ZeroDivisionError
     else when (i mod save_ratio args =? 0)%Z _save) ;;
    ret false.

(** A step with [t > horizon] is the last one, so the loop over the
    steps makes at most [max(0, horizon + 1) + 1] rounds. *)
Definition episode (i : Z) : M bool :=
  begin_episode i ;;
  steps (S (Z.to_nat (horizon args + 1))) i 0 ;;
  end_episode i.

(** [for i in trange(max_episodes): ...] *)
Fixpoint episodes (n : nat) (i : Z) : M unit :=
  match n with
  | O => ret tt
  | S n' =>
      stop <- episode i ;;
      if stop then ret tt else episodes n' (i + 1)%Z
  end.

Definition train : M unit :=
  set_locals (fun f =>
    {| l_consecutive_episodes := 0%Z;
       l_reward_in_episode := l_reward_in_episode f;
       l_state := l_state f; l_info := l_info f;
       l_previous_state := l_previous_state f;
       l_previous_action := l_previous_action f;
       l_reward := l_reward f |}) ;;
  episodes (Z.to_nat (max_episodes args)) 0.

End Agent.
End agent.

(** * Vocabulary of the properties *)

Arguments agent.need_next {torch env} _.
Arguments agent.action_space {torch env} _.
Arguments agent.policy_net {torch env} _.
Arguments agent.target_net {torch env} _.
Arguments agent.optimizer {torch env} _.
Arguments agent.memory {torch env} _.
Arguments agent.steps_done {torch env} _.
Arguments agent.reward_in_episode {torch env} _.
Arguments agent.heap {torch env} _.
Arguments agent.world {torch env} _.
Arguments agent.draws {torch env} _.
Arguments agent.frame {torch env} _.
Arguments agent.log {torch env} _.
Arguments agent.set_optimizer_heap {torch env} _ _ _.
Arguments agent.set_heap {torch env} _ _.
Arguments agent.set_memory {torch env} _ _.
Arguments agent.set_steps_done {torch env} _ _.
Arguments agent.set_reward_in_episode {torch env} _ _.
Arguments agent.set_world {torch env} _ _.
Arguments agent.set_draws {torch env} _ _.
Arguments agent.set_frame {torch env} _ _.
Arguments agent.set_log {torch env} _ _.

(** What a tensor keeps under an update in place. *)
Definition sig (t : Tensor) : list nat * nat := (shape t, length (data t)).

(** A constructor that takes fresh, consecutive locations for its
    parameters; their keys and shapes do not depend on the store. *)
Definition allocates {A} (m : ST Heap A) (params : A -> Params) : Prop :=
  exists keys sigs, forall h, exists a ts,
    m h = Ok (a, h ++ ts) /\
    map fst (params a) = keys /\
    map snd (params a) = seq (length h) (length ts) /\
    map sig ts = sigs.


(** The value of the parameter registered under a key. *)
Definition param (h : Heap) (ps : Params) (k : string) : option Tensor :=
  match nn.dict_get k ps with
  | Some l => h !! l
  | None => None
  end.

(** Two networks of one architecture in separate storage: the same keys
    in the same order, each key once, no location used twice, and under
    every key two tensors of one shape and size. *)
Definition mirror (h : Heap) (pol tgt : Params) : Prop :=
  map fst tgt = map fst pol /\
  NoDup (map fst pol) /\
  NoDup (map snd pol ++ map snd tgt) /\
  forall k, k ∈ map fst pol ->
    exists p t, param h pol k = Some p /\ param h tgt k = Some t /\
                sig p = sig t.

(** Every parameter of the second network has the value of the parameter
    of the first network under the same key. *)
Definition in_sync (h : Heap) (pol tgt : Params) : Prop :=
  forall k, param h tgt k = param h pol k.

(** [tau * p + (1 - tau) * t], element by element. *)
Definition soft_blend (tau : R) (p t : Tensor) : Tensor :=
  mkTensor (shape t)
           (zip_with (fun x y => tau * x + (1 - tau) * y)%R (data p) (data t)).

(** ** Effects of the operations of the agent *)

Section Effects.
Context {torch : Torch} {env : Env}.

(** What an operation does to the part of the machine that directs the
    training loop: the configuration and the networks stay, the memory,
    the local variables and the list of episode rewards take the given
    values, and the trace grows by the given events. *)
Definition evolves (s s' : agent.Machine torch env) (m : ReplayMemory)
    (f : agent.Frame) (rie : list R) (evs : list agent.Event) : Prop :=
  agent.need_next s' = agent.need_next s /\
  agent.action_space s' = agent.action_space s /\
  agent.policy_net s' = agent.policy_net s /\
  agent.target_net s' = agent.target_net s /\
  agent.memory s' = m /\
  agent.frame s' = f /\
  agent.reward_in_episode s' = rie /\
  agent.log s' = agent.log s ++ evs.

(** An operation that changes nothing of that part. *)
Definition silent (s s' : agent.Machine torch env) : Prop :=
  evolves s s' (agent.memory s) (agent.frame s) (agent.reward_in_episode s) [].

(** The store of a machine whose two networks mirror each other stays
    so, and no parameter of the target network changes. *)
Definition keeps_target (s s' : agent.Machine torch env) : Prop :=
  mirror (agent.heap s) (nn.named_parameters (agent.policy_net s))
         (nn.named_parameters (agent.target_net s)) ->
  mirror (agent.heap s') (nn.named_parameters (agent.policy_net s))
         (nn.named_parameters (agent.target_net s)) /\
  forall k, param (agent.heap s') (nn.named_parameters (agent.target_net s)) k =
            param (agent.heap s) (nn.named_parameters (agent.target_net s)) k.

(** The store of a machine whose two networks mirror each other stays
    so. *)
Definition keeps_mirror (s s' : agent.Machine torch env) : Prop :=
  mirror (agent.heap s) (nn.named_parameters (agent.policy_net s))
         (nn.named_parameters (agent.target_net s)) ->
  mirror (agent.heap s') (nn.named_parameters (agent.policy_net s))
         (nn.named_parameters (agent.target_net s)).

(** The transition that waits to be stored when action [a] has been
    selected: the previous state and action, the current state, the last
    reward and [a], with the virtual reward [v]. *)
Definition pending (f : agent.Frame) (a : Z) (v : option R) :
    option Transition :=
  match agent.l_previous_state f, agent.l_previous_action f,
        agent.l_state f, agent.l_reward f with
  | Some ps, Some pa, Some st, Some r =>
      Some {| state := ps; action := pa; next_state := Some st; reward := r;
              next_action := Some a; virtual_reward := v |}
  | _, _, _, _ => None
  end.

(** The local variables after the last step of an episode: the count of
    consecutive successful episodes goes up if the episode's reward is
    1, and back to 0 otherwise. *)
Definition finished (f : agent.Frame) : agent.Frame :=
  {| agent.l_consecutive_episodes :=
       if Req_dec_T (agent.l_reward_in_episode f) 1
       then (agent.l_consecutive_episodes f + 1)%Z else 0%Z;
     agent.l_reward_in_episode := agent.l_reward_in_episode f;
     agent.l_state := agent.l_state f; agent.l_info := agent.l_info f;
     agent.l_previous_state := agent.l_previous_state f;
     agent.l_previous_action := agent.l_previous_action f;
     agent.l_reward := agent.l_reward f |}.

(** The local variables after the first part of a step from state [st]
    with action [a], observation [nxt], reward [rew] and info [inf]. *)
Definition stepped (f : agent.Frame) (st : Tensor) (a : Z) (nxt : Tensor)
    (rew : R) (inf : Info) : agent.Frame :=
  {| agent.l_consecutive_episodes := agent.l_consecutive_episodes f;
     agent.l_reward_in_episode := (agent.l_reward_in_episode f + rew)%R;
     agent.l_state := Some nxt; agent.l_info := Some inf;
     agent.l_previous_state := Some st;
     agent.l_previous_action := Some a;
     agent.l_reward := Some rew |}.

(** The transition of a step that is stored at once. *)
Definition immediate (st : Tensor) (a : Z) (nxt : Tensor) (rew : R) :
    Transition :=
  {| state := st; action := a; next_state := Some nxt; reward := rew;
     next_action := None; virtual_reward := None |}.

(** The transition of the last step of an episode as it is stored at the
    end of the episode by a variant that needs the next action: its next
    action is the action of that same step. *)
Definition flushed (st : Tensor) (a : Z) (nxt : Tensor) (rew : R)
    (v : option R) : Transition :=
  {| state := st; action := a; next_state := Some nxt; reward := rew;
     next_action := Some a; virtual_reward := v |}.

(** The local variables after the reset of the environment to state
    [st] with info [inf]. *)
Definition begun (f : agent.Frame) (st : Tensor) (inf : Info) : agent.Frame :=
  {| agent.l_consecutive_episodes := agent.l_consecutive_episodes f;
     agent.l_reward_in_episode := 0%R;
     agent.l_state := Some st; agent.l_info := Some inf;
     agent.l_previous_state := agent.l_previous_state f;
     agent.l_previous_action := agent.l_previous_action f;
     agent.l_reward := agent.l_reward f |}.

(** The events of [_save]. *)
Definition save_events (args : Args) : list agent.Event :=
  if save_rewards args || save_model args then [agent.EvSave] else [].

(** The episodes after which the hard update has run, in order. *)
Definition hard_updates (l : list agent.Event) : list Z :=
  omap (fun e => match e with agent.EvHardUpdate i => Some i | _ => None end) l.

(** *** The order of storing in the trace *)

Definition is_env_step (e : agent.Event) : bool :=
  match e with
  | agent.EvEnvStep _ _ _ _ _ => true
  | _ => false
  end.

(** A transition stored with delay: it is the transition of the last
    environment step, and either the event just before is the selection,
    at the state that step led to, of the action stored as next action,
    or the event just after is the end of the episode. *)
Definition delayed_push (last prev : option agent.Event) (tr : Transition)
    (rest : list agent.Event) : Prop :=
  exists s a nxt r d,
    last = Some (agent.EvEnvStep s a nxt r d) /\
    state tr = s /\ action tr = a /\ next_state tr = Some nxt /\
    reward tr = r /\
    ((exists a', prev = Some (agent.EvSelect nxt a') /\
                 next_action tr = Some a') \/
     (exists i rest', rest = agent.EvEpisodeEnd i :: rest')).

(** A transition stored at once: the event just before is the
    environment step that it records. *)
Definition immediate_push (prev : option agent.Event) (tr : Transition) :
    Prop :=
  exists s a nxt r d,
    prev = Some (agent.EvEnvStep s a nxt r d) /\ tr = immediate s a nxt r.

(** A trace read from left to right, with the last environment step and
    the last event before it: under [need], every push is a delayed
    push; otherwise every push is an immediate push and every
    environment step is followed at once by a push. *)
Fixpoint storage_order (need : bool) (last prev : option agent.Event)
    (l : list agent.Event) : Prop :=
  match l with
  | [] => True
  | e :: rest =>
      match e with
      | agent.EvPush tr =>
          if need then delayed_push last prev tr rest
          else immediate_push prev tr
      | agent.EvEnvStep _ _ _ _ _ =>
          if need then True
          else exists tr rest', rest = agent.EvPush tr :: rest'
      | _ => True
      end /\
      storage_order need (if is_env_step e then Some e else last) (Some e) rest
  end.

Definition last_env_step (last : option agent.Event) (l : list agent.Event) :
    option agent.Event :=
  foldl (fun acc e => if is_env_step e then Some e else acc) last l.

Definition last_event (prev : option agent.Event) (l : list agent.Event) :
    option agent.Event :=
  foldl (fun _ e => Some e) prev l.

(** Between two steps of an episode under [need]: after the first step
    the last environment step is the one that the local variables
    describe. *)
Definition waiting (need : bool) (t : nat) (last : option agent.Event)
    (f : agent.Frame) : Prop :=
  need = true -> (0 < t)%nat ->
  exists ps pa st r d,
    last = Some (agent.EvEnvStep ps pa st r d) /\
    agent.l_previous_state f = Some ps /\
    agent.l_previous_action f = Some pa /\
    agent.l_state f = Some st /\
    agent.l_reward f = Some r.

(** The soft update between two stores: every parameter of the target
    network is the blend of the policy parameter and the old target
    parameter of its key, and the policy parameters keep their values. *)
Definition soft_updated (c : R) (pol tgt : Params) (h h' : Heap) : Prop :=
  (forall k, k ∈ map fst tgt -> exists p t,
     param h pol k = Some p /\ param h tgt k = Some t /\
     param h' tgt k = Some (soft_blend c p t)) /\
  (forall k, param h' pol k = param h pol k).

End Effects.

(** ** The targets of the optimisation step, one transition at a time

    These definitions follow the words of the specification and use
    none of the operations of the embedding of [Agent.optimize]: a
    maximum is an entry that no entry exceeds, a value read at an action
    is the entry at that position, a mean is a sum divided by the number
    of the summands.  The theorems compare them with the batch
    arithmetic of [Agent.optimize]. *)

Section Targets.
Context (torch : Torch) (args : Args).
Local Open Scope R_scope.

(** [m] is the largest entry of the row [q]: an entry that no entry
    exceeds. *)
Definition largest_of (q : list R) (m : R) : Prop :=
  m ∈ q /\ forall x, x ∈ q -> x <= m.

(** [v] is the entry of the row [q] at the position [a], counted
    from 0. *)
Definition entry_at (q : list R) (a : Z) (v : R) : Prop :=
  (0 <= a)%Z /\ q !! Z.to_nat a = Some v.

(** [b] is the bootstrap value of the primary objective: 0 for a
    transition whose next state is absent, and otherwise the largest
    action value of the target network at the next state. *)
Definition bootstrap_value (h : Heap) (target : nn.Network)
    (tr : Transition) (b : R) : Prop :=
  match next_state tr with
  | None => b = 0
  | Some ns =>
      exists r, nn.forward torch h target ns = Ok r /\
                largest_of (nn.ret_q r) b
  end.

(** [y] is the regression target: [reward + gamma * bootstrap value]. *)
Definition td_target (h : Heap) (target : nn.Network) (tr : Transition)
    (y : R) : Prop :=
  exists b, bootstrap_value h target tr b /\ y = reward tr + gamma args * b.

(** [q] is the action value of the policy network at the state of a
    transition, read at the action taken. *)
Definition taken_action_value (h : Heap) (policy : nn.Network)
    (tr : Transition) (q : R) : Prop :=
  exists r, nn.forward torch h policy (state tr) = Ok r /\
            entry_at (nn.ret_q r) (action tr) q.


(** The mean of the squared differences of two vectors: their sum,
    divided by the number of the entries. *)
Definition mean_squared_error (qs ys : list R) : R :=
  fold_right Rplus 0 (zip_with (fun q y => (q - y) * (q - y)) qs ys) /
  INR (length qs).

End Targets.

(** ** A small world to run the agent in *)

(** Collaborators from torch with trivial arithmetic: the convolutions
    give zeros of the right size, FTA gives 640 zeros, and the optimizer
    leaves every parameter as it is. *)
Definition toy_torch : Torch :=
  {| conv2d := fun _ _ _ _ _ => Ok (mkTensor [1024] (repeat 0%R 1024));
     conv_transpose2d := fun _ _ _ _ _ => Ok (mkTensor [675] (repeat 0%R 675));
     fta_forward := fun _ => repeat 0%R 640;
     OptState := unit;
     optimizer_init := fun _ => tt;
     adamw_step := fun _ vals _ =>
       (tt, fun j i => nth i (data (nth j vals (mkTensor [] []))) 0%R) |}.

Definition toy_obs : Tensor := mkTensor [1; 1; 3] [0%R; 0%R; 0%R].

(** An environment with [n] actions whose every step gives reward [r],
    and whose episodes terminate with step number [last] (counted from
    0); its state is the number of steps of the episode. *)
Definition toy_env (n : Z) (r : R) (last : nat) : Env :=
  {| EnvState := nat;
     env_reset := fun _ => (0, (toy_obs, Some 0%R));
     env_step := fun w _ =>
       (S w, (toy_obs, r, (last <=? w)%nat, false, Some 0%R));
     action_space_n := n;
     action_space_sample := fun _ => 0%Z |}.

(** A random generator that always draws 0 and samples the first
    positions. *)
Definition toy_random : Random :=
  {| random_random := fun _ => 0%R;
     random_sample := fun _ _ k => seq 0 k |}.

(** A configuration: one episode, batches of 128, hard updates after
    every episode, training ends with the first successful episode, and
    the exploration threshold is constantly 1. *)
Definition toy_args (aux : option string) (soft : bool) : Args :=
  {| learning_rate := 1; batch_size := 128; gamma := 1;
     eps_start := 1; eps_end := 1; eps_decay := 1;
     horizon := 100; max_episodes := 1; consecutive_episodes := 1;
     target_update := 1; soft_target_update := soft; tau := 0.1;
     use_fta := false; use_aux := aux; aux_loss_weight := 1;
     transfer := false; save_ratio := 1; save_model := false;
     save_rewards := false; plot_during_training := false |}.

Definition toy_init : Init := fun _ _ => 0%R.

(** Initial values from a table: the tensor created at a location of
    the table gets the listed values, every other tensor is 0. *)
Definition toy_init_with (table : list (loc * list R)) : Init :=
  fun l i =>
    match list_find (fun e => bool_decide (fst e = l)) table with
    | Some (_, (_, vals)) => nth i vals 0%R
    | None => 0%R
    end.

(** A configuration with another discount and batch size. *)
Definition with_discount (g : R) (b : Z) (a : Args) : Args :=
  {| learning_rate := learning_rate a; batch_size := b; gamma := g;
     eps_start := eps_start a; eps_end := eps_end a; eps_decay := eps_decay a;
     horizon := horizon a; max_episodes := max_episodes a;
     consecutive_episodes := consecutive_episodes a;
     target_update := target_update a;
     soft_target_update := soft_target_update a; tau := tau a;
     use_fta := use_fta a; use_aux := use_aux a;
     aux_loss_weight := aux_loss_weight a; transfer := transfer a;
     save_ratio := save_ratio a; save_model := save_model a;
     save_rewards := save_rewards a;
     plot_during_training := plot_during_training a |}.

(** A configuration with another batch size. *)
Definition with_batch_size (b : Z) (a : Args) : Args :=
  {| learning_rate := learning_rate a; batch_size := b; gamma := gamma a;
     eps_start := eps_start a; eps_end := eps_end a; eps_decay := eps_decay a;
     horizon := horizon a; max_episodes := max_episodes a;
     consecutive_episodes := consecutive_episodes a;
     target_update := target_update a;
     soft_target_update := soft_target_update a; tau := tau a;
     use_fta := use_fta a; use_aux := use_aux a;
     aux_loss_weight := aux_loss_weight a; transfer := transfer a;
     save_ratio := save_ratio a; save_model := save_model a;
     save_rewards := save_rewards a;
     plot_during_training := plot_during_training a |}.

(** A configuration with another exploration schedule. *)
Definition with_exploration (es ee ed : R) (a : Args) : Args :=
  {| learning_rate := learning_rate a; batch_size := batch_size a;
     gamma := gamma a;
     eps_start := es; eps_end := ee; eps_decay := ed;
     horizon := horizon a; max_episodes := max_episodes a;
     consecutive_episodes := consecutive_episodes a;
     target_update := target_update a;
     soft_target_update := soft_target_update a; tau := tau a;
     use_fta := use_fta a; use_aux := use_aux a;
     aux_loss_weight := aux_loss_weight a; transfer := transfer a;
     save_ratio := save_ratio a; save_model := save_model a;
     save_rewards := save_rewards a;
     plot_during_training := plot_during_training a |}.

(** The state that the small environment shows, as the agent holds it. *)
Definition toy_state : Tensor :=
  unsqueeze_0 (mkTensor [3; 1; 1] [0; 0; 0]%R).

(** A transition of the small world. *)
Definition toy_transition (next : option Tensor) (na : option Z)
    (vr : option R) : Transition :=
  {| state := toy_state; action := 0; next_state := next; reward := 1%R;
     next_action := na; virtual_reward := vr |}.

(** A transition of the small world with the given action, reward and
    optional fields. *)
Definition toy_move (a : Z) (r : R) (next : option Tensor) (na : option Z)
    (vr : option R) : Transition :=
  {| state := toy_state; action := a; next_state := next; reward := r;
     next_action := na; virtual_reward := vr |}.

(** ** What a trace records *)

Section Traces.
Context {torch : Torch} {env : Env}.

(** The rewards of the environment steps of a trace, in order. *)
Definition env_rewards (l : list agent.Event) : list R :=
  omap (fun e => match e with
                 | agent.EvEnvStep _ _ _ r _ => Some r
                 | _ => None
                 end) l.

(** The [done] flags of the environment steps of a trace, in order. *)
Definition env_dones (l : list agent.Event) : list bool :=
  omap (fun e => match e with
                 | agent.EvEnvStep _ _ _ _ d => Some d
                 | _ => None
                 end) l.

(** The actions selected in a trace, in order. *)
Definition selections (l : list agent.Event) : list Z :=
  omap (fun e => match e with
                 | agent.EvSelect _ a => Some a
                 | _ => None
                 end) l.

(** The transitions stored in a trace, in order. *)
Definition pushes (l : list agent.Event) : list Transition :=
  omap (fun e => match e with
                 | agent.EvPush tr => Some tr
                 | _ => None
                 end) l.

(** The episodes that a trace ends, in order. *)
Definition episode_ends (l : list agent.Event) : list Z :=
  omap (fun e => match e with
                 | agent.EvEpisodeEnd i => Some i
                 | _ => None
                 end) l.

(** The sum of the rewards as the training loop builds it: from the
    left, starting at [acc]. *)
Definition add_rewards (acc : R) (rs : list R) : R := foldl Rplus acc rs.

End Traces.

(** The count of consecutive successful episodes after episodes with
    the given rewards, from the count [c]: one more after a reward of
    exactly 1, and 0 after any other reward. *)
Definition streak (c : Z) (rs : list R) : Z :=
  foldl (fun c r => if Req_dec_T r 1 then (c + 1)%Z else 0%Z) c rs.

(** A transition whose optional fields are those of the configured
    variant: the next action is held exactly by the variants that store
    with delay, the virtual reward exactly by the virtual value
    functions. *)
Definition fits_variant (args : Args) (tr : Transition) : Prop :=
  (is_Some (next_action tr) <-> agent.requires_next (use_aux args) = true) /\
  (is_Some (virtual_reward tr) <-> nn.is_vvf (use_aux args) = true).

(** A part of the training loop that keeps the flag [need_next] and
    stores only transitions that fit the variant. *)
Definition stores_fitting {torch : Torch} {env : Env} (args : Args)
    (s s' : agent.Machine torch env) : Prop :=
  agent.need_next s' = agent.need_next s /\
  exists block, agent.log s' = agent.log s ++ block /\
                Forall (fits_variant args) (pushes block).

(** A configuration with another schedule of the target updates and of
    the saving. *)
Definition with_schedule (tu sr : Z) (t : R) (a : Args) : Args :=
  {| learning_rate := learning_rate a; batch_size := batch_size a;
     gamma := gamma a;
     eps_start := eps_start a; eps_end := eps_end a; eps_decay := eps_decay a;
     horizon := horizon a; max_episodes := max_episodes a;
     consecutive_episodes := consecutive_episodes a;
     target_update := tu;
     soft_target_update := soft_target_update a; tau := t;
     use_fta := use_fta a; use_aux := use_aux a;
     aux_loss_weight := aux_loss_weight a; transfer := transfer a;
     save_ratio := sr; save_model := save_model a;
     save_rewards := save_rewards a;
     plot_during_training := plot_during_training a |}.

(** A configuration with another weight of the auxiliary loss. *)
Definition with_aux_loss_weight (w : R) (a : Args) : Args :=
  {| learning_rate := learning_rate a; batch_size := batch_size a;
     gamma := gamma a;
     eps_start := eps_start a; eps_end := eps_end a; eps_decay := eps_decay a;
     horizon := horizon a; max_episodes := max_episodes a;
     consecutive_episodes := consecutive_episodes a;
     target_update := target_update a;
     soft_target_update := soft_target_update a; tau := tau a;
     use_fta := use_fta a; use_aux := use_aux a;
     aux_loss_weight := w; transfer := transfer a;
     save_ratio := save_ratio a; save_model := save_model a;
     save_rewards := save_rewards a;
     plot_during_training := plot_during_training a |}.

(** A store in which the weight of a linear layer has [o] rows and [i]
    columns. *)
Definition layer (h : Heap) (l : nn.Linear) (i o : nat) : Prop :=
  exists W, h !! nn.weight l = Some W /\ shape W = [o; i].

(** ** What the replay memory is fed *)

(** What a stored transition records of its step: state, action, next
    state and reward. *)
Definition recorded (tr : Transition) : Tensor * Z * option Tensor * R :=
  (state tr, action tr, next_state tr, reward tr).

Section Steps.
Context {torch : Torch} {env : Env}.

(** The environment steps of a trace, in order: the state and the action
    of the step, the observation and the reward. *)
Definition env_steps (l : list agent.Event) :
    list (Tensor * Z * option Tensor * R) :=
  omap (fun e => match e with
                 | agent.EvEnvStep s a nxt r _ => Some (s, a, Some nxt, r)
                 | _ => None
                 end) l.

(** The steps that wait to be stored before step [t] of an episode:
    under [need], after the first step, the step that the local
    variables describe; none otherwise. *)
Definition owed (need : bool) (t : nat) (f : agent.Frame)
    (q : list (Tensor * Z * option Tensor * R)) : Prop :=
  if need && (0 <? t)%nat then
    exists ps pa st r,
      agent.l_previous_state f = Some ps /\
      agent.l_previous_action f = Some pa /\
      agent.l_state f = Some st /\ agent.l_reward f = Some r /\
      q = [(ps, pa, Some st, r)]
  else q = [].

(** A part of the training loop that stores each of its environment
    steps once, in order, and feeds the memory nothing else. *)
Definition stores_steps (s s' : agent.Machine torch env) : Prop :=
  agent.need_next s' = agent.need_next s /\
  exists block,
    agent.log s' = agent.log s ++ block /\
    agent.memory s' = foldl push (agent.memory s) (pushes block) /\
    map recorded (pushes block) = env_steps block.

End Steps.
(** * Properties *)

(** ** The monad *)

Lemma rbind_Ok {A B} (r : Result A) (k : A -> Result B) (b : B) :
  rbind r k = Ok b -> exists a, r = Ok a /\ k a = Ok b.
Proof. destruct r as [a|e]; cbn; [eauto | discriminate]. Qed.

Lemma bind_Ok {S A B} (m : ST S A) (k : A -> ST S B) s b s'' :
  bind m k s = Ok (b, s'') ->
  exists a s', m s = Ok (a, s') /\ k a s' = Ok (b, s'').
Proof.
  unfold bind. destruct (m s) as [[a s']|e]; [eauto | discriminate].
Qed.

Lemma mapR_Ok_length {A B} (f : A -> Result B) l l' :
  mapR f l = Ok l' -> length l' = length l.
Proof.
  revert l'; induction l as [|x l IH]; intros l' H; cbn in H.
  - by injection H as <-.
  - apply rbind_Ok in H as (y & _ & H). apply rbind_Ok in H as (ys & Hys & H).
    injection H as <-. cbn. f_equal. by apply IH.
Qed.

Lemma mapR_Ok_lookup {A B} (f : A -> Result B) l l' i x :
  mapR f l = Ok l' -> l !! i = Some x -> exists y, l' !! i = Some y /\ f x = Ok y.
Proof.
  revert l' i; induction l as [|z l IH]; intros l' i H Hi; [done|].
  cbn in H. apply rbind_Ok in H as (y & Hy & H).
  apply rbind_Ok in H as (ys & Hys & H). injection H as <-.
  destruct i as [|i]; cbn in *.
  - injection Hi as ->. eauto.
  - eauto.
Qed.

(** ** Allocation of parameters *)

Lemma map_fst_rename g ps : map fst (rename g ps) = map g (map fst ps).
Proof. unfold rename. rewrite !map_map. done. Qed.

Lemma map_snd_rename g ps : map snd (rename g ps) = map snd ps.
Proof. unfold rename. rewrite map_map. done. Qed.

Lemma rename_id ps : rename (fun k => k) ps = ps.
Proof. unfold rename. induction ps as [|[k l] ps IH]; cbn; congruence. Qed.

Ltac alloc_next H h :=
  let a := fresh "a" in let t := fresh "t" in
  let E := fresh "E" in let K := fresh "K" in
  let L := fresh "L" in let S := fresh "S" in
  destruct (H h) as (a & t & E & K & L & S).

Ltac alloc_close Hpc :=
  unfold bind, ret;
  repeat match goal with E : _ _ = Ok _ |- _ => rewrite E; clear E end;
  rewrite Hpc;
  rewrite ?map_app, ?map_fst_rename, ?map_snd_rename;
  repeat match goal with K : map _ _ = _ |- _ => rewrite K; clear K end;
  rewrite ?length_app, ?seq_app, ?app_assoc, ?Nat.add_assoc; done.

Lemma allocates_2 {A B C} (m : ST Heap A) (n : ST Heap B)
    (f : A -> B -> C) pa pb pc ga gb :
  allocates m pa -> allocates n pb ->
  (forall a b, pc (f a b) = rename ga (pa a) ++ rename gb (pb b)) ->
  allocates (bind m (fun a => bind n (fun b => ret (f a b)))) pc.
Proof.
  intros (ka & sa & Ha) (kb & sb & Hb) Hpc.
  exists (map ga ka ++ map gb kb), (sa ++ sb). intros h.
  alloc_next Ha h. alloc_next Hb (h ++ t).
  exists (f a a0), (t ++ t0). alloc_close Hpc.
Qed.

Lemma allocates_3 {A B C D} (m : ST Heap A) (n : ST Heap B) (o : ST Heap C)
    (f : A -> B -> C -> D) pa pb pc pd ga gb gc :
  allocates m pa -> allocates n pb -> allocates o pc ->
  (forall a b c, pd (f a b c) =
     rename ga (pa a) ++ rename gb (pb b) ++ rename gc (pc c)) ->
  allocates (bind m (fun a => bind n (fun b => bind o (fun c =>
               ret (f a b c))))) pd.
Proof.
  intros (ka & sa & Ha) (kb & sb & Hb) (kc & sc & Hc) Hpd.
  exists (map ga ka ++ map gb kb ++ map gc kc), (sa ++ sb ++ sc). intros h.
  alloc_next Ha h. alloc_next Hb (h ++ t). alloc_next Hc ((h ++ t) ++ t0).
  exists (f a a0 a1), (t ++ t0 ++ t1). alloc_close Hpd.
Qed.

Lemma allocates_5 {A B C D E F} (m : ST Heap A) (n : ST Heap B)
    (o : ST Heap C) (p : ST Heap D) (q : ST Heap E)
    (f : A -> B -> C -> D -> E -> F) pa pb pc pd pe pf ga gb gc gd ge :
  allocates m pa -> allocates n pb -> allocates o pc -> allocates p pd ->
  allocates q pe ->
  (forall a b c d e, pf (f a b c d e) =
     rename ga (pa a) ++ rename gb (pb b) ++ rename gc (pc c) ++
     rename gd (pd d) ++ rename ge (pe e)) ->
  allocates (bind m (fun a => bind n (fun b => bind o (fun c =>
             bind p (fun d => bind q (fun e => ret (f a b c d e))))))) pf.
Proof.
  intros (ka & sa & Ha) (kb & sb & Hb) (kc & sc & Hc) (kd & sd & Hd)
         (ke & se & He) Hpf.
  exists (map ga ka ++ map gb kb ++ map gc kc ++ map gd kd ++ map ge ke),
         (sa ++ sb ++ sc ++ sd ++ se). intros h.
  alloc_next Ha h. alloc_next Hb (h ++ t). alloc_next Hc ((h ++ t) ++ t0).
  alloc_next Hd (((h ++ t) ++ t0) ++ t1).
  alloc_next He ((((h ++ t) ++ t0) ++ t1) ++ t2).
  exists (f a a0 a1 a2 a3), (t ++ t0 ++ t1 ++ t2 ++ t3). alloc_close Hpf.
Qed.

Lemma allocates_1 {A B} (m : ST Heap A) (f : A -> B) pa pb g :
  allocates m pa -> (forall a, pb (f a) = rename g (pa a)) ->
  allocates (bind m (fun a => ret (f a))) pb.
Proof.
  intros (ka & sa & Ha) Hpb. exists (map g ka), sa. intros h. alloc_next Ha h.
  exists (f a), t. alloc_close Hpb.
Qed.

Lemma allocates_parameter ini sh k :
  allocates (new_parameter ini sh) (fun l => [(k, l)]).
Proof.
  exists [k], [(sh, numel sh)]. intros h.
  exists (length h), [new_tensor ini (length h) sh]. unfold new_parameter.
  repeat split. cbn. unfold sig, new_tensor. cbn.
  by rewrite length_map, length_seq.
Qed.

Section NetworkAllocation.
Context (ini : Init).

Lemma Linear_init_allocates i o :
  allocates (nn.Linear_init ini i o) nn.Linear_parameters.
Proof.
  unfold nn.Linear_init.
  eapply (allocates_2 _ _ _ _ _ _ (fun k => k) (fun k => k));
    [apply allocates_parameter with (k := "weight"%string)
    |apply allocates_parameter with (k := "bias"%string)|reflexivity].
Qed.

Lemma Conv2d_init_allocates cin cout k s p :
  allocates (nn.Conv2d_init ini cin cout k s p) nn.Conv_parameters.
Proof.
  unfold nn.Conv2d_init.
  eapply (allocates_2 _ _ _ _ _ _ (fun k => k) (fun k => k));
    [apply allocates_parameter with (k := "weight"%string)
    |apply allocates_parameter with (k := "bias"%string)|reflexivity].
Qed.

Lemma ConvTranspose2d_init_allocates cin cout k s p :
  allocates (nn.ConvTranspose2d_init ini cin cout k s p) nn.Conv_parameters.
Proof.
  unfold nn.ConvTranspose2d_init.
  eapply (allocates_2 _ _ _ _ _ _ (fun k => k) (fun k => k));
    [apply allocates_parameter with (k := "weight"%string)
    |apply allocates_parameter with (k := "bias"%string)|reflexivity].
Qed.

Lemma Linear_init_if_allocates (b : bool) i i' o :
  allocates (if b then nn.Linear_init ini i o else nn.Linear_init ini i' o)
            nn.Linear_parameters.
Proof. destruct b; apply Linear_init_allocates. Qed.

Lemma SFNetwork_init_allocates use_fta :
  allocates (nn.SFNetwork_init ini use_fta) nn.SFNetwork_parameters.
Proof.
  unfold nn.SFNetwork_init. destruct use_fta;
    (eapply allocates_2; [apply Linear_init_allocates..|reflexivity]).
Qed.

Lemma Reward_init_allocates use_fta :
  allocates (nn.Reward_init ini use_fta) nn.Reward_parameters.
Proof.
  unfold nn.Reward_init.
  eapply allocates_3;
    [apply Linear_init_if_allocates|apply Linear_init_allocates..|reflexivity].
Qed.

Lemma InputReconstruction_init_allocates use_fta :
  allocates (nn.InputReconstruction_init ini use_fta)
            nn.InputReconstruction_parameters.
Proof.
  unfold nn.InputReconstruction_init.
  eapply allocates_3;
    [apply Linear_init_if_allocates
    |apply ConvTranspose2d_init_allocates..|reflexivity].
Qed.

Lemma VirtualValueFunction_init_allocates use_fta :
  allocates (nn.VirtualValueFunction_init ini use_fta)
            nn.VirtualValueFunction_parameters.
Proof.
  unfold nn.VirtualValueFunction_init.
  eapply allocates_3;
    [apply Linear_init_if_allocates|apply Linear_init_allocates..|reflexivity].
Qed.

Lemma RepresentationNetwork_init_allocates use_fta :
  allocates (nn.RepresentationNetwork_init ini use_fta)
            nn.RepresentationNetwork_parameters.
Proof.
  unfold nn.RepresentationNetwork_init.
  eapply allocates_3;
    [apply Conv2d_init_allocates..|apply Linear_init_allocates|reflexivity].
Qed.

Lemma allocates_nothing {A} (a : A) (pa : A -> Params) :
  pa a = [] -> allocates (ret a) pa.
Proof.
  intros H. exists [], []. intros h. exists a, []. unfold ret.
  rewrite H, app_nil_r. done.
Qed.

Lemma AuxNetwork_init_allocates use_fta use_aux :
  allocates (nn.AuxNetwork_init ini use_fta use_aux) nn.AuxNetwork_parameters.
Proof.
  unfold nn.AuxNetwork_init.
  destruct (negb (nn.aux_is use_aux "no_aux"));
    [|by apply allocates_nothing].
  destruct (nn.aux_is use_aux "ir").
  { eapply allocates_1;
      [apply InputReconstruction_init_allocates|reflexivity]. }
  destruct (nn.aux_is use_aux "reward").
  { eapply allocates_1; [apply Reward_init_allocates|reflexivity]. }
  destruct (nn.aux_is use_aux "sf").
  { eapply allocates_2;
      [apply SFNetwork_init_allocates
      |apply InputReconstruction_init_allocates|reflexivity]. }
  destruct (nn.is_vvf use_aux); [|by apply allocates_nothing].
  eapply allocates_1; [apply VirtualValueFunction_init_allocates|reflexivity].
Qed.

Lemma Network_init_allocates use_fta use_aux :
  allocates (nn.Network_init ini use_fta use_aux) nn.named_parameters.
Proof.
  unfold nn.Network_init.
  eapply (allocates_5 _ _ _ _ _ _ _ _ _ _ _ _ _ _ (fun k => k));
    [apply RepresentationNetwork_init_allocates
    |apply Linear_init_if_allocates
    |apply AuxNetwork_init_allocates
    |apply Linear_init_allocates..|].
  intros a b c d e. rewrite (rename_id (nn.AuxNetwork_parameters c)).
  reflexivity.
Qed.

End NetworkAllocation.

(** ** Dictionaries and the store *)

Lemma dict_get_Some_elem {V} k (v : V) d :
  nn.dict_get k d = Some v -> (k, v) ∈ d.
Proof.
  induction d as [|[k' v'] d IH]; cbn; [done|].
  destruct (String.eqb_spec k k') as [->|Hne].
  - intros [= ->]. left.
  - intros H. right. auto.
Qed.

Lemma dict_get_is_Some {V} k (d : list (string * V)) :
  is_Some (nn.dict_get k d) <-> k ∈ map fst d.
Proof.
  induction d as [|[k' v'] d IH]; cbn.
  - split; [intros [? [=]] | intros H; inversion H].
  - destruct (String.eqb_spec k k') as [->|Hne].
    + split; [intros _; left | eauto].
    + rewrite IH. split; [by right|]. intros H.
      apply elem_of_cons in H as [?|?]; done.
Qed.

Lemma dict_get_NoDup {V} k (v : V) d :
  NoDup (map fst d) -> (k, v) ∈ d -> nn.dict_get k d = Some v.
Proof.
  induction d as [|[k' v'] d IH]; cbn; intros Hnd Hin; [inversion Hin|].
  apply NoDup_cons in Hnd as [Hk Hnd].
  apply elem_of_cons in Hin as [[= -> ->]|Hin].
  - by rewrite String.eqb_refl.
  - destruct (String.eqb_spec k k') as [->|Hne]; [|auto].
    exfalso. apply Hk. apply list_elem_of_fmap. by exists (k', v).
Qed.

Lemma dict_get_lookup {V} (d : list (string * V)) i k v :
  NoDup (map fst d) -> d !! i = Some (k, v) -> nn.dict_get k d = Some v.
Proof.
  intros Hnd Hi. apply dict_get_NoDup; [done|].
  by apply list_elem_of_lookup_2 with i.
Qed.

Lemma dict_get_snd_elem {V} k (v : V) d :
  nn.dict_get k d = Some v -> v ∈ map snd d.
Proof.
  intros H. apply dict_get_Some_elem in H. apply list_elem_of_fmap.
  by exists (k, v).
Qed.

Lemma dict_get_state_dict k net :
  nn.dict_get k (nn.state_dict net) =
  nn.Stored <$> nn.dict_get k (nn.named_parameters net).
Proof.
  unfold nn.state_dict. induction (nn.named_parameters net) as [|[k' l] ps IH];
    cbn; [done|].
  destruct (String.eqb k k'); [done|apply IH].
Qed.

Lemma map_fst_state_dict net :
  map fst (nn.state_dict net) = map fst (nn.named_parameters net).
Proof. unfold nn.state_dict. by rewrite map_map. Qed.

Lemma named_parameters_keys_NoDup net :
  NoDup (map fst (nn.named_parameters net)).
Proof.
  destruct net as [f u r q1 a q2 q3]. unfold nn.named_parameters.
  destruct a; cbn.
  all: apply (bool_decide_unpack _); vm_compute; reflexivity.
Qed.

Arguments nn.named_parameters : simpl never.

Lemma tensor_eta t : mkTensor (shape t) (data t) = t.
Proof. by destruct t. Qed.

(** The copy of the parameters, one by one. *)
Lemma copy_params_spec (L : list loc) ps sd h :
  NoDup (map snd ps) ->
  map snd ps ⊆ L ->
  Forall (fun kl => exists v t old,
            nn.dict_get (fst kl) sd = Some v /\ nn.deref h v = Some t /\
            h !! snd kl = Some old /\ shape t = shape old /\
            forall l, v = nn.Stored l -> l ∉ L) ps ->
  exists h', nn.copy_params ps sd h = Ok h' /\
    length h' = length h /\
    (forall l, l ∉ map snd ps -> h' !! l = h !! l) /\
    Forall (fun kl => exists v, nn.dict_get (fst kl) sd = Some v /\
                                h' !! snd kl = nn.deref h v) ps.
Proof.
  revert h. induction ps as [|[k l] ps IH]; intros h Hnd Hsub Hall.
  { exists h. cbn. repeat split; auto. }
  cbn in Hnd, Hsub. apply NoDup_cons in Hnd as [Hl Hnd].
  apply Forall_cons in Hall as [(v & t & old & Hv & Ht & Hold & Hsh & Hfresh) Hall].
  cbn in Hv, Hold. cbn [nn.copy_params]. rewrite Hv, Ht, Hold.
  rewrite bool_decide_true; [|done]. rewrite <- Hsh, tensor_eta.
  assert (Hlt : l < length h) by (by apply lookup_lt_Some with old).
  assert (Hderef : forall v', (forall l', v' = nn.Stored l' -> l' ∉ L) ->
                    nn.deref (<[l:=t]> h) v' = nn.deref h v').
  { intros [l'|t'] Hf; cbn; [|done]. apply list_lookup_insert_ne.
    intros <-. apply (Hf l); [done|]. apply Hsub. left. }
  rewrite Forall_forall in Hall.
  destruct (IH (<[l:=t]> h)) as (h' & Hcp & Hlen & Hout & Hin).
  - done.
  - intros x Hx. apply Hsub. by right.
  - apply Forall_forall. intros [k2 l2] Hin2.
    destruct (Hall _ Hin2) as (v2 & t2 & old2 & Hv2 & Ht2 & Hold2 & Hsh2 & Hf2).
    exists v2, t2, old2. cbn in *. repeat split; auto.
    + by rewrite Hderef.
    + rewrite list_lookup_insert_ne; [done|]. intros <-. apply Hl.
      apply list_elem_of_fmap. by exists (k2, l).
  - exists h'. split; [done|]. split; [by rewrite Hlen, length_insert|].
    split.
    + intros l0 Hl0. cbn in Hl0. apply not_elem_of_cons in Hl0 as [Hne Hl0].
      rewrite Hout by done. by apply list_lookup_insert_ne.
    + apply Forall_cons. split.
      * exists v. split; [done|]. cbn. rewrite Hout by done.
        rewrite Ht. by apply list_lookup_insert_eq.
      * rewrite Forall_forall in Hin. apply Forall_forall. intros kl Hkl.
        destruct (Hin _ Hkl) as (v2 & Hv2 & Hl2). exists v2. split; [done|].
        rewrite Hl2. apply Hderef.
        destruct (Hall _ Hkl) as (v3 & ? & ? & Hv3 & _ & _ & _ & Hf3).
        rewrite Hv2 in Hv3. by injection Hv3 as <-.
Qed.

Lemma load_state_dict_spec net sd h :
  NoDup (map snd (nn.named_parameters net)) ->
  map fst sd = map fst (nn.named_parameters net) ->
  (forall k l, nn.dict_get k (nn.named_parameters net) = Some l ->
     exists v t old,
       nn.dict_get k sd = Some v /\ nn.deref h v = Some t /\
       h !! l = Some old /\ shape t = shape old /\
       forall l', v = nn.Stored l' -> l' ∉ map snd (nn.named_parameters net)) ->
  exists h', nn.load_state_dict net sd h = Ok (tt, h') /\
    length h' = length h /\
    (forall l, l ∉ map snd (nn.named_parameters net) -> h' !! l = h !! l) /\
    (forall k l v, nn.dict_get k (nn.named_parameters net) = Some l ->
       nn.dict_get k sd = Some v -> h' !! l = nn.deref h v).
Proof.
  intros Hnd Hkeys Hall. unfold nn.load_state_dict.
  pose proof (named_parameters_keys_NoDup net) as Hndk.
  destruct (copy_params_spec (map snd (nn.named_parameters net))
              (nn.named_parameters net) sd h) as (h' & Hcp & Hlen & Hout & Hin).
  - done.
  - done.
  - apply Forall_forall. intros [k l] Hkl. cbn.
    apply Hall. by apply dict_get_NoDup.
  - exists h'. rewrite Hcp.
    replace (forallb _ sd) with true.
    2:{ symmetry. apply forallb_forall. intros [k v] Hkv.
        apply bool_decide_eq_true_2. cbn [fst]. apply dict_get_is_Some.
        rewrite <- Hkeys. apply list_elem_of_fmap. exists (k, v).
        split; [done|]. by apply list_elem_of_In. }
    repeat split; [done..|].
    intros k l v Hk Hv. rewrite Forall_forall in Hin.
    apply dict_get_Some_elem in Hk.
    destruct (Hin _ Hk) as (v' & Hv' & Hl'). cbn in Hv', Hl'. congruence.
Qed.

Lemma param_Some h ps k t :
  param h ps k = Some t ->
  exists l, nn.dict_get k ps = Some l /\ h !! l = Some t.
Proof. unfold param. destruct (nn.dict_get k ps); [eauto|done]. Qed.

Lemma mirror_key_tgt h pol tgt k :
  mirror h pol tgt -> k ∈ map fst tgt <-> k ∈ map fst pol.
Proof. intros (-> & _). done. Qed.

Lemma mirror_disjoint h pol tgt lp lt :
  mirror h pol tgt -> lp ∈ map snd pol -> lt ∈ map snd tgt -> lp <> lt.
Proof.
  intros (_ & _ & Hnd & _) Hp Ht ->. apply NoDup_app in Hnd as (_ & Hd & _).
  by apply (Hd lt).
Qed.

(** Writing into the parameters of the target network leaves those of
    the policy network alone. *)
Lemma param_outside h h' ps k (L : list loc) :
  (forall l, l ∉ L -> h' !! l = h !! l) ->
  (forall l, l ∈ map snd ps -> l ∉ L) ->
  param h' ps k = param h ps k.
Proof.
  intros Hout Hdis. unfold param.
  destruct (nn.dict_get k ps) as [l|] eqn:E; [|done].
  apply Hout, Hdis. by apply dict_get_snd_elem with k.
Qed.

(** The hard update on two mirrored networks: it succeeds, every target
    parameter becomes equal to the policy parameter of the same key, and
    the policy parameters keep their values. *)
Lemma load_policy_state_dict h pol tgt :
  mirror h (nn.named_parameters pol) (nn.named_parameters tgt) ->
  exists h', nn.load_state_dict tgt (nn.state_dict pol) h = Ok (tt, h') /\
    in_sync h' (nn.named_parameters pol) (nn.named_parameters tgt) /\
    (forall k, param h' (nn.named_parameters pol) k =
               param h (nn.named_parameters pol) k) /\
    mirror h' (nn.named_parameters pol) (nn.named_parameters tgt).
Proof.
  intros Hm. pose proof Hm as (Hkeys & Hndk & Hndl & Hsig).
  pose proof Hndl as Hndl'. apply NoDup_app in Hndl' as (Hndp & Hdis & Hndt).
  destruct (load_state_dict_spec tgt (nn.state_dict pol) h)
    as (h' & Hld & Hlen & Hout & Hin).
  - done.
  - by rewrite map_fst_state_dict.
  - intros k l Hk.
    assert (Hkin : k ∈ map fst (nn.named_parameters pol)).
    { rewrite <- Hkeys. apply dict_get_is_Some. eauto. }
    destruct (Hsig k Hkin) as (p & t & Hp & Ht & Hs).
    apply param_Some in Hp as (lp & Hlp & Hhp).
    apply param_Some in Ht as (lt & Hlt & Hht).
    assert (lt = l) as -> by congruence.
    exists (nn.Stored lp), p, t. rewrite dict_get_state_dict, Hlp. cbn.
    repeat split; [done..|by injection Hs|].
    intros l' [= <-]. intros Hin'. apply (Hdis lp); [|done].
    by apply dict_get_snd_elem with k.
  - assert (Hpol : forall k, param h' (nn.named_parameters pol) k =
                             param h (nn.named_parameters pol) k).
    { intros k. apply param_outside with (map snd (nn.named_parameters tgt));
        [done|]. intros l Hl Hl'. by apply (Hdis l). }
    assert (Hsync : in_sync h' (nn.named_parameters pol) (nn.named_parameters tgt)).
    { intros k. rewrite Hpol. unfold param at 1.
      destruct (nn.dict_get k (nn.named_parameters tgt)) as [lt|] eqn:Elt.
      - assert (Hkin : k ∈ map fst (nn.named_parameters pol)).
        { rewrite <- Hkeys. apply dict_get_is_Some. eauto. }
        apply dict_get_is_Some in Hkin as [lp Hlp].
        rewrite (Hin k lt (nn.Stored lp)); [|done|].
        + unfold param. by rewrite Hlp.
        + by rewrite dict_get_state_dict, Hlp.
      - unfold param.
        destruct (nn.dict_get k (nn.named_parameters pol)) as [lp|] eqn:Elp;
          [|done].
        exfalso. assert (is_Some (nn.dict_get k (nn.named_parameters tgt))) as [? ?].
        { apply dict_get_is_Some. rewrite Hkeys. apply dict_get_is_Some. eauto. }
        congruence. }
    exists h'. repeat split; try done.
    intros k Hk. destruct (Hsig k Hk) as (p & t & Hp & Ht & Hs).
    exists p, p. rewrite Hsync, Hpol. done.
Qed.

Lemma dict_get_position {V} k (v : V) d :
  nn.dict_get k d = Some v ->
  exists i, map fst d !! i = Some k /\ map snd d !! i = Some v.
Proof.
  induction d as [|[k' v'] d IH]; cbn; [done|].
  destruct (String.eqb_spec k k') as [->|Hne].
  - intros [= ->]. by exists 0.
  - intros H. destruct (IH H) as (i & ? & ?). by exists (S i).
Qed.

(** Two networks built one after the other by the same constructor
    mirror each other. *)
Lemma allocated_mirror (h0 tp tt : Heap) (pol tgt : Params) keys sigs :
  map fst pol = keys -> map snd pol = seq (length h0) (length tp) ->
  map sig tp = sigs ->
  map fst tgt = keys -> map snd tgt = seq (length (h0 ++ tp)) (length tt) ->
  map sig tt = sigs ->
  NoDup keys ->
  mirror ((h0 ++ tp) ++ tt) pol tgt.
Proof.
  intros Kp Lp Sp Kt Lt St Hnd.
  assert (Hlen : length tt = length tp).
  { by rewrite <- (length_map sig tt), St, <- Sp, length_map. }
  split; [congruence|]. split; [congruence|]. split.
  { rewrite Lp, Lt, length_app, Hlen, <- seq_app. apply NoDup_seq. }
  intros k Hk. apply dict_get_is_Some in Hk as [lp Hlp].
  destruct (dict_get_position _ _ _ Hlp) as (i & Hki & Hli).
  assert (is_Some (nn.dict_get k tgt)) as [lt Hlt].
  { apply dict_get_is_Some. rewrite Kt, <- Kp. apply dict_get_is_Some. eauto. }
  destruct (dict_get_position _ _ _ Hlt) as (j & Hkj & Hlj).
  assert (j = i) as ->.
  { rewrite Kt in Hkj. rewrite Kp in Hki. by eapply NoDup_lookup. }
  rewrite Lp in Hli. rewrite Lt in Hlj.
  apply lookup_seq in Hli as [-> Hi]. apply lookup_seq in Hlj as [-> _].
  destruct (lookup_lt_is_Some_2 tp i Hi) as [p Hp].
  destruct (lookup_lt_is_Some_2 tt i) as [t Ht]; [by rewrite Hlen|].
  exists p, t. unfold param. rewrite Hlp, Hlt.
  split; [|split].
  - rewrite lookup_app_l by (rewrite length_app; lia).
    rewrite lookup_app_r by lia. by replace (length h0 + i - length h0) with i by lia.
  - rewrite lookup_app_r by lia.
    by replace (length (h0 ++ tp) + i - length (h0 ++ tp)) with i by lia.
  - assert (map sig tp !! i = Some (sig p)) by (by rewrite list_lookup_fmap, Hp).
    assert (map sig tt !! i = Some (sig t)) by (by rewrite list_lookup_fmap, Ht).
    congruence.
Qed.

Section AgentInit.
Context (torch : Torch) (env : Env) (args : Args).

Lemma init_spec ini h0 w d :
  exists s, agent.init torch env args ini h0 w d = Ok s /\
    mirror (agent.heap s)
           (nn.named_parameters (agent.policy_net s))
           (nn.named_parameters (agent.target_net s)) /\
    in_sync (agent.heap s)
            (nn.named_parameters (agent.policy_net s))
            (nn.named_parameters (agent.target_net s)) /\
    agent.need_next s = agent.requires_next (use_aux args) /\
    agent.action_space s = action_space_n env /\
    agent.memory s = ReplayMemory_init 1000000 /\
    agent.steps_done s = 0 /\
    agent.reward_in_episode s = [] /\
    agent.world s = w /\
    agent.draws s = d /\
    agent.frame s = agent.empty_frame /\
    agent.log s = [].
Proof.
  destruct (Network_init_allocates ini (use_fta args) (use_aux args))
    as (keys & sigs & Hal).
  destruct (Hal h0) as (pol & tp & Ep & Kp & Lp & Sp).
  destruct (Hal (h0 ++ tp)) as (tgt & tt & Et & Kt & Lt & St).
  assert (Hm : mirror ((h0 ++ tp) ++ tt) (nn.named_parameters pol)
                      (nn.named_parameters tgt)).
  { eapply allocated_mirror; try done. rewrite <- Kp.
    apply named_parameters_keys_NoDup. }
  destruct (load_policy_state_dict _ _ _ Hm) as (h' & Hld & Hsync & _ & Hm').
  unfold agent.init. rewrite Ep. cbn [rbind fst snd]. rewrite Et.
  cbn [rbind fst snd]. rewrite Hld. cbn [rbind fst snd].
  eexists. split; [reflexivity|]. cbn. done.
Qed.

End AgentInit.

(** ** The target network after construction *)

(** C10.  Immediately after the construction of the agent every
    parameter of the target network has the value of the parameter of the
    policy network under the same key, and the two networks do not share
    storage: no location holds a parameter of both, so a write to a
    parameter of the policy network does not change any parameter of the
    target network.  Nothing has been stored, selected or logged yet. *)
Theorem target_net_starts_as_copy_of_policy_net
    (torch : Torch) (env : Env) (args : Args) ini h0 w d :
  exists s, agent.init torch env args ini h0 w d = Ok s /\
    let pol := nn.named_parameters (agent.policy_net s) in
    let tgt := nn.named_parameters (agent.target_net s) in
    map fst tgt = map fst pol /\
    (forall k, k ∈ map fst tgt ->
       exists v, param (agent.heap s) tgt k = Some v /\
                 param (agent.heap s) pol k = Some v) /\
    (forall lp lt, lp ∈ map snd pol -> lt ∈ map snd tgt -> lp <> lt) /\
    (forall lp v k, lp ∈ map snd pol ->
       param (<[lp := v]> (agent.heap s)) tgt k = param (agent.heap s) tgt k) /\
    agent.log s = [] /\ agent.steps_done s = 0 /\
    items (agent.memory s) = [].
Proof.
  destruct (init_spec torch env args ini h0 w d)
    as (s & Hs & Hm & Hsync & _ & _ & Hmem & Hsd & _ & _ & _ & _ & Hlog).
  exists s. split; [done|]. cbn zeta.
  pose proof Hm as (Hkeys & Hndk & Hndl & Hsig).
  split; [done|]. split; [|split; [|split]].
  - intros k Hk. rewrite Hkeys in Hk.
    destruct (Hsig k Hk) as (p & t & Hp & Ht & _).
    exists t. split; [done|]. by rewrite <- Hsync.
  - intros lp lt. by apply mirror_disjoint with (agent.heap s).
  - intros lp v k Hlp. eapply param_outside with (L := [lp]).
    + intros l Hl. apply list_lookup_insert_ne. intros <-. apply Hl. left.
    + intros l Hl Hl'. apply list_elem_of_singleton in Hl' as ->.
      by eapply (mirror_disjoint _ _ _ lp lp Hm).
  - rewrite Hlog, Hsd, Hmem. done.
Qed.

(** ** Target synchronisation *)

Lemma dict_get_set_eq {V} k (v : V) d : nn.dict_get k (nn.dict_set k v d) = Some v.
Proof.
  induction d as [|[k' v'] d IH]; cbn.
  - by rewrite String.eqb_refl.
  - destruct (String.eqb_spec k k') as [->|Hne]; cbn.
    + by rewrite String.eqb_refl.
    + destruct (String.eqb_spec k k'); [done|apply IH].
Qed.

Lemma dict_get_set_ne {V} k k' (v : V) d :
  k' <> k -> nn.dict_get k' (nn.dict_set k v d) = nn.dict_get k' d.
Proof.
  intros Hne. induction d as [|[k2 v2] d IH]; cbn.
  - destruct (String.eqb_spec k' k); done.
  - destruct (String.eqb_spec k k2) as [->|Hne2]; cbn.
    + destruct (String.eqb_spec k' k2); done.
    + destruct (String.eqb_spec k' k2); [done|apply IH].
Qed.

Lemma map_fst_dict_set {V} k (v : V) d :
  is_Some (nn.dict_get k d) -> map fst (nn.dict_set k v d) = map fst d.
Proof.
  induction d as [|[k' v'] d IH]; cbn; [intros [? [=]]|].
  destruct (String.eqb_spec k k') as [->|Hne]; cbn; [done|].
  intros H. f_equal. by apply IH.
Qed.

Section SoftUpdate.
Context (args : Args).

Lemma tensor_add_mul p t :
  shape p = shape t ->
  agent.tensor_add (agent.tensor_mul p (tau args))
                   (agent.tensor_mul t (1 - tau args)) =
  Ok (soft_blend (tau args) p t).
Proof.
  intros Hs. unfold agent.tensor_add, agent.tensor_mul, soft_blend. cbn.
  rewrite bool_decide_true by done. rewrite Hs. do 2 f_equal.
  generalize (data t). induction (data p) as [|x xs IH]; intros [|y ys];
    cbn; try done.
  f_equal; [lra|apply IH].
Qed.

Lemma blend_spec h keys (pol_sd tgt_sd : list (string * nn.TensorRef)) :
  NoDup keys ->
  (forall k, k ∈ keys -> exists p t,
     agent.lookup_tensor h k pol_sd = Ok p /\
     agent.lookup_tensor h k tgt_sd = Ok t /\ shape p = shape t) ->
  exists sd, agent.blend args h keys pol_sd tgt_sd = Ok sd /\
    map fst sd = map fst tgt_sd /\
    (forall k, k ∉ keys -> nn.dict_get k sd = nn.dict_get k tgt_sd) /\
    (forall k, k ∈ keys -> exists p t,
       agent.lookup_tensor h k pol_sd = Ok p /\
       agent.lookup_tensor h k tgt_sd = Ok t /\
       nn.dict_get k sd = Some (nn.Fresh (soft_blend (tau args) p t))).
Proof.
  revert tgt_sd. induction keys as [|k keys IH]; intros tgt_sd Hnd Hall.
  { exists tgt_sd. cbn. repeat split; auto. intros k Hk. inversion Hk. }
  apply NoDup_cons in Hnd as [Hk Hnd].
  destruct (Hall k) as (p & t & Hp & Ht & Hs); [left|].
  cbn [agent.blend]. rewrite Hp, Ht. cbn [rbind].
  rewrite tensor_add_mul by done. cbn [rbind].
  assert (Hsome : is_Some (nn.dict_get k tgt_sd)).
  { unfold agent.lookup_tensor in Ht.
    destruct (nn.dict_get k tgt_sd); [eauto|done]. }
  assert (Hlk : forall k', k' <> k ->
            agent.lookup_tensor h k'
              (nn.dict_set k (nn.Fresh (soft_blend (tau args) p t)) tgt_sd) =
            agent.lookup_tensor h k' tgt_sd).
  { intros k' Hne. unfold agent.lookup_tensor. by rewrite dict_get_set_ne. }
  destruct (IH (nn.dict_set k (nn.Fresh (soft_blend (tau args) p t)) tgt_sd))
    as (sd & Hb & Hkeys & Hother & Hin).
  - done.
  - intros k' Hk'. destruct (Hall k') as (p' & t' & ? & ? & ?); [by right|].
    exists p', t'. rewrite Hlk; [done|]. by intros ->.
  - exists sd. split; [done|]. split; [|split].
    + by rewrite Hkeys, map_fst_dict_set.
    + intros k' Hk'. apply not_elem_of_cons in Hk' as [Hne Hk'].
      rewrite Hother by done. by apply dict_get_set_ne.
    + intros k' Hk'. apply elem_of_cons in Hk' as [->|Hk'].
      * exists p, t. rewrite Hother by done. by rewrite dict_get_set_eq.
      * destruct (Hin k' Hk') as (p' & t' & ? & Ht' & ?). exists p', t'.
        rewrite Hlk in Ht'; [done|]. by intros ->.
Qed.

End SoftUpdate.

Section Synchronisation.
Context (torch : Torch) (env : Env) (rnd : Random) (args : Args).

Lemma lookup_tensor_state_dict h net k t :
  param h (nn.named_parameters net) k = Some t ->
  agent.lookup_tensor h k (nn.state_dict net) = Ok t.
Proof.
  intros Hp. apply param_Some in Hp as (l & Hl & Hh).
  unfold agent.lookup_tensor. rewrite dict_get_state_dict, Hl. cbn.
  by rewrite Hh.
Qed.

Lemma sig_soft_blend c p t : sig p = sig t -> sig (soft_blend c p t) = sig t.
Proof.
  unfold sig, soft_blend. cbn. intros [= Hs Hl]. f_equal.
  rewrite length_zip_with. lia.
Qed.

(** The soft update on two mirrored networks: it succeeds, every target
    parameter becomes the blend of the two parameters of its key, and the
    policy parameters keep their values. *)
Lemma soft_update_heap h pol tgt :
  mirror h (nn.named_parameters pol) (nn.named_parameters tgt) ->
  exists sd h',
    agent.blend args h (map fst (nn.state_dict pol)) (nn.state_dict pol)
                (nn.state_dict tgt) = Ok sd /\
    nn.load_state_dict tgt sd h = Ok (tt, h') /\
    (forall k, k ∈ map fst (nn.named_parameters tgt) -> exists p t,
       param h (nn.named_parameters pol) k = Some p /\
       param h (nn.named_parameters tgt) k = Some t /\
       param h' (nn.named_parameters tgt) k =
         Some (soft_blend (tau args) p t)) /\
    (forall k, param h' (nn.named_parameters pol) k =
               param h (nn.named_parameters pol) k) /\
    mirror h' (nn.named_parameters pol) (nn.named_parameters tgt).
Proof.
  intros Hm. pose proof Hm as (Hkeys & Hndk & Hndl & Hsig).
  pose proof Hndl as Hndl'. apply NoDup_app in Hndl' as (Hndp & Hdis & Hndt).
  destruct (blend_spec args h (map fst (nn.state_dict pol)) (nn.state_dict pol)
              (nn.state_dict tgt)) as (sd & Hb & Hk & Hother & Hin).
  { by rewrite map_fst_state_dict. }
  { intros k Hk. rewrite map_fst_state_dict in Hk.
    destruct (Hsig k Hk) as (p & t & Hp & Ht & Hs). exists p, t.
    split; [by apply lookup_tensor_state_dict|].
    split; [by apply lookup_tensor_state_dict|]. by injection Hs. }
  assert (Hval : forall k, k ∈ map fst (nn.named_parameters pol) -> exists p t,
            param h (nn.named_parameters pol) k = Some p /\
            param h (nn.named_parameters tgt) k = Some t /\
            sig p = sig t /\
            nn.dict_get k sd = Some (nn.Fresh (soft_blend (tau args) p t))).
  { intros k Hkp. destruct (Hsig k Hkp) as (p & t & Hp & Ht & Hs).
    destruct (Hin k) as (p' & t' & Hp' & Ht' & Hd);
      [by rewrite map_fst_state_dict|].
    rewrite (lookup_tensor_state_dict _ _ _ _ Hp) in Hp'.
    rewrite (lookup_tensor_state_dict _ _ _ _ Ht) in Ht'.
    injection Hp' as <-. injection Ht' as <-. by exists p, t. }
  destruct (load_state_dict_spec tgt sd h) as (h' & Hld & Hlen & Hout & Hload).
  - done.
  - by rewrite Hk, map_fst_state_dict.
  - intros k l Hl.
    assert (Hkp : k ∈ map fst (nn.named_parameters pol)).
    { rewrite <- Hkeys. apply dict_get_is_Some. eauto. }
    destruct (Hval k Hkp) as (p & t & Hp & Ht & Hs & Hd).
    apply param_Some in Ht as (l' & Hl' & Hh).
    assert (l' = l) as -> by congruence.
    exists (nn.Fresh (soft_blend (tau args) p t)), (soft_blend (tau args) p t), t.
    repeat split; done.
  - assert (Hpol : forall k, param h' (nn.named_parameters pol) k =
                             param h (nn.named_parameters pol) k).
    { intros k. apply param_outside with (map snd (nn.named_parameters tgt));
        [done|]. intros l Hl Hl'. by apply (Hdis l). }
    assert (Htgt : forall k, k ∈ map fst (nn.named_parameters tgt) -> exists p t,
              param h (nn.named_parameters pol) k = Some p /\
              param h (nn.named_parameters tgt) k = Some t /\
              sig p = sig t /\
              param h' (nn.named_parameters tgt) k =
                Some (soft_blend (tau args) p t)).
    { intros k Hkt. rewrite Hkeys in Hkt.
      destruct (Hval k Hkt) as (p & t & Hp & Ht & Hs & Hd).
      exists p, t. repeat split; try done.
      pose proof Ht as Ht'. apply param_Some in Ht' as (l & Hl & Hh).
      unfold param at 1. rewrite Hl.
      by rewrite (Hload k l _ Hl Hd). }
    exists sd, h'. repeat split; try done.
    + intros k Hkt. destruct (Htgt k Hkt) as (p & t & ? & ? & ? & ?).
      by exists p, t.
    + intros k Hkp. pose proof Hkp as Hkt. rewrite <- Hkeys in Hkt.
      destruct (Htgt k Hkt) as (p & t & Hp & Ht & Hs & Ht').
      exists p, (soft_blend (tau args) p t). rewrite Hpol.
      repeat split; try done. by rewrite sig_soft_blend.
Qed.

End Synchronisation.

(** ** The optimizer's update in place *)

Lemma update_one_spec upd (h : Heap) j l :
  length (agent.update_one upd h (j, l)) = length h /\
  (forall l0, l0 <> l -> agent.update_one upd h (j, l) !! l0 = h !! l0) /\
  (forall l0, sig <$> agent.update_one upd h (j, l) !! l0 = sig <$> h !! l0).
Proof.
  unfold agent.update_one. cbn [fst snd].
  destruct (h !! l) as [t|] eqn:Et; [|done].
  split; [by rewrite length_insert|]. split.
  - intros l0 Hne. by apply list_lookup_insert_ne.
  - intros l0. destruct (decide (l = l0)) as [<-|Hne].
    + rewrite list_lookup_insert_eq by (by apply lookup_lt_Some with t).
      unfold sig. rewrite Et. cbn. by rewrite length_map, length_seq.
    + by rewrite list_lookup_insert_ne.
Qed.

Lemma update_one_fold upd (jl : list (nat * loc)) (h : Heap) :
  length (foldl (agent.update_one upd) h jl) = length h /\
  (forall l, l ∉ map snd jl -> foldl (agent.update_one upd) h jl !! l = h !! l) /\
  (forall l, sig <$> foldl (agent.update_one upd) h jl !! l = sig <$> h !! l).
Proof.
  revert h. induction jl as [|[j l] jl IH]; intros h; [done|].
  cbn [foldl]. destruct (IH (agent.update_one upd h (j, l))) as (Hlen & Hout & Hsig).
  destruct (update_one_spec upd h j l) as (Hlen1 & Hout1 & Hsig1).
  split; [congruence|]. split.
  - intros l0 Hl0. cbn in Hl0. apply not_elem_of_cons in Hl0 as [Hne Hl0].
    rewrite Hout by done. by apply Hout1.
  - intros l0. by rewrite Hsig.
Qed.

Lemma map_snd_imap_pair (ls : list loc) : map snd (imap pair ls) = ls.
Proof.
  assert (forall g : nat -> loc -> nat * loc, (forall i x, snd (g i x) = x) ->
            map snd (imap g ls) = ls) as Hg.
  { induction ls as [|x ls IH]; intros g Hg; cbn; [done|].
    rewrite Hg. f_equal. apply IH. intros i y. apply Hg. }
  by apply Hg.
Qed.

Lemma update_all_spec upd ls (h : Heap) :
  length (agent.update_all upd ls h) = length h /\
  (forall l, l ∉ ls -> agent.update_all upd ls h !! l = h !! l) /\
  (forall l, sig <$> agent.update_all upd ls h !! l = sig <$> h !! l).
Proof.
  unfold agent.update_all.
  destruct (update_one_fold upd (imap pair ls) h) as (H1 & H2 & H3).
  split; [done|]. split; [|done]. intros l Hl. apply H2.
  by rewrite map_snd_imap_pair.
Qed.

(** An update in place of the parameters of the policy network keeps the
    two networks mirrored and leaves every parameter of the target
    network as it is. *)
Lemma update_all_mirror upd h pol tgt :
  mirror h pol tgt ->
  mirror (agent.update_all upd (map snd pol) h) pol tgt /\
  forall k, param (agent.update_all upd (map snd pol) h) tgt k = param h tgt k.
Proof.
  intros (Hkeys & Hndk & Hndl & Hsig).
  destruct (update_all_spec upd (map snd pol) h) as (Hlen & Hout & Hs).
  pose proof Hndl as Hndl'. apply NoDup_app in Hndl' as (_ & Hdis & _).
  assert (Ht : forall k, param (agent.update_all upd (map snd pol) h) tgt k =
                         param h tgt k).
  { intros k. apply param_outside with (map snd pol); [done|].
    intros l Hl Hl'. by apply (Hdis l). }
  split; [|done]. repeat split; try done.
  intros k Hk. destruct (Hsig k Hk) as (p & t & Hp & Htg & Hpt).
  apply param_Some in Hp as (l & Hl & Hh).
  pose proof (Hs l) as Hsl. rewrite Hh in Hsl. cbn in Hsl.
  destruct (agent.update_all upd (map snd pol) h !! l) as [p'|] eqn:Ep';
    [|done].
  injection Hsl as Hsl Hdl. exists p', t.
  split; [unfold param; by rewrite Hl|]. split; [by rewrite Ht|].
  rewrite <- Hpt. unfold sig. congruence.
Qed.

(** ** The operations of the agent, one by one *)

Section Operations.
Context (torch : Torch) (env : Env) (rnd : Random) (args : Args).

Local Abbreviation Machine := (agent.Machine torch env).

Implicit Types s : Machine.

Ltac msimpl :=
  cbn [agent.need_next agent.action_space agent.policy_net agent.target_net
       agent.optimizer agent.memory agent.steps_done agent.reward_in_episode
       agent.heap agent.world agent.draws agent.frame agent.log
       agent.set_optimizer_heap agent.set_heap agent.set_memory
       agent.set_steps_done agent.set_reward_in_episode agent.set_world
       agent.set_draws agent.set_frame agent.set_log fst snd] in *.

Lemma evolves_trans s s1 s2 m1 f1 r1 l1 m2 f2 r2 l2 :
  evolves s s1 m1 f1 r1 l1 -> evolves s1 s2 m2 f2 r2 l2 ->
  evolves s s2 m2 f2 r2 (l1 ++ l2).
Proof.
  intros (? & ? & ? & ? & ? & ? & ? & Hl1) (? & ? & ? & ? & ? & ? & ? & Hl2).
  repeat split; try congruence. by rewrite Hl2, Hl1, app_assoc.
Qed.

Lemma silent_refl s : silent s s.
Proof. repeat split. by rewrite app_nil_r. Qed.

Lemma silent_evolves s s1 s2 m f r l :
  silent s s1 -> evolves s1 s2 m f r l -> evolves s s2 m f r l.
Proof. intros H1 H2. apply (evolves_trans _ _ _ _ _ _ _ _ _ _ _ H1 H2). Qed.

Lemma keeps_target_refl s s' : agent.heap s' = agent.heap s -> keeps_target s s'.
Proof. intros E Hm. by rewrite E. Qed.

Lemma keeps_target_trans s s1 s2 :
  agent.policy_net s1 = agent.policy_net s ->
  agent.target_net s1 = agent.target_net s ->
  keeps_target s s1 -> keeps_target s1 s2 -> keeps_target s s2.
Proof.
  intros Ep Et H1 H2 Hm. destruct (H1 Hm) as [Hm1 Hp1].
  unfold keeps_target in H2. rewrite Ep, Et in H2.
  destruct (H2 Hm1) as [Hm2 Hp2]. split; [done|]. intros k.
  by rewrite Hp2, Hp1.
Qed.

Lemma keeps_target_mirror s s' : keeps_target s s' -> keeps_mirror s s'.
Proof. intros H Hm. by apply H. Qed.

Lemma keeps_mirror_trans s s1 s2 :
  agent.policy_net s1 = agent.policy_net s ->
  agent.target_net s1 = agent.target_net s ->
  keeps_mirror s s1 -> keeps_mirror s1 s2 -> keeps_mirror s s2.
Proof.
  intros Ep Et H1 H2 Hm. unfold keeps_mirror in H2. rewrite Ep, Et in H2. auto.
Qed.

Lemma local_inv {A} (v : agent.Frame -> option A) s x s' :
  agent.local torch env v s = Ok (x, s') -> s' = s /\ v (agent.frame s) = Some x.
Proof.
  unfold agent.local, bind, get, ret, raise.
  destruct (v (agent.frame s)); [|done]. by intros [= -> ->].
Qed.

Lemma lift_inv {A} (r : Result A) s x s' :
  lift r s = Ok (x, s') -> s' = s /\ r = Ok x.
Proof. unfold lift. destruct r; [|done]. by intros [= -> ->]. Qed.

Lemma select_action_inv st s a s' :
  agent.select_action torch env rnd args st s = Ok (a, s') ->
  silent s s' /\ agent.heap s' = agent.heap s /\
  agent.steps_done s' = (agent.steps_done s + 1)%nat.
Proof.
  unfold agent.select_action, agent.draw, bind, get, modify, ret, lift.
  msimpl.
  destruct (agent.eps_threshold args (agent.steps_done s)) as [eps|]; [|done].
  destruct (Rgt_dec _ _).
  - destruct (nn.forward _ _ _ _) as [out|]; [|done].
    destruct (row_argmax _); [|done]. intros [= <- <-].
    repeat split. msimpl. by rewrite app_nil_r.
  - intros [= <- <-]. repeat split. msimpl. by rewrite app_nil_r.
Qed.

Lemma optimize_inv i s u s' :
  agent.optimize torch env rnd args i s = Ok (u, s') ->
  silent s s' /\ keeps_target s s'.
Proof.
  unfold agent.optimize, agent.draw, bind, get, modify, ret, raise, lift.
  msimpl.
  destruct (_ <? _)%Z.
  { intros [= <- <-]. split; [apply silent_refl|by apply keeps_target_refl]. }
  destruct (_ <? _)%Z; [done|].
  destruct (sample _ _) as [trs|]; [|done].
  destruct (agent.loss_of _ _ _ _ _ _ _) as [l|]; [|done].
  destruct (agent.read_all _ _) as [vals|]; [|done].
  intros [= <- <-]. split.
  - repeat split. msimpl. by rewrite app_nil_r.
  - intros Hm. msimpl. by apply update_all_mirror.
Qed.

Lemma push_transition_eq tr s :
  agent.push_transition torch env tr s =
  Ok (tt, agent.set_log (agent.log s ++ [agent.EvPush tr])
            (agent.set_memory (push (agent.memory s) tr) s)).
Proof. reflexivity. Qed.

Lemma store_pending_inv i a s u s' :
  agent.store_pending torch env rnd args i a s = Ok (u, s') ->
  exists v tr, pending (agent.frame s) a v = Some tr /\
    (v = None <-> nn.is_vvf (use_aux args) = false) /\
    evolves s s' (push (agent.memory s) tr) (agent.frame s)
            (agent.reward_in_episode s) [agent.EvPush tr] /\
    keeps_target s s'.
Proof.
  unfold agent.store_pending. intros H.
  apply bind_Ok in H as (v & s1 & Hv & H).
  assert (s1 = s /\ (v = None <-> nn.is_vvf (use_aux args) = false)) as [-> Hvv].
  { destruct (nn.is_vvf (use_aux args)).
    - apply bind_Ok in Hv as (r & s2 & Hr & Hv). injection Hv as <- <-.
      unfold agent.info_virtual_reward in Hr.
      apply bind_Ok in Hr as (i0 & s3 & Hi & Hr). apply local_inv in Hi as [-> _].
      destruct i0; [|done]. injection Hr as <- <-. split; [done|]. split; done.
    - injection Hv as <- <-. done. }
  apply bind_Ok in H as (ps & s1 & Hps & H). apply local_inv in Hps as [-> Hps].
  apply bind_Ok in H as (pa & s1 & Hpa & H). apply local_inv in Hpa as [-> Hpa].
  apply bind_Ok in H as (st & s1 & Hst & H). apply local_inv in Hst as [-> Hst].
  apply bind_Ok in H as (r & s1 & Hr & H). apply local_inv in Hr as [-> Hr].
  apply bind_Ok in H as ([] & s1 & Hpush & H).
  rewrite push_transition_eq in Hpush. injection Hpush as <-.
  apply optimize_inv in H as [Hsil Hkt].
  eexists v, _. split; [unfold pending; by rewrite Hps, Hpa, Hst, Hr|].
  split; [done|]. split.
  - destruct Hsil as (? & ? & ? & ? & ? & ? & ? & Hl). msimpl.
    repeat split; try done. by rewrite Hl, app_nil_r.
  - intros Hm. apply Hkt. done.
Qed.

End Operations.

Section StepParts.
Context (torch : Torch) (env : Env) (rnd : Random) (args : Args).

Local Abbreviation Machine := (agent.Machine torch env).

Implicit Types s : Machine.

Ltac msimpl :=
  cbn [agent.need_next agent.action_space agent.policy_net agent.target_net
       agent.optimizer agent.memory agent.steps_done agent.reward_in_episode
       agent.heap agent.world agent.draws agent.frame agent.log
       agent.set_optimizer_heap agent.set_heap agent.set_memory
       agent.set_steps_done agent.set_reward_in_episode agent.set_world
       agent.set_draws agent.set_frame agent.set_log fst snd] in *.

Ltac fsimpl :=
  cbn [agent.l_consecutive_episodes agent.l_reward_in_episode agent.l_state
       agent.l_info agent.l_previous_state agent.l_previous_action
       agent.l_reward] in *.

Lemma soft_update_inv s u s' :
  agent.soft_update torch env args s = Ok (u, s') ->
  evolves s s' (agent.memory s) (agent.frame s) (agent.reward_in_episode s)
          [agent.EvSoftUpdate] /\
  (mirror (agent.heap s) (nn.named_parameters (agent.policy_net s))
          (nn.named_parameters (agent.target_net s)) ->
   mirror (agent.heap s') (nn.named_parameters (agent.policy_net s))
          (nn.named_parameters (agent.target_net s)) /\
   soft_updated (tau args) (nn.named_parameters (agent.policy_net s))
                (nn.named_parameters (agent.target_net s))
                (agent.heap s) (agent.heap s')).
Proof.
  unfold agent.soft_update, agent.on_heap, agent.emit, bind, get, modify, lift.
  msimpl.
  destruct (agent.blend _ _ _ _ _) as [sd|] eqn:Eb; [|done].
  destruct (nn.load_state_dict _ _ _) as [[[] h']|] eqn:El; [|done].
  intros [= <- <-]. split; [repeat split|].
  intros Hm. destruct (soft_update_heap args _ _ _ Hm)
    as (sd0 & h0 & Eb0 & El0 & Hblend & Hpol & Hm').
  rewrite Eb in Eb0. injection Eb0 as <-.
  rewrite El in El0. injection El0 as <-. msimpl. done.
Qed.

Lemma hard_update_inv i s u s' :
  agent.hard_update torch env i s = Ok (u, s') ->
  evolves s s' (agent.memory s) (agent.frame s) (agent.reward_in_episode s)
          [agent.EvHardUpdate i] /\
  (mirror (agent.heap s) (nn.named_parameters (agent.policy_net s))
          (nn.named_parameters (agent.target_net s)) ->
   mirror (agent.heap s') (nn.named_parameters (agent.policy_net s))
          (nn.named_parameters (agent.target_net s)) /\
   in_sync (agent.heap s') (nn.named_parameters (agent.policy_net s))
           (nn.named_parameters (agent.target_net s)) /\
   forall k, param (agent.heap s') (nn.named_parameters (agent.policy_net s)) k =
             param (agent.heap s) (nn.named_parameters (agent.policy_net s)) k).
Proof.
  unfold agent.hard_update, agent.on_heap, agent.emit, bind, get, modify.
  msimpl.
  destruct (nn.load_state_dict _ _ _) as [[[] h']|] eqn:El; [|done].
  intros [= <- <-]. split; [repeat split|].
  intros Hm. destruct (load_policy_state_dict _ _ _ Hm)
    as (h0 & El0 & Hsync & Hpol & Hm').
  rewrite El in El0. injection El0 as <-. msimpl. done.
Qed.

(** The hard update of two mirrored networks does not fail. *)
Lemma hard_update_total i s :
  mirror (agent.heap s) (nn.named_parameters (agent.policy_net s))
         (nn.named_parameters (agent.target_net s)) ->
  exists s', agent.hard_update torch env i s = Ok (tt, s').
Proof.
  intros Hm. destruct (load_policy_state_dict _ _ _ Hm) as (h0 & El0 & _).
  unfold agent.hard_update, agent.on_heap, agent.emit, bind, get, modify.
  msimpl. rewrite El0. eauto.
Qed.

(** The soft update of two mirrored networks does not fail. *)
Lemma soft_update_total s :
  mirror (agent.heap s) (nn.named_parameters (agent.policy_net s))
         (nn.named_parameters (agent.target_net s)) ->
  exists s', agent.soft_update torch env args s = Ok (tt, s').
Proof.
  intros Hm. destruct (soft_update_heap args _ _ _ Hm)
    as (sd0 & h0 & Eb0 & El0 & _).
  unfold agent.soft_update, agent.on_heap, agent.emit, bind, get, modify, lift.
  msimpl. rewrite Eb0, El0. eauto.
Qed.


(** The first part of a step. *)
Lemma interact_inv i t s a done s' :
  agent.interact torch env rnd args i t s = Ok ((a, done), s') ->
  exists st nxt rew inf (pend imm : list Transition),
    agent.l_state (agent.frame s) = Some st /\
    (if agent.need_next s && (0 <? t)%nat
     then exists v tr, pending (agent.frame s) a v = Some tr /\ pend = [tr]
     else pend = []) /\
    imm = (if agent.need_next s then [] else [immediate st a nxt rew]) /\
    evolves s s' (foldl push (agent.memory s) (pend ++ imm))
            (stepped (agent.frame s) st a nxt rew inf)
            (agent.reward_in_episode s)
            ([agent.EvSelect st a] ++ map agent.EvPush pend ++
             [agent.EvEnvStep st a nxt rew done] ++ map agent.EvPush imm) /\
    keeps_target s s'.
Proof.
  unfold agent.interact. intros H.
  apply bind_Ok in H as (st & s1 & Hst & H). apply local_inv in Hst as [-> Hst].
  apply bind_Ok in H as (a0 & s1 & Hsel & H).
  apply select_action_inv in Hsel as (Hsil1 & Hh1 & _).
  apply bind_Ok in H as ([] & s2 & Hemit & H).
  unfold agent.emit, modify in Hemit. injection Hemit as <-.
  apply bind_Ok in H as (sg & s2 & Hget & H).
  unfold get in Hget. injection Hget as <- <-.
  apply bind_Ok in H as ([] & s3 & Hpend & H).
  apply bind_Ok in H as (sg & s4 & Hget & H).
  unfold get in Hget. injection Hget as <- <-.
  apply bind_Ok in H as ([] & s5 & Hw & H).
  unfold modify in Hw. injection Hw as <-.
  apply bind_Ok in H as (obs & s5 & Hobs & H). apply lift_inv in Hobs as [-> Hobs].
  apply bind_Ok in H as ([] & s5 & Hemit & H).
  unfold agent.emit, modify in Hemit. injection Hemit as <-.
  apply bind_Ok in H as ([] & s5 & Hloc & H).
  unfold agent.set_locals, modify in Hloc. injection Hloc as <-.
  apply bind_Ok in H as ([] & s6 & Himm & H).
  apply bind_Ok in H as ([] & s7 & Hloc & H).
  unfold agent.set_locals, modify in Hloc. injection Hloc as <-.
  unfold ret in H. injection H as <- <- <-.
  destruct Hsil1 as (Hn1 & Ha1 & Hp1 & Ht1 & Hm1 & Hf1 & Hr1 & Hl1).
  rewrite app_nil_r in Hl1. msimpl.
  set (r := env_step env (agent.world s3) a0) in *.
  (* the pending transition *)
  assert (exists pend : list Transition,
    (if agent.need_next s && (0 <? t)%nat
     then exists v tr, pending (agent.frame s) a0 v = Some tr /\ pend = [tr]
     else pend = []) /\
    evolves s s3 (foldl push (agent.memory s) pend) (agent.frame s)
            (agent.reward_in_episode s)
            ([agent.EvSelect st a0] ++ map agent.EvPush pend) /\
    keeps_target s s3) as (pend & Hpe & Hev3 & Hk3).
  { rewrite Hn1 in Hpend. destruct (agent.need_next s && (0 <? t)%nat).
    - apply store_pending_inv in Hpend as (v & tr & Hp & _ & Hev & Hk).
      msimpl. rewrite Hf1 in Hp. exists [tr]. split; [eauto|]. split.
      + destruct Hev as (? & ? & ? & ? & ? & ? & ? & Hl). msimpl.
        repeat split; cbn [foldl map]; try congruence.
        rewrite Hl, Hl1. by rewrite <- app_assoc.
      + intros Hm. unfold keeps_target in Hk. msimpl.
        rewrite Hh1, Hp1, Ht1 in Hk. auto.
    - injection Hpend as <-. exists []. split; [done|]. split.
      + repeat split; msimpl; cbn [foldl map]; try congruence.
        by rewrite Hl1.
      + apply keeps_target_refl. done. }
  destruct Hev3 as (Hn3 & Ha3 & Hp3 & Ht3 & Hm3 & Hf3 & Hr3 & Hl3).
  exists st, (unsqueeze_0 obs), (snd (fst (fst (fst (snd r))))), (snd (snd r)),
         pend.
  eexists. split; [done|]. split; [done|]. split; [reflexivity|].
  rewrite Hn3 in Himm. destruct (agent.need_next s) eqn:En; cbn [negb] in Himm.
  - injection Himm as <-. split; [|intros Hm; by apply Hk3].
    unfold evolves, stepped. msimpl. rewrite app_nil_r, Hf3, Hl3.
    cbn [map]. rewrite app_nil_r, <- !app_assoc. fsimpl.
    repeat split; congruence.
  - apply bind_Ok in Himm as ([] & s8 & Hpush & Hopt).
    rewrite push_transition_eq in Hpush. injection Hpush as <-.
    apply optimize_inv in Hopt as [Hsil Hk].
    destruct Hsil as (Hn6 & Ha6 & Hp6 & Ht6 & Hm6 & Hf6 & Hr6 & Hl6).
    rewrite app_nil_r in Hl6. msimpl. split.
    + unfold evolves, stepped. msimpl.
      rewrite Hn6, Ha6, Hp6, Ht6, Hm6, Hf6, Hr6, Hl6, Hm3, Hf3, Hl3.
      rewrite foldl_app. cbn [map foldl]. rewrite <- !app_assoc. fsimpl.
      repeat split; congruence.
    + intros Hm. destruct (Hk3 Hm) as [Hm3' Hpar3].
      unfold keeps_target in Hk. msimpl. rewrite Hp3, Ht3 in Hk.
      destruct (Hk Hm3') as [Hm6' Hpar6]. split; [done|]. intros k.
      by rewrite Hpar6, Hpar3.
Qed.


(** The third part of a step. *)
Lemma conclude_inv i t a done s stop s' :
  agent.conclude torch env rnd args i t a done s = Ok (stop, s') ->
  stop = done || (horizon args <? Z.of_nat t)%Z /\
  if stop then
    exists fl : list Transition,
      (if agent.need_next s
       then exists v tr, pending (agent.frame s) a v = Some tr /\ fl = [tr]
       else fl = []) /\
      evolves s s' (foldl push (agent.memory s) fl) (finished (agent.frame s))
              (agent.reward_in_episode s ++
               [agent.l_reward_in_episode (agent.frame s)])
              (map agent.EvPush fl ++ [agent.EvEpisodeEnd i]) /\
      keeps_target s s'
  else s' = s.
Proof.
  unfold agent.conclude.
  destruct (done || (horizon args <? Z.of_nat t)%Z).
  2:{ intros [= <- <-]. done. }
  intros H. apply bind_Ok in H as (sg & s1 & Hget & H).
  unfold get in Hget. injection Hget as <- <-.
  apply bind_Ok in H as ([] & s1 & Hfl & H).
  apply bind_Ok in H as ([] & s2 & Hfin & H).
  unfold ret in H. injection H as <- <-. split; [done|].
  unfold agent.finish_episode, agent.set_locals, agent.emit, bind, get, modify
    in Hfin. injection Hfin as <-.
  destruct (agent.need_next s) eqn:En; cbn [when] in Hfl.
  - apply store_pending_inv in Hfl as (v & tr & Hp & _ & Hev & Hk).
    destruct Hev as (Hn & Ha & Hpn & Htn & Hm & Hf & Hr & Hl).
    exists [tr]. split; [eauto|]. split.
    + unfold evolves, finished. msimpl. fsimpl. cbn [foldl map].
      rewrite Hn, Ha, Hpn, Htn, Hm, Hf, Hr, Hl, <- app_assoc.
      repeat split; congruence.
    + intros Hmi. by apply Hk.
  - unfold ret in Hfl. injection Hfl as <-. exists []. split; [done|]. split.
    + unfold evolves, finished. msimpl. fsimpl. cbn [foldl map app].
      repeat split; congruence.
    + by apply keeps_target_refl.
Qed.

Lemma step_parts i t s stop s' :
  agent.step torch env rnd args i t s = Ok (stop, s') ->
  exists a done s1 s2,
    agent.interact torch env rnd args i t s = Ok ((a, done), s1) /\
    agent.sync_step torch env args s1 = Ok (tt, s2) /\
    agent.conclude torch env rnd args i t a done s2 = Ok (stop, s').
Proof.
  unfold agent.step. intros H.
  apply bind_Ok in H as ([a done] & s1 & H1 & H).
  apply bind_Ok in H as ([] & s2 & H2 & H). by exists a, done, s1, s2.
Qed.

Lemma sync_step_inv s u s' :
  agent.sync_step torch env args s = Ok (u, s') ->
  evolves s s' (agent.memory s) (agent.frame s) (agent.reward_in_episode s)
          (if soft_target_update args then [agent.EvSoftUpdate] else []) /\
  keeps_mirror s s' /\
  (soft_target_update args = false -> agent.heap s' = agent.heap s).
Proof.
  unfold agent.sync_step. destruct (soft_target_update args); cbn [when].
  - intros H. apply soft_update_inv in H as [Hev Hm]. split; [done|].
    split; [|done]. intros Hmi. by apply Hm.
  - intros [= <- <-]. split; [apply silent_refl|]. split; [|done].
    intros Hm. done.
Qed.

(** The trace, the memory and the local variables after one step. *)
Lemma step_inv i t s stop s' :
  agent.step torch env rnd args i t s = Ok (stop, s') ->
  exists st a nxt rew inf done (pend imm fl : list Transition),
    agent.l_state (agent.frame s) = Some st /\
    stop = done || (horizon args <? Z.of_nat t)%Z /\
    (if agent.need_next s && (0 <? t)%nat
     then exists v tr, pending (agent.frame s) a v = Some tr /\ pend = [tr]
     else pend = []) /\
    imm = (if agent.need_next s then [] else [immediate st a nxt rew]) /\
    (if stop && agent.need_next s
     then exists v, fl = [flushed st a nxt rew v]
     else fl = []) /\
    evolves s s' (foldl push (agent.memory s) (pend ++ imm ++ fl))
      (if stop then finished (stepped (agent.frame s) st a nxt rew inf)
       else stepped (agent.frame s) st a nxt rew inf)
      (if stop
       then agent.reward_in_episode s ++
            [(agent.l_reward_in_episode (agent.frame s) + rew)%R]
       else agent.reward_in_episode s)
      ([agent.EvSelect st a] ++ map agent.EvPush pend ++
       [agent.EvEnvStep st a nxt rew done] ++ map agent.EvPush imm ++
       (if soft_target_update args then [agent.EvSoftUpdate] else []) ++
       (if stop then map agent.EvPush fl ++ [agent.EvEpisodeEnd i] else [])) /\
    keeps_mirror s s' /\
    (soft_target_update args = false -> keeps_target s s').
Proof.
  intros H. apply step_parts in H as (a & done & s1 & s2 & H1 & H2 & H3).
  apply interact_inv in H1
    as (st & nxt & rew & inf & pend & imm & Hst & Hpend & Himm & Hev1 & Hk1).
  apply sync_step_inv in H2 as (Hev2 & Hk2 & Hh2).
  apply conclude_inv in H3 as [Hstop H3].
  pose proof (evolves_trans _ _ _ _ _ _ _ _ _ _ _ _ _ Hev1 Hev2) as Hev12.
  destruct Hev1 as (Hn1 & Ha1 & Hp1 & Ht1 & Hm1 & Hf1 & Hr1 & Hl1).
  destruct Hev2 as (Hn2 & Ha2 & Hp2 & Ht2 & Hm2 & Hf2 & Hr2 & Hl2).
  assert (Hkm12 : keeps_mirror s s2).
  { apply keeps_mirror_trans with (s1 := s1);
      [done..|by apply keeps_target_mirror|done]. }
  assert (Hkt12 : soft_target_update args = false -> keeps_target s s2).
  { intros Hs Hm. rewrite (Hh2 Hs). by apply Hk1. }
  exists st, a, nxt, rew, inf, done, pend, imm.
  destruct stop.
  - destruct H3 as (fl & Hfl & Hev3 & Hk3). exists fl.
    split; [done|]. split; [done|]. split; [done|]. split; [done|]. split.
    { cbn [andb]. rewrite Hn2, Hn1 in Hfl. destruct (agent.need_next s); [|done].
      destruct Hfl as (v & tr & Hp & ->). exists v.
      rewrite Hf2, Hf1 in Hp. unfold pending, stepped in Hp. fsimpl.
      injection Hp as <-. done. }
    split; [|split].
    + pose proof (evolves_trans _ _ _ _ _ _ _ _ _ _ _ _ _ Hev12 Hev3) as Hev.
      rewrite Hm2, Hm1, Hf2, Hf1, Hr2, Hr1 in Hev.
      unfold stepped in Hev at 2. fsimpl.
      rewrite <- !foldl_app, <- !app_assoc in Hev. done.
    + apply keeps_mirror_trans with (s1 := s2); [congruence..|done|].
      by apply keeps_target_mirror.
    + intros Hs.
      apply keeps_target_trans with (s1 := s2);
        [congruence..|by apply Hkt12|done].
  - subst s'. exists []. split; [done|]. split; [done|]. split; [done|].
    split; [done|]. split; [done|]. split; [|done].
    rewrite !app_nil_r. rewrite Hm1, Hf1, Hr1 in Hev12.
    rewrite <- !app_assoc in Hev12. done.
Qed.

End StepParts.

(** ** Episodes *)

Section Episodes.
Context (torch : Torch) (env : Env) (rnd : Random) (args : Args).

Local Abbreviation Machine := (agent.Machine torch env).

Implicit Types s : Machine.

Ltac msimpl :=
  cbn [agent.need_next agent.action_space agent.policy_net agent.target_net
       agent.optimizer agent.memory agent.steps_done agent.reward_in_episode
       agent.heap agent.world agent.draws agent.frame agent.log
       agent.set_optimizer_heap agent.set_heap agent.set_memory
       agent.set_steps_done agent.set_reward_in_episode agent.set_world
       agent.set_draws agent.set_frame agent.set_log fst snd] in *.

(** A property that every step hands on to the next step holds after
    the loop over the steps. *)
Lemma steps_invariant (I : nat -> Machine -> Prop) (F : Machine -> Prop) i :
  (forall t s stop s', I t s ->
     agent.step torch env rnd args i t s = Ok (stop, s') ->
     if stop then F s' else I (S t) s') ->
  forall fuel t s u s', I t s ->
    agent.steps torch env rnd args fuel i t s = Ok (u, s') -> F s'.
Proof.
  intros Hstep fuel. induction fuel as [|fuel IH]; intros t s u s' HI H;
    [done|].
  cbn [agent.steps] in H. apply bind_Ok in H as (stop & s1 & H1 & H).
  specialize (Hstep t s stop s1 HI H1). destruct stop.
  - unfold ret in H. by injection H as <- <-.
  - by apply IH with (S t) s1 u.
Qed.

(** A property that every episode keeps holds after the loop over the
    episodes. *)
Lemma episodes_invariant (I : Machine -> Prop) :
  (forall i s stop s', I s ->
     agent.episode torch env rnd args i s = Ok (stop, s') -> I s') ->
  forall n i s u s', I s ->
    agent.episodes torch env rnd args n i s = Ok (u, s') -> I s'.
Proof.
  intros Hep n. induction n as [|n IH]; intros i s u s' HI H.
  { unfold agent.episodes, ret in H. by injection H as <- <-. }
  cbn [agent.episodes] in H. apply bind_Ok in H as (stop & s1 & H1 & H).
  specialize (Hep i s stop s1 HI H1). destruct stop.
  - unfold ret in H. by injection H as <- <-.
  - by apply IH with (i + 1)%Z s1 u.
Qed.

Lemma episode_parts i s stop s' :
  agent.episode torch env rnd args i s = Ok (stop, s') ->
  exists s1 s2,
    agent.begin_episode torch env i s = Ok (tt, s1) /\
    agent.steps torch env rnd args (S (Z.to_nat (horizon args + 1))) i 0 s1 =
      Ok (tt, s2) /\
    agent.end_episode torch env args i s2 = Ok (stop, s').
Proof.
  unfold agent.episode. intros H.
  apply bind_Ok in H as ([] & s1 & H1 & H).
  apply bind_Ok in H as ([] & s2 & H2 & H). by exists s1, s2.
Qed.

Lemma begin_episode_inv i s u s' :
  agent.begin_episode torch env i s = Ok (u, s') ->
  exists st inf,
    evolves s s' (agent.memory s) (begun (agent.frame s) st inf)
            (agent.reward_in_episode s) [agent.EvReset i] /\
    agent.heap s' = agent.heap s.
Proof.
  unfold agent.begin_episode, agent.set_locals, agent.emit, bind, get, modify,
    lift. msimpl.
  destruct (to_state _) as [st|]; [|done]. intros [= <- <-].
  eexists st, _. split; [|done]. unfold evolves, begun. msimpl. done.
Qed.

Lemma _save_inv s u s' :
  agent._save torch env args s = Ok (u, s') ->
  evolves s s' (agent.memory s) (agent.frame s) (agent.reward_in_episode s)
          (save_events args) /\
  agent.heap s' = agent.heap s.
Proof.
  unfold agent._save, save_events.
  destruct (save_rewards args || save_model args); cbn [when].
  - unfold agent.emit, modify. intros [= <- <-]. split; [|done].
    unfold evolves. msimpl. done.
  - intros [= <- <-]. split; [apply silent_refl|done].
Qed.

(** The third part of an episode. *)
Lemma end_episode_inv i s stop s' :
  agent.end_episode torch env args i s = Ok (stop, s') ->
  let sync := negb stop && negb (soft_target_update args) &&
              (i mod target_update args =? 0)%Z in
  stop = (agent.l_consecutive_episodes (agent.frame s) =?
          consecutive_episodes args)%Z /\
  evolves s s' (agent.memory s) (agent.frame s) (agent.reward_in_episode s)
    (if stop then save_events args
     else (if sync then [agent.EvHardUpdate i] else []) ++
          (if (i mod save_ratio args =? 0)%Z then save_events args else [])) /\
  keeps_mirror s s' /\
  (if sync
   then mirror (agent.heap s) (nn.named_parameters (agent.policy_net s))
               (nn.named_parameters (agent.target_net s)) ->
        in_sync (agent.heap s') (nn.named_parameters (agent.policy_net s))
                (nn.named_parameters (agent.target_net s)) /\
        forall k,
          param (agent.heap s') (nn.named_parameters (agent.policy_net s)) k =
          param (agent.heap s) (nn.named_parameters (agent.policy_net s)) k
   else agent.heap s' = agent.heap s).
Proof.
  unfold agent.end_episode. intros H.
  apply bind_Ok in H as (sg & s1 & Hget & H).
  unfold get in Hget. injection Hget as <- <-.
  destruct (_ =? _)%Z eqn:Estreak.
  { apply bind_Ok in H as ([] & s1 & Hsave & H).
    unfold ret in H. injection H as <- <-.
    apply _save_inv in Hsave as [Hev Hh]. cbn.
    split; [done|]. split; [done|]. split; [|done]. intros Hm. by rewrite Hh. }
  apply bind_Ok in H as ([] & s1 & Hsync & H).
  apply bind_Ok in H as ([] & s2 & Hsave & H).
  unfold ret in H. injection H as <- <-. cbn [negb andb]. split; [done|].
  assert (Hev2 : evolves s1 s2 (agent.memory s1) (agent.frame s1)
            (agent.reward_in_episode s1)
            (if (i mod save_ratio args =? 0)%Z then save_events args else [])
          /\ agent.heap s2 = agent.heap s1).
  { destruct (save_ratio args =? 0)%Z; [done|].
    destruct (i mod save_ratio args =? 0)%Z; cbn [when] in Hsave.
    - by apply _save_inv in Hsave.
    - injection Hsave as <-. split; [apply silent_refl|done]. }
  destruct Hev2 as [Hev2 Hh2].
  destruct (soft_target_update args); cbn [negb when andb] in *.
  { injection Hsync as <-. split; [|split; [|done]].
    - done.
    - intros Hm. by rewrite Hh2. }
  destruct (target_update args =? 0)%Z; [done|].
  destruct (i mod target_update args =? 0)%Z; cbn [when] in Hsync.
  - apply hard_update_inv in Hsync as [Hev1 Hm1].
    pose proof Hev1 as (Hn & Ha & Hp & Ht & Hme & Hfr & Hri & _).
    split.
    { apply (evolves_trans _ _ _ _ _ _ _ _ _ _ _ _ _ Hev1) in Hev2.
      by rewrite Hme, Hfr, Hri in Hev2. }
    split.
    + intros Hm. rewrite Hh2. by apply Hm1.
    + intros Hm. rewrite Hh2. destruct (Hm1 Hm) as (_ & ? & ?). done.
  - injection Hsync as <-. split; [|split; [|done]].
    + done.
    + intros Hm. by rewrite Hh2.
Qed.

End Episodes.

(** ** Target synchronisation in the training loop *)

Section TargetSchedule.
Context (torch : Torch) (env : Env) (rnd : Random) (args : Args).

Local Abbreviation Machine := (agent.Machine torch env).

Implicit Types s : Machine.

Lemma hard_updates_app l1 l2 :
  hard_updates (l1 ++ l2) = hard_updates l1 ++ hard_updates l2.
Proof. unfold hard_updates. apply omap_app. Qed.

Lemma hard_updates_pushes (trs : list Transition) :
  hard_updates (map agent.EvPush trs) = [].
Proof. induction trs; [done|]. cbn. done. Qed.

Lemma hard_updates_save : hard_updates (save_events args) = [].
Proof. unfold save_events. by destruct (_ || _). Qed.

(** A step does not run the hard update. *)
Lemma step_hard_updates i t s stop s' :
  agent.step torch env rnd args i t s = Ok (stop, s') ->
  hard_updates (agent.log s') = hard_updates (agent.log s).
Proof.
  intros H. apply step_inv in H
    as (st & a & nxt & rew & inf & done & pend & imm & fl & _ & _ & _ & _ & _
        & Hev & _).
  destruct Hev as (_ & _ & _ & _ & _ & _ & _ & ->).
  rewrite !hard_updates_app, !hard_updates_pushes.
  destruct (soft_target_update args), stop;
    rewrite ?hard_updates_app, ?hard_updates_pushes; cbn; by rewrite app_nil_r.
Qed.

(** Without soft updates the loop over the steps leaves the target
    network alone. *)
Lemma steps_keep_target fuel i s u s' :
  soft_target_update args = false ->
  agent.steps torch env rnd args fuel i 0 s = Ok (u, s') ->
  agent.policy_net s' = agent.policy_net s /\
  agent.target_net s' = agent.target_net s /\
  keeps_target s s' /\
  hard_updates (agent.log s') = hard_updates (agent.log s).
Proof.
  intros Hsoft H.
  set (I := fun (t : nat) (m : Machine) =>
    agent.policy_net m = agent.policy_net s /\
    agent.target_net m = agent.target_net s /\
    keeps_target s m /\
    hard_updates (agent.log m) = hard_updates (agent.log s)).
  assert (HF : I 0 s').
  { apply (steps_invariant torch env rnd args I (I 0) i) with fuel 0 s u;
      [|split; [done|split; [done|split; [by apply keeps_target_refl|done]]]
       |done].
    intros t m stop m' (Hp & Ht & Hk & Hl) Hstep.
    pose proof (step_hard_updates _ _ _ _ _ Hstep) as Hhu.
    apply step_inv in Hstep
      as (st & a & nxt & rew & inf & done & pend & imm & fl & _ & _ & _ & _ & _
          & Hev & _ & Hkt).
    destruct Hev as (_ & _ & Hp' & Ht' & _).
    assert (I 0 m') as HI.
    { split; [congruence|]. split; [congruence|]. split; [|congruence].
      apply keeps_target_trans with (s1 := m); [done..|by apply Hkt]. }
    by destruct stop. }
  exact HF.
Qed.

Lemma steps_keep_mirror fuel i t s u s' :
  agent.steps torch env rnd args fuel i t s = Ok (u, s') ->
  agent.policy_net s' = agent.policy_net s /\
  agent.target_net s' = agent.target_net s /\
  keeps_mirror s s'.
Proof.
  intros H.
  set (I := fun (t : nat) (m : Machine) =>
    agent.policy_net m = agent.policy_net s /\
    agent.target_net m = agent.target_net s /\
    keeps_mirror s m).
  apply (steps_invariant torch env rnd args I (I 0) i) with fuel t s u;
    [|split; [done|split; [done|by intros ?]]|done].
  intros t0 m stop m' (Hp & Ht & Hk) Hstep.
  apply step_inv in Hstep
    as (st & a & nxt & rew & inf & done & pend & imm & fl & _ & _ & _ & _ & _
        & Hev & Hkm & _).
  destruct Hev as (_ & _ & Hp' & Ht' & _).
  assert (I 0 m') as HI.
  { split; [congruence|]. split; [congruence|].
    by apply keeps_mirror_trans with (s1 := m). }
  by destruct stop.
Qed.

(** C8, as amended.  Without soft updates, an episode runs the hard
    update at most once, after its steps: it runs it exactly if the
    episode does not end the training by reaching the required number of
    consecutive successful episodes and its index is a multiple of
    [target_update].  After the hard update every parameter of the
    target network has the value of the policy parameter of its key;
    in an episode without hard update the target parameters do not
    change.  The hard update itself never fails on two mirrored networks
    and always leaves them in this state. *)
Theorem hard_update_once_per_unfinished_episode i s stop s' :
  soft_target_update args = false ->
  mirror (agent.heap s) (nn.named_parameters (agent.policy_net s))
         (nn.named_parameters (agent.target_net s)) ->
  agent.episode torch env rnd args i s = Ok (stop, s') ->
  let sync := negb stop && (i mod target_update args =? 0)%Z in
  let pol := nn.named_parameters (agent.policy_net s) in
  let tgt := nn.named_parameters (agent.target_net s) in
  stop = (agent.l_consecutive_episodes (agent.frame s') =?
          consecutive_episodes args)%Z /\
  hard_updates (agent.log s') =
    hard_updates (agent.log s) ++ (if sync then [i] else []) /\
  (if sync then in_sync (agent.heap s') pol tgt
   else forall k, param (agent.heap s') tgt k = param (agent.heap s) tgt k) /\
  (forall j (m : Machine),
     mirror (agent.heap m) (nn.named_parameters (agent.policy_net m))
            (nn.named_parameters (agent.target_net m)) ->
     exists m', agent.hard_update torch env j m = Ok (tt, m') /\
       in_sync (agent.heap m') (nn.named_parameters (agent.policy_net m))
               (nn.named_parameters (agent.target_net m)) /\
       forall k,
         param (agent.heap m') (nn.named_parameters (agent.policy_net m)) k =
         param (agent.heap m) (nn.named_parameters (agent.policy_net m)) k).
Proof.
  intros Hsoft Hm H. cbn zeta.
  apply episode_parts in H as (s1 & s2 & Hb & Hs & He).
  apply begin_episode_inv in Hb as (st & inf & Hev1 & Hh1).
  apply steps_keep_target in Hs as (Hp2 & Ht2 & Hk2 & Hl2); [|done].
  apply end_episode_inv in He as (Hstop & Hev3 & Hk3 & Hsync).
  destruct Hev1 as (_ & _ & Hp1 & Ht1 & _ & _ & _ & Hl1).
  pose proof Hev3 as (_ & _ & Hp3 & Ht3 & _ & Hf3 & _ & Hl3).
  rewrite Hsoft in Hsync, Hl3. cbn [negb] in Hsync, Hl3.
  rewrite andb_true_r in Hsync, Hl3.
  assert (Hm1 : mirror (agent.heap s1) (nn.named_parameters (agent.policy_net s1))
                       (nn.named_parameters (agent.target_net s1))).
  { by rewrite Hh1, Hp1, Ht1. }
  destruct (Hk2 Hm1) as [Hm2 Hpar2]. rewrite <- Hp2, <- Ht2 in Hm2.
  split; [by rewrite Hf3|]. split; [|split].
  - rewrite Hl3, hard_updates_app, Hl2, Hl1, hard_updates_app. cbn [hard_updates omap].
    rewrite app_nil_r. f_equal. destruct stop; cbn [negb andb].
    + apply hard_updates_save.
    + destruct (i mod target_update args =? 0)%Z;
        rewrite hard_updates_app; cbn;
        destruct (i mod save_ratio args =? 0)%Z;
        by rewrite ?hard_updates_save.
  - rewrite <- Hp1, <- Ht1, <- Hp2, <- Ht2.
    destruct (negb stop && (i mod target_update args =? 0)%Z).
    + by apply Hsync.
    + intros k. rewrite Hsync. rewrite Ht2, Hpar2, Hh1. done.
  - intros j m Hmm. destruct (hard_update_total torch env j m Hmm) as [m' Hm'].
    exists m'. split; [done|].
    apply hard_update_inv in Hm' as [_ Hx]. by destruct (Hx Hmm) as (_ & ? & ?).
Qed.

(** C7.  With soft updates, every step of the training loop updates the
    target network once, after the environment step and the storing:
    every parameter of the target network becomes
    [tau * p + (1 - tau) * t], where [p] is the policy parameter and [t]
    the old target parameter of its key; the target parameters change
    nowhere else in the step.  For scalar parameters with policy value
    1, target value 0 and [tau = 0.1], the first update gives 0.1 and the
    second 0.19. *)
Theorem soft_update_after_every_step i t s stop s' :
  soft_target_update args = true ->
  mirror (agent.heap s) (nn.named_parameters (agent.policy_net s))
         (nn.named_parameters (agent.target_net s)) ->
  agent.step torch env rnd args i t s = Ok (stop, s') ->
  let pol := nn.named_parameters (agent.policy_net s) in
  let tgt := nn.named_parameters (agent.target_net s) in
  (exists a done s1 s2,
     agent.interact torch env rnd args i t s = Ok ((a, done), s1) /\
     agent.soft_update torch env args s1 = Ok (tt, s2) /\
     agent.conclude torch env rnd args i t a done s2 = Ok (stop, s') /\
     (forall k, param (agent.heap s1) tgt k = param (agent.heap s) tgt k) /\
     soft_updated (tau args) pol tgt (agent.heap s1) (agent.heap s2) /\
     (forall k, param (agent.heap s') tgt k = param (agent.heap s2) tgt k)) /\
  (tau args = 0.1%R ->
   soft_blend (tau args) (mkTensor [] [1%R]) (mkTensor [] [0%R]) =
     mkTensor [] [0.1%R] /\
   soft_blend (tau args) (mkTensor [] [1%R]) (mkTensor [] [0.1%R]) =
     mkTensor [] [0.19%R]).
Proof.
  intros Hsoft Hm H. cbn zeta. split.
  - apply step_parts in H as (a & done & s1 & s2 & H1 & H2 & H3).
    exists a, done, s1, s2. unfold agent.sync_step in H2. rewrite Hsoft in H2.
    cbn [when] in H2. split; [done|]. split; [done|]. split; [done|].
    apply interact_inv in H1
      as (st & nxt & rew & inf & pend & imm & _ & _ & _ & Hev1 & Hk1).
    destruct Hev1 as (_ & _ & Hp1 & Ht1 & _).
    destruct (Hk1 Hm) as [Hm1 Hpar1]. split; [done|].
    apply soft_update_inv in H2 as [Hev2 Hsu].
    destruct Hev2 as (_ & _ & Hp2 & Ht2 & _).
    rewrite Hp1, Ht1 in Hsu. destruct (Hsu Hm1) as [Hm2 Hsu'].
    split; [done|].
    apply conclude_inv in H3 as [_ H3]. destruct stop.
    + destruct H3 as (fl & _ & _ & Hk3). unfold keeps_target in Hk3.
      rewrite Hp2, Ht2, Hp1, Ht1 in Hk3. by destruct (Hk3 Hm2).
    + by subst s'.
  - intros ->. unfold soft_blend. cbn. split; do 2 f_equal; lra.
Qed.

End TargetSchedule.

(** ** The order of storing *)

Section StorageOrder.
Context (torch : Torch) (env : Env) (rnd : Random) (args : Args).

Local Abbreviation Machine := (agent.Machine torch env).

Implicit Types s : Machine.

Ltac fsimpl :=
  cbn [agent.l_consecutive_episodes agent.l_reward_in_episode agent.l_state
       agent.l_info agent.l_previous_state agent.l_previous_action
       agent.l_reward] in *.

Lemma storage_order_app need last prev l1 l2 :
  storage_order need last prev l1 ->
  storage_order need (last_env_step last l1) (last_event prev l1) l2 ->
  storage_order need last prev (l1 ++ l2).
Proof.
  revert last prev. induction l1 as [|e l1 IH]; intros last prev H1 H2; [done|].
  cbn [app storage_order] in *. destruct H1 as [He H1]. split.
  - destruct e; try done.
    + destruct need; [done|]. destruct He as (tr & rest' & ->). cbn. eauto.
    + destruct need; [|done].
      destruct He as (s & a & nxt & r & d & ? & ? & ? & ? & ? & Hor).
      exists s, a, nxt, r, d. repeat split; try done.
      destruct Hor as [?|(i & rest' & ->)]; [by left|right]. cbn. eauto.
  - apply IH; done.
Qed.

Lemma last_env_step_app last l1 l2 :
  last_env_step last (l1 ++ l2) = last_env_step (last_env_step last l1) l2.
Proof. apply foldl_app. Qed.

(** Events that are neither a push nor an environment step are in
    order wherever they stand. *)
Lemma storage_order_other need last prev l :
  Forall (fun e => match e with
                   | agent.EvPush _ | agent.EvEnvStep _ _ _ _ _ => False
                   | _ => True
                   end) l ->
  storage_order need last prev l /\ last_env_step last l = last.
Proof.
  revert prev. induction l as [|e l IH]; intros prev H; [done|].
  apply Forall_cons in H as [He H]. cbn.
  destruct e; try done; (split; [split; [done|by apply IH]|by apply IH]).
Qed.

Lemma save_events_other :
  Forall (fun e => match e with
                   | agent.EvPush _ | agent.EvEnvStep _ _ _ _ _ => False
                   | _ => True
                   end) (save_events args).
Proof. unfold save_events. destruct (_ || _); repeat constructor. Qed.

(** The events of one step are in order, and hand the last environment
    step on to the next step. *)
Lemma step_storage_order i t s stop s' last prev :
  agent.step torch env rnd args i t s = Ok (stop, s') ->
  waiting (agent.need_next s) t last (agent.frame s) ->
  exists block,
    agent.log s' = agent.log s ++ block /\
    agent.need_next s' = agent.need_next s /\
    storage_order (agent.need_next s) last prev block /\
    (stop = false ->
     waiting (agent.need_next s) (S t) (last_env_step last block)
             (agent.frame s')).
Proof.
  intros H Hw. apply step_inv in H
    as (st & a & nxt & rew & inf & done & pend & imm & fl & Hst & Hstop
        & Hpend & Himm & Hfl & Hev & _).
  destruct Hev as (Hn & _ & _ & _ & _ & Hf & _ & Hl).
  eexists. split; [exact Hl|]. split; [done|].
  destruct (agent.need_next s) eqn:En.
  - (* delayed *)
    subst imm. cbn [map app andb] in *.
    split.
    + cbn [app storage_order is_env_step]. split; [done|].
      assert (Hrest : storage_order true (Some (agent.EvEnvStep st a nxt rew done))
                (Some (agent.EvEnvStep st a nxt rew done))
                ((if soft_target_update args then [agent.EvSoftUpdate] else []) ++
                 (if stop then map agent.EvPush fl ++ [agent.EvEpisodeEnd i]
                  else []))).
      { assert (Hend : forall p, storage_order true
                  (Some (agent.EvEnvStep st a nxt rew done)) p
                  (if stop then map agent.EvPush fl ++ [agent.EvEpisodeEnd i]
                   else [])).
        { intros p. destruct stop; [|done]. cbn [andb] in Hfl.
          destruct Hfl as (v & ->). cbn. split; [|done].
          exists st, a, nxt, rew, done. repeat split. right. eauto. }
        destruct (soft_target_update args); cbn; [split; [done|]|]; apply Hend. }
      destruct (0 <? t)%nat eqn:Et.
      * destruct Hpend as (v & tr & Hp & ->). cbn. split.
        -- apply Nat.ltb_lt in Et.
           destruct (Hw eq_refl Et) as (ps & pa & st0 & r & d & -> & Hps & Hpa
                                        & Hst0 & Hr).
           unfold pending in Hp. rewrite Hps, Hpa, Hst0, Hr in Hp.
           injection Hp as <-. rewrite Hst in Hst0. injection Hst0 as <-.
           exists ps, pa, st, r, d. repeat split. left. eauto.
        -- split; [done|]. exact Hrest.
      * subst pend. cbn. split; [done|]. exact Hrest.
    + intros -> _ _. exists st, a, nxt, rew, done. rewrite Hf.
      split; [|done]. unfold last_env_step. cbn [foldl is_env_step].
      rewrite foldl_app. cbn [foldl is_env_step].
      by destruct (soft_target_update args).
  - (* immediate *)
    subst imm. cbn [andb] in *. subst pend. rewrite andb_false_r in Hfl.
    subst fl. cbn [map app]. split.
    + cbn. split; [done|]. split; [eauto|]. split.
      { exists st, a, nxt, rew, done. done. }
      destruct (soft_target_update args), stop; cbn; done.
    + intros _ [=].
Qed.


Lemma steps_storage_order fuel i s u s' :
  storage_order (agent.need_next s) None None (agent.log s) ->
  agent.steps torch env rnd args fuel i 0 s = Ok (u, s') ->
  agent.need_next s' = agent.need_next s /\
  storage_order (agent.need_next s) None None (agent.log s').
Proof.
  intros Hso H.
  set (need := agent.need_next s) in *.
  set (I := fun (t : nat) (m : Machine) =>
    agent.need_next m = need /\
    storage_order need None None (agent.log m) /\
    waiting need t (last_env_step None (agent.log m)) (agent.frame m)).
  set (F := fun (m : Machine) =>
    agent.need_next m = need /\ storage_order need None None (agent.log m)).
  apply (steps_invariant torch env rnd args I F i) with fuel 0 s u; [| |done].
  - intros t m stop m' (Hn & Hso' & Hw) Hstep.
    destruct (step_storage_order i t m stop m'
                (last_env_step None (agent.log m))
                (last_event None (agent.log m)) Hstep)
      as (block & Hl & Hn' & Hb & Hw'); [by rewrite Hn|].
    rewrite Hn in Hb, Hw', Hn'.
    assert (Hso2 : storage_order need None None (agent.log m')).
    { rewrite Hl. by apply storage_order_app. }
    destruct stop; [done|]. split; [done|]. split; [done|].
    rewrite Hl, last_env_step_app. by apply Hw'.
  - split; [done|]. split; [done|]. intros _ Hlt. lia.
Qed.

Lemma episode_storage_order i s stop s' :
  storage_order (agent.need_next s) None None (agent.log s) ->
  agent.episode torch env rnd args i s = Ok (stop, s') ->
  agent.need_next s' = agent.need_next s /\
  storage_order (agent.need_next s) None None (agent.log s').
Proof.
  intros Hso H. apply episode_parts in H as (s1 & s2 & Hb & Hs & He).
  apply begin_episode_inv in Hb as (st & inf & Hev1 & _).
  destruct Hev1 as (Hn1 & _ & _ & _ & _ & _ & _ & Hl1).
  apply steps_storage_order in Hs as [Hn2 Hso2].
  2:{ rewrite Hn1, Hl1. apply storage_order_app; [done|]. cbn. done. }
  apply end_episode_inv in He as (_ & Hev3 & _).
  destruct Hev3 as (Hn3 & _ & _ & _ & _ & _ & _ & Hl3).
  split; [congruence|]. rewrite Hl3. rewrite Hn1 in Hso2.
  apply storage_order_app; [done|].
  apply storage_order_other.
  destruct stop; [apply save_events_other|].
  apply Forall_app. split.
  - destruct (negb false && _ && _); repeat constructor.
  - destruct (i mod save_ratio args =? 0)%Z;
      [apply save_events_other|constructor].
Qed.

Lemma train_storage_order s u s' :
  storage_order (agent.need_next s) None None (agent.log s) ->
  agent.train torch env rnd args s = Ok (u, s') ->
  agent.need_next s' = agent.need_next s /\
  storage_order (agent.need_next s) None None (agent.log s').
Proof.
  intros Hso H. unfold agent.train in H.
  apply bind_Ok in H as ([] & s1 & H1 & H).
  unfold agent.set_locals, modify in H1. injection H1 as <-.
  set (need := agent.need_next s) in *.
  apply (episodes_invariant torch env rnd args
           (fun m => agent.need_next m = need /\
                     storage_order need None None (agent.log m)))
    with (Z.to_nat (max_episodes args)) 0%Z
         (agent.set_frame
            {| agent.l_consecutive_episodes := 0;
               agent.l_reward_in_episode :=
                 agent.l_reward_in_episode (agent.frame s);
               agent.l_state := agent.l_state (agent.frame s);
               agent.l_info := agent.l_info (agent.frame s);
               agent.l_previous_state := agent.l_previous_state (agent.frame s);
               agent.l_previous_action :=
                 agent.l_previous_action (agent.frame s);
               agent.l_reward := agent.l_reward (agent.frame s) |} s) u;
    [|done|done].
  intros i m stop m' [Hn Hm] Hep.
  apply episode_storage_order in Hep as [Hn' Hso']; [|by rewrite Hn].
  rewrite Hn in Hn', Hso'. done.
Qed.

Lemma requires_next_spec (u : option string) :
  agent.requires_next u = true <->
  u ∈ [Some "sf"; Some "sf+reward"; Some "virtual-reward-1";
       Some "virtual-reward-5"]%string.
Proof.
  unfold agent.requires_next, nn.aux_is. destruct u as [u|].
  - rewrite !orb_true_iff, !String.eqb_eq. rewrite !elem_of_cons.
    split.
    + intros [[[->| ->]| ->]| ->]; auto.
    + intros [[= ->]|[[= ->]|[[= ->]|[[= ->]|H]]]]; auto. inversion H.
  - split; [done|]. rewrite !elem_of_cons. intros [?|[?|[?|[?|H]]]]; try done.
    inversion H.
Qed.

(** C4, as amended.  The training loop stores with delay exactly when
    the configured variant is one of [sf], [sf+reward],
    [virtual-reward-1] and [virtual-reward-5].  Then every transition is
    stored only after the action of the following step has been selected
    (the event just before the push is that selection, at the state the
    stored step led to, and the selected action is stored as next
    action), or as the last thing before the end of the episode.  For
    every other variant every transition is stored at once: every push
    comes just after the environment step that it records, and every
    environment step is followed at once by such a push. *)
Theorem storing_waits_for_next_action_iff_required s u s' :
  agent.need_next s = agent.requires_next (use_aux args) ->
  storage_order (agent.need_next s) None None (agent.log s) ->
  agent.train torch env rnd args s = Ok (u, s') ->
  storage_order (agent.requires_next (use_aux args)) None None (agent.log s') /\
  (agent.requires_next (use_aux args) = true <->
   use_aux args ∈ [Some "sf"; Some "sf+reward"; Some "virtual-reward-1";
                   Some "virtual-reward-5"]%string).
Proof.
  intros Hn Hso H. split; [|apply requires_next_spec].
  rewrite <- Hn. by apply train_storage_order in H as [_ ?].
Qed.

(** Every transition of an ordered trace holds a next state. *)
Lemma storage_order_next_state need last prev l tr :
  storage_order need last prev l ->
  agent.EvPush tr ∈ l -> is_Some (next_state tr).
Proof.
  revert last prev; induction l as [|e l IH]; intros last prev Hso Hin.
  - by apply elem_of_nil in Hin.
  - cbn [storage_order] in Hso. destruct Hso as [He Hso].
    apply elem_of_cons in Hin as [<-|Hin]; [|by eapply IH].
    destruct need.
    + destruct He as (st & a & nxt & r & d & _ & _ & _ & -> & _). by eexists.
    + destruct He as (st & a & nxt & r & d & _ & ->). by eexists.
Qed.

(** The training loop never stores a transition without a next state,
    whether the step was the last of its episode or not. *)
Lemma train_stores_every_next_state s u s' tr :
  storage_order (agent.need_next s) None None (agent.log s) ->
  agent.train torch env rnd args s = Ok (u, s') ->
  agent.EvPush tr ∈ agent.log s' -> is_Some (next_state tr).
Proof.
  intros Hso H. apply train_storage_order in H as [_ H]; [|done].
  by eapply storage_order_next_state.
Qed.

End StorageOrder.

(** ** Runs that explore and do not optimise *)

Section Forward.
Context (torch : Torch) (env : Env) (rnd : Random) (args : Args).

Local Abbreviation Machine := (agent.Machine torch env).

Implicit Types s : Machine.

(** The random branch of the action selection. *)
Lemma select_action_explore st s :
  eps_decay args <> 0%R ->
  ~ (random_random rnd (agent.draws s) >
     eps_end args + (eps_start args - eps_end args) *
       exp (-1 * INR (agent.steps_done s) / eps_decay args))%R ->
  agent.select_action torch env rnd args st s =
  Ok (action_space_sample env (S (agent.draws s)),
      agent.set_draws (S (S (agent.draws s)))
        (agent.set_steps_done (agent.steps_done s + 1) s)).
Proof.
  intros Hd Hs. unfold agent.select_action, agent.draw, agent.eps_threshold,
    bind, get, modify, ret, lift.
  cbn [agent.draws agent.set_draws agent.steps_done agent.set_steps_done].
  destruct (Req_dec_T (eps_decay args) 0); [done|].
  destruct (Rgt_dec _ _); [done|]. reflexivity.
Qed.

(** The optimisation step below the batch size. *)
Lemma optimize_skip i s :
  (Z.of_nat (len (agent.memory s)) < batch_size args)%Z ->
  agent.optimize torch env rnd args i s = Ok (tt, s).
Proof.
  intros H. unfold agent.optimize, bind, get.
  apply Z.ltb_lt in H. by rewrite H.
Qed.

Lemma steps_S fuel i t :
  agent.steps torch env rnd args (S fuel) i t =
  bind (agent.step torch env rnd args i t)
       (fun stop => if stop then ret tt
                    else agent.steps torch env rnd args fuel i (S t)).
Proof. reflexivity. Qed.

(** The soft update of two mirrored networks, with its result. *)
Lemma soft_update_run s :
  mirror (agent.heap s) (nn.named_parameters (agent.policy_net s))
         (nn.named_parameters (agent.target_net s)) ->
  exists h',
    agent.soft_update torch env args s =
    Ok (tt, agent.set_log (agent.log s ++ [agent.EvSoftUpdate])
              (agent.set_heap h' s)) /\
    mirror h' (nn.named_parameters (agent.policy_net s))
           (nn.named_parameters (agent.target_net s)).
Proof.
  intros Hm. destruct (soft_update_heap args _ _ _ Hm)
    as (sd0 & h0 & Eb0 & El0 & _ & _ & Hm').
  exists h0. split; [|done].
  unfold agent.soft_update, agent.on_heap, agent.emit, bind, get, modify, lift.
  cbn [agent.heap agent.policy_net agent.target_net]. by rewrite Eb0, El0.
Qed.

(** A step at or after the horizon is the last step. *)
Lemma step_stops_after_horizon i t s stop s' :
  (horizon args < Z.of_nat t)%Z ->
  agent.step torch env rnd args i t s = Ok (stop, s') -> stop = true.
Proof.
  intros Ht H. apply step_inv in H
    as (st & a & nxt & rew & inf & done & pend & imm & fl & _ & -> & _).
  apply Z.ltb_lt in Ht. rewrite Ht. apply orb_true_r.
Qed.

(** The bound on the number of rounds of the loop over the steps is
    never reached: from the bound on, more rounds change nothing. *)
Lemma steps_fuel_enough fuel fuel' i t s :
  (Z.to_nat (horizon args + 1) <= t + fuel)%nat -> (fuel <= fuel')%nat ->
  agent.steps torch env rnd args (S fuel') i t s =
  agent.steps torch env rnd args (S fuel) i t s.
Proof.
  revert fuel' t s. induction fuel as [|fuel IH]; intros fuel' t s Hb Hle.
  - rewrite !steps_S. unfold bind.
    destruct (agent.step _ _ _ _ _ _ _) as [[stop s1]|e] eqn:E; [|done].
    apply step_stops_after_horizon in E as ->; [done|lia].
  - destruct fuel' as [|fuel']; [lia|].
    rewrite (steps_S (S fuel')), (steps_S (S fuel)). unfold bind.
    destruct (agent.step _ _ _ _ _ _ _) as [[stop s1]|e]; [|done].
    destruct stop; [done|]. apply IH; lia.
Qed.

End Forward.

(** ** Runs in the small world *)

Ltac ev :=
  lazy -[agent.select_action agent.optimize agent.soft_update
         agent.hard_update agent.steps toy_torch
         Rplus Rmult Rminus Ropp Rinv Rdiv exp IZR INR Rgt_dec Req_dec_T Rmax].

Ltac decide_reals :=
  match goal with
  | |- context [Req_dec_T ?a ?b] =>
      destruct (Req_dec_T a b); [try (exfalso; lra)|try (exfalso; lra)]
  end.

(** One unfolding of the step loop, at the state it is applied to. *)
Ltac unfold_steps :=
  match goal with
  | |- context [agent.steps ?t ?e ?r ?a (S ?f) ?i ?n ?s] =>
      rewrite (steps_S t e r a f i n)
  end.

Ltac run :=
  repeat first
    [ progress ev
    | rewrite select_action_explore by (ev; lra)
    | rewrite optimize_skip by (ev; reflexivity)
    | decide_reals
    | unfold_steps ].

(** The agent as constructed in the small world, field by field. *)
Ltac toy_agent s :=
  match goal with
  | |- context [agent.init ?t ?e ?a ?i ?h ?w ?d] =>
      destruct (init_spec t e a i h w d)
        as (s & Hinit & Hmir & Hsync & Hneed & Hact & Hmem & Hsd & Hrie & Hw
            & Hd & Hfr & Hlog);
      exists s; split; [exact Hinit|]; clear Hinit;
      destruct s; cbn in Hmir, Hsync, Hneed, Hact, Hmem, Hsd, Hrie, Hw, Hd,
                           Hfr, Hlog;
      subst
  end.

(** An episode of one step that terminates, with no auxiliary task. *)
Lemma run_one_terminal_step :
  exists s0,
    agent.init toy_torch (toy_env 4 1 0) (toy_args (Some "no_aux") false)
               toy_init [] 0 0 = Ok s0 /\
    exists s',
    agent.train toy_torch (toy_env 4 1 0) toy_random
                (toy_args (Some "no_aux") false) s0 = Ok (tt, s') /\
    agent.need_next s0 = false /\
    agent.log s0 = [] /\
    let st := unsqueeze_0 (mkTensor [3; 1; 1] [0; 0; 0]%R) in
    let tr := {| state := st; action := 0; next_state := Some st;
                 reward := 1%R; next_action := None;
                 virtual_reward := None |} in
    agent.log s' =
      [agent.EvReset 0; agent.EvSelect st 0; agent.EvEnvStep st 0 st 1 true;
       agent.EvPush tr; agent.EvEpisodeEnd 0] /\
    items (agent.memory s') = [tr].
Proof.
  toy_agent s0. eexists. split; [run; reflexivity|]. ev. done.
Qed.

(** An episode of two steps under the variant [sf+reward]: the second
    step terminates, and the two rewards add up to 1. *)
Lemma run_two_steps_sf_reward :
  exists s0,
    agent.init toy_torch (toy_env 4 (1/2) 1) (toy_args (Some "sf+reward") false)
               toy_init [] 0 0 = Ok s0 /\
    exists s',
    agent.train toy_torch (toy_env 4 (1/2) 1) toy_random
                (toy_args (Some "sf+reward") false) s0 = Ok (tt, s') /\
    agent.need_next s0 = true /\
    agent.log s0 = [] /\
    let st := unsqueeze_0 (mkTensor [3; 1; 1] [0; 0; 0]%R) in
    let tr := {| state := st; action := 0; next_state := Some st;
                 reward := (1/2)%R; next_action := Some 0%Z;
                 virtual_reward := None |} in
    agent.log s' =
      [agent.EvReset 0;
       agent.EvSelect st 0; agent.EvEnvStep st 0 st (1/2) false;
       agent.EvSelect st 0; agent.EvPush tr;
       agent.EvEnvStep st 0 st (1/2) true; agent.EvPush tr;
       agent.EvEpisodeEnd 0].
Proof.
  toy_agent s0. eexists. split; [run; reflexivity|]. ev. done.
Qed.

(** The first step of an episode with soft updates. *)
Lemma run_step_with_soft_update :
  exists s0,
    agent.init toy_torch (toy_env 4 1 0) (toy_args (Some "no_aux") true)
               toy_init [] 0 0 = Ok s0 /\
    exists s1,
    agent.begin_episode toy_torch (toy_env 4 1 0) 0 s0 = Ok (tt, s1) /\
    mirror (agent.heap s1) (nn.named_parameters (agent.policy_net s1))
           (nn.named_parameters (agent.target_net s1)) /\
    exists s',
    agent.step toy_torch (toy_env 4 1 0) toy_random
               (toy_args (Some "no_aux") true) 0 0 s1 = Ok (true, s').
Proof.
  toy_agent s0. eexists. split; [ev; reflexivity|].
  split; [ev; done|].
  match goal with
  | |- exists s', ?m = _ => destruct m as [[stop s']|e] eqn:Hstep
  end; revert Hstep; run;
  match goal with
  | |- context [agent.soft_update ?t ?e ?a ?s] =>
      destruct (soft_update_run t e a s) as (h' & -> & _); [ev; done|]
  end; run; [intros [= <- <-]; eauto|discriminate].
Qed.

(** The hard update of two mirrored networks, as a run. *)
Lemma hard_update_run (torch : Torch) (env : Env) i
    (s : agent.Machine torch env) :
  mirror (agent.heap s) (nn.named_parameters (agent.policy_net s))
         (nn.named_parameters (agent.target_net s)) ->
  exists h',
    agent.hard_update torch env i s =
    Ok (tt, agent.set_log (agent.log s ++ [agent.EvHardUpdate i])
              (agent.set_heap h' s)).
Proof.
  intros Hm. destruct (load_policy_state_dict _ _ _ Hm) as (h0 & El0 & _).
  exists h0.
  unfold agent.hard_update, agent.on_heap, agent.emit, bind, get, modify.
  cbn [agent.heap agent.policy_net agent.target_net]. by rewrite El0.
Qed.

(** The updates of the target network in a run: the store after them is
    a new variable. *)
Ltac run_update :=
  match goal with
  | |- context [agent.soft_update ?t ?e ?a ?s] =>
      let h := fresh "h" in
      destruct (soft_update_run t e a s) as (h & -> & _); [ev; done|]
  | |- context [agent.hard_update ?t ?e ?i ?s] =>
      let h := fresh "h" in
      destruct (hard_update_run t e i s) as (h & ->); [ev; done|]
  end.

(** The result of a run that updates the target network. *)
Ltac run_result :=
  match goal with
  | |- exists s', ?m = _ =>
      let H := fresh "Hrun" in
      destruct m as [[? ?]|?] eqn:H; revert H;
      repeat first [progress run | run_update];
      [intros [= <- <-]; eauto|discriminate]
  end.

(** An episode of one step with reward 1/2: the count of successful
    episodes stays at 0 and the training goes on. *)
Lemma run_episode_with_hard_update :
  exists s0,
    agent.init toy_torch (toy_env 4 (1/2) 0) (toy_args (Some "no_aux") false)
               toy_init [] 0 0 = Ok s0 /\
    mirror (agent.heap s0) (nn.named_parameters (agent.policy_net s0))
           (nn.named_parameters (agent.target_net s0)) /\
    agent.log s0 = [] /\
    exists s',
    agent.episode toy_torch (toy_env 4 (1/2) 0) toy_random
                  (toy_args (Some "no_aux") false) 0 s0 = Ok (false, s').
Proof.
  toy_agent s0. split; [ev; done|]. split; [done|]. run_result.
Qed.

(** ** Properties of concrete runs *)

(** C1.  An episode whose first step is terminal, with no auxiliary
    task: the environment reports the end of the episode at that step,
    and the only transition that the training loop stores for it
    carries the next state; its next state is not absent. *)
Theorem terminal_step_is_stored_with_its_next_state :
  exists s0,
    agent.init toy_torch (toy_env 4 1 0) (toy_args (Some "no_aux") false)
               toy_init [] 0 0 = Ok s0 /\
    exists s' st tr,
    agent.train toy_torch (toy_env 4 1 0) toy_random
                (toy_args (Some "no_aux") false) s0 = Ok (tt, s') /\
    agent.EvEnvStep st 0 st 1 true ∈ agent.log s' /\
    items (agent.memory s') = [tr] /\
    state tr = st /\ action tr = 0%Z /\ reward tr = 1%R /\
    next_state tr = Some st /\
    next_state tr <> None.
Proof.
  destruct run_one_terminal_step as (s0 & Hi & s' & Ht & _ & _ & Hl & Hm).
  exists s0. split; [exact Hi|].
  exists s', (unsqueeze_0 (mkTensor [3; 1; 1] [0; 0; 0]%R)).
  eexists. split; [exact Ht|]. rewrite Hl, Hm.
  split; [by apply list_elem_of_lookup_2 with 2|].
  split; [reflexivity|]. cbn [state action reward next_state].
  repeat split; first [reflexivity | congruence].
Qed.

(** C4, as stated, fails for the variant [sf+reward]: it is none of
    [sf], [virtual-reward-1] and [virtual-reward-5], and in an episode of
    two steps the transition of the first step is stored only after the
    second action has been selected. *)
Lemma sf_reward_is_stored_with_delay :
  exists s0,
    agent.init toy_torch (toy_env 4 (1/2) 1) (toy_args (Some "sf+reward") false)
               toy_init [] 0 0 = Ok s0 /\
    exists s',
    agent.train toy_torch (toy_env 4 (1/2) 1) toy_random
                (toy_args (Some "sf+reward") false) s0 = Ok (tt, s') /\
    (use_aux (toy_args (Some "sf+reward") false) ∉
       [Some "sf"; Some "virtual-reward-1"; Some "virtual-reward-5"]%string) /\
    ~ storage_order false None None (agent.log s') /\
    exists st a tr,
      agent.log s' !! 2 = Some (agent.EvEnvStep st 0 st (1/2) false) /\
      agent.log s' !! 3 = Some (agent.EvSelect st a) /\
      agent.log s' !! 4 = Some (agent.EvPush tr) /\
      state tr = st /\ next_action tr = Some a.
Proof.
  destruct run_two_steps_sf_reward as (s0 & Hi & s' & Ht & _ & _ & Hl).
  exists s0. split; [exact Hi|]. exists s'. split; [exact Ht|]. rewrite Hl.
  split.
  { rewrite !not_elem_of_cons, elem_of_nil. cbn. repeat split; congruence. }
  split.
  - cbn [storage_order is_env_step]. intros (_ & _ & (tr & rest & [=]) & _).
  - do 3 eexists. repeat split; reflexivity.
Qed.

(** The order of storing in the run of two steps under [sf+reward]. *)
Lemma storing_waits_for_next_action_iff_required_witness :
  let env := toy_env 4 (1/2) 1 in
  let args := toy_args (Some "sf+reward") false in
  exists s0,
    agent.init toy_torch env args toy_init [] 0 0 = Ok s0 /\
    exists s',
    agent.train toy_torch env toy_random args s0 = Ok (tt, s') /\
    storage_order (agent.requires_next (use_aux args)) None None (agent.log s') /\
    (agent.requires_next (use_aux args) = true <->
     use_aux args ∈ [Some "sf"; Some "sf+reward"; Some "virtual-reward-1";
                     Some "virtual-reward-5"]%string).
Proof.
  intros env args. subst env args.
  destruct run_two_steps_sf_reward as (s0 & Hi & s' & Ht & Hn & Hl0 & _).
  exists s0. split; [exact Hi|]. exists s'. split; [exact Ht|].
  apply (storing_waits_for_next_action_iff_required
           toy_torch (toy_env 4 (1/2) 1) toy_random
           (toy_args (Some "sf+reward") false) s0 tt s').
  - exact Hn.
  - rewrite Hl0. exact I.
  - exact Ht.
Defined.

(** The soft update in the first step of an episode of the small world. *)
Lemma soft_update_after_every_step_witness :
  let env := toy_env 4 1 0 in
  let args := toy_args (Some "no_aux") true in
  exists s0,
    agent.init toy_torch env args toy_init [] 0 0 = Ok s0 /\
    exists s,
    agent.begin_episode toy_torch env 0 s0 = Ok (tt, s) /\
    exists s',
    agent.step toy_torch env toy_random args 0 0 s = Ok (true, s') /\
    let pol := nn.named_parameters (agent.policy_net s) in
    let tgt := nn.named_parameters (agent.target_net s) in
    (exists a done s1 s2,
       agent.interact toy_torch env toy_random args 0 0 s = Ok ((a, done), s1) /\
       agent.soft_update toy_torch env args s1 = Ok (tt, s2) /\
       agent.conclude toy_torch env toy_random args 0 0 a done s2 = Ok (true, s') /\
       (forall k, param (agent.heap s1) tgt k = param (agent.heap s) tgt k) /\
       soft_updated (tau args) pol tgt (agent.heap s1) (agent.heap s2) /\
       (forall k, param (agent.heap s') tgt k = param (agent.heap s2) tgt k)) /\
    soft_blend (tau args) (mkTensor [] [1%R]) (mkTensor [] [0%R]) =
      mkTensor [] [0.1%R] /\
    soft_blend (tau args) (mkTensor [] [1%R]) (mkTensor [] [0.1%R]) =
      mkTensor [] [0.19%R].
Proof.
  intros env args. subst env args.
  destruct run_step_with_soft_update as (s0 & Hi & s & Hb & Hm & s' & Hs).
  exists s0. split; [exact Hi|]. exists s. split; [exact Hb|].
  exists s'. split; [exact Hs|].
  destruct (soft_update_after_every_step
              toy_torch (toy_env 4 1 0) toy_random
              (toy_args (Some "no_aux") true) 0 0 s true s' eq_refl Hm Hs)
    as [Hsteps Hscalar].
  split; [exact Hsteps|]. apply Hscalar. reflexivity.
Defined.

(** The hard update after an episode of the small world that does not
    complete the streak. *)
Lemma hard_update_once_per_unfinished_episode_witness :
  let env := toy_env 4 (1/2) 0 in
  let args := toy_args (Some "no_aux") false in
  exists s0,
    agent.init toy_torch env args toy_init [] 0 0 = Ok s0 /\
    exists s',
    agent.episode toy_torch env toy_random args 0 s0 = Ok (false, s') /\
    let pol := nn.named_parameters (agent.policy_net s0) in
    let tgt := nn.named_parameters (agent.target_net s0) in
    false = (agent.l_consecutive_episodes (agent.frame s') =?
             consecutive_episodes args)%Z /\
    hard_updates (agent.log s') = hard_updates (agent.log s0) ++ [0%Z] /\
    in_sync (agent.heap s') pol tgt /\
    (forall j (m : agent.Machine toy_torch env),
       mirror (agent.heap m) (nn.named_parameters (agent.policy_net m))
              (nn.named_parameters (agent.target_net m)) ->
       exists m', agent.hard_update toy_torch env j m = Ok (tt, m') /\
         in_sync (agent.heap m') (nn.named_parameters (agent.policy_net m))
                 (nn.named_parameters (agent.target_net m)) /\
         forall k,
           param (agent.heap m') (nn.named_parameters (agent.policy_net m)) k =
           param (agent.heap m) (nn.named_parameters (agent.policy_net m)) k).
Proof.
  intros env args. subst env args.
  destruct run_episode_with_hard_update as (s0 & Hi & Hm & _ & s' & He).
  exists s0. split; [exact Hi|]. exists s'. split; [exact He|].
  exact (hard_update_once_per_unfinished_episode
           toy_torch (toy_env 4 (1/2) 0) toy_random
           (toy_args (Some "no_aux") false) 0 s0 false s' eq_refl Hm He).
Defined.

(** C8, as stated, fails when the count of successful episodes reaches
    [consecutive_episodes]: with hard updates and [target_update = 1],
    episode 0 runs to its end and the training returns with no hard
    update at all. *)
Lemma no_hard_update_once_the_streak_is_reached :
  let env := toy_env 4 1 0 in
  let args := toy_args (Some "no_aux") false in
  exists s0,
    agent.init toy_torch env args toy_init [] 0 0 = Ok s0 /\
    exists s',
    agent.train toy_torch env toy_random args s0 = Ok (tt, s') /\
    soft_target_update args = false /\
    (0 mod target_update args = 0)%Z /\
    agent.EvEpisodeEnd 0 ∈ agent.log s' /\
    hard_updates (agent.log s') = [].
Proof.
  intros env args. subst env args.
  destruct run_one_terminal_step as (s0 & Hi & s' & Ht & _ & _ & Hl & _).
  exists s0. split; [exact Hi|]. exists s'. split; [exact Ht|]. rewrite Hl.
  do 2 (split; [reflexivity|]).
  split; [by apply list_elem_of_lookup_2 with 4|reflexivity].
Qed.

(** ** The exploration threshold *)

Section Exploration.
Context (torch : Torch) (env : Env) (rnd : Random) (args : Args).

Local Abbreviation Machine := (agent.Machine torch env).

Local Open Scope R_scope.






End Exploration.

(** ** The loss of the optimisation step *)

Lemma mapR_Forall2 {A B} (f : A -> Result B) l l' :
  mapR f l = Ok l' <-> Forall2 (fun x y => f x = Ok y) l l'.
Proof.
  revert l'; induction l as [|x l IH]; intros l'; cbn.
  - split; [intros [= <-]; constructor | by inversion 1].
  - split.
    + intros H. apply rbind_Ok in H as (y & Hy & H).
      apply rbind_Ok in H as (ys & Hys & [= <-]).
      constructor; [done|by apply IH].
    + inversion 1 as [|? y ? ys Hy Hys]; subst. rewrite Hy. cbn.
      apply IH in Hys. by rewrite Hys.
Qed.

Lemma mapR_map {A B C} (g : A -> B) (f : B -> Result C) l :
  mapR f (map g l) = mapR (fun x => f (g x)) l.
Proof. induction l as [|x l IH]; cbn; [done|]. by rewrite IH. Qed.

Section BatchArithmetic.
Local Open Scope R_scope.

Lemma cat_Ok {A} (l l' : list A) : cat l = Ok l' -> l' = l /\ l <> [].
Proof. destruct l; cbn; [done|]. by intros [= <-]. Qed.

Lemma cat_field_Ok {A} (l : list (option A)) l' :
  cat_field l = Ok l' -> Forall2 (fun o x => o = Some x) l l'.
Proof.
  unfold cat_field. intros H. apply rbind_Ok in H as (xs & Hxs & H).
  apply cat_Ok in H as [-> _]. apply mapR_Forall2 in Hxs.
  eapply Forall2_impl; [exact Hxs|]. intros [x|] y; cbn; congruence.
Qed.

Lemma scale_add_Ok a c b ys :
  scale_add a c b = Ok ys ->
  length a = length b /\ ys = zip_with (fun x y => x * c + y) a b.
Proof.
  unfold scale_add. destruct (Nat.eqb_spec (length a) (length b)); [|done].
  by intros [= <-].
Qed.

Lemma concat_unsqueeze_1 v : concat (unsqueeze_1 v) = v.
Proof.
  unfold unsqueeze_1. induction v as [|x v IH]; cbn; [done|]. by rewrite IH.
Qed.

Lemma sq_diff_columns qs ys :
  concat (zip_with sq_diff (unsqueeze_1 qs) (unsqueeze_1 ys)) =
  zip_with (fun q y => (q - y) * (q - y)) qs ys.
Proof.
  unfold unsqueeze_1. revert ys; induction qs as [|q qs IH]; intros [|y ys];
    cbn; [done..|]. by rewrite IH.
Qed.

(** The loss of two columns is the mean of the squared differences of
    their entries. *)
Lemma MSELoss_columns qs ys loss :
  MSELoss (unsqueeze_1 qs) (unsqueeze_1 ys) = Ok loss ->
  length qs = length ys /\ loss = mean_squared_error qs ys.
Proof.
  unfold MSELoss, same_shape. case_bool_decide as Hs; [|done].
  intros [= <-]. split.
  - apply (f_equal length) in Hs. unfold unsqueeze_1 in Hs.
    by rewrite !length_map in Hs.
  - unfold mean_squared_error, sum_list.
    by rewrite sq_diff_columns, concat_unsqueeze_1.
Qed.

(** The row maximum of torch is the largest entry, and the gathered
    value is the entry at the index. *)
Lemma foldl_Rmax_largest (q : list R) : forall x,
  largest_of (x :: q) (foldl Rmax x q).
Proof.
  induction q as [|y q IH]; intros x; cbn [foldl].
  - split; [apply elem_of_cons; by left|]. intros z Hz.
    apply elem_of_cons in Hz as [->|Hz]; [lra|]. by apply elem_of_nil in Hz.
  - destruct (IH (Rmax x y)) as [Hin Hle]. split.
    + apply elem_of_cons in Hin as [->|Hin].
      * unfold Rmax. destruct (Rle_dec x y).
        -- apply elem_of_cons. right. apply elem_of_cons. by left.
        -- apply elem_of_cons. by left.
      * apply elem_of_cons. right. apply elem_of_cons. by right.
    + intros z Hz.
      assert (Hm : Rmax x y <= foldl Rmax (Rmax x y) q).
      { apply Hle, elem_of_cons. by left. }
      apply elem_of_cons in Hz as [->|Hz].
      { pose proof (Rmax_l x y). lra. }
      apply elem_of_cons in Hz as [->|Hz].
      { pose proof (Rmax_r x y). lra. }
      apply Hle, elem_of_cons. by right.
Qed.

Lemma row_max_largest q m : row_max q = Ok m -> largest_of q m.
Proof.
  destruct q as [|x q]; [done|]. intros [= <-]. apply foldl_Rmax_largest.
Qed.

Lemma gather_entry_at q a v : gather q a = Ok v -> entry_at q a v.
Proof.
  unfold gather, entry_at. destruct (Z.ltb_spec a 0); [done|].
  destruct (q !! Z.to_nat a) as [w|]; [|done]. by intros [= <-].
Qed.

Lemma gather_rows_Forall2 qs idx v :
  gather_rows qs idx = Ok v ->
  length qs = length idx /\
  Forall2 (fun qa x => gather (fst qa) (snd qa) = Ok x) (zip qs idx) v.
Proof.
  revert idx v; induction qs as [|q qs IH]; intros [|a idx] v; cbn; try done.
  - intros [= <-]. split; [done|constructor].
  - intros H. apply rbind_Ok in H as (x & Hx & H).
    apply rbind_Ok in H as (xs & Hxs & [= <-]).
    destruct (IH _ _ Hxs) as [Hl HF]. split; [by rewrite Hl|].
    by constructor.
Qed.

End BatchArithmetic.

Section Loss.
Context (torch : Torch) (env : Env) (rnd : Random) (args : Args).

Local Abbreviation Machine := (agent.Machine torch env).
Local Open Scope R_scope.

Implicit Types (h : Heap) (trs : list Transition).

(** The batch of a list of transitions, field by field. *)
Lemma collate_Ok need trs b :
  agent.collate need trs = Ok b ->
  agent.non_final_mask b =
    map (fun tr => bool_decide (is_Some (next_state tr))) trs /\
  agent.non_final_next_states b = omap next_state trs /\
  omap next_state trs <> [] /\
  agent.state_batch b = map state trs /\
  agent.action_batch b = map action trs /\
  agent.reward_batch b = map reward trs /\
  (if need then
     exists na ns,
       agent.next_action_batch b = Some na /\
       agent.next_state_batch b = Some ns /\
       Forall2 (fun tr a => next_action tr = Some a) trs na /\
       Forall2 (fun tr s => next_state tr = Some s) trs ns
   else agent.next_action_batch b = None /\ agent.next_state_batch b = None).
Proof.
  unfold agent.collate. destruct trs as [|tr0 trs0]; [done|].
  set (trs := tr0 :: trs0). intros H.
  apply rbind_Ok in H as (nf & Hnf & H). apply cat_Ok in Hnf as [-> Hne].
  apply rbind_Ok in H as (sb & Hsb & H). apply cat_Ok in Hsb as [-> _].
  apply rbind_Ok in H as (ab & Hab & H). apply cat_Ok in Hab as [-> _].
  apply rbind_Ok in H as (rb & Hrb & H). apply cat_Ok in Hrb as [-> _].
  destruct need.
  - apply rbind_Ok in H as (na & Hna & H).
    apply rbind_Ok in H as (ns & Hns & [= <-]). cbn.
    repeat split; try done. exists na, ns.
    apply cat_field_Ok in Hna. apply cat_field_Ok in Hns.
    rewrite Forall2_fmap_l in Hna. rewrite Forall2_fmap_l in Hns. done.
  - injection H as <-. done.
Qed.

(** The masked assignment of the largest target values gives every
    transition its bootstrap value. *)
Lemma masked_bootstrap h target trs rs mx n nsv :
  mapR (nn.forward torch h target) (omap next_state trs) = Ok rs ->
  mapR row_max (map nn.ret_q rs) = Ok mx ->
  masked_assign (repeat 0 n)
    (map (fun tr => bool_decide (is_Some (next_state tr))) trs) mx = Ok nsv ->
  n = length trs /\
  Forall2 (bootstrap_value torch h target) trs nsv.
Proof.
  revert rs mx n nsv; induction trs as [|tr trs IH]; intros rs mx n nsv.
  - cbn. intros [= <-] [= <-]. destruct n; cbn; [|done].
    intros [= <-]. split; [done|constructor].
  - intros Hrs Hmx Hma. cbn [omap list_omap] in Hrs. cbn [map] in Hma.
    destruct (next_state tr) as [ns|] eqn:Ens.
    + cbn [mapR] in Hrs. apply rbind_Ok in Hrs as (r & Hr & H).
      apply rbind_Ok in H as (rs' & Hrs & [= <-]). cbn [map mapR] in Hmx.
      apply rbind_Ok in Hmx as (v & Hv & H).
      apply rbind_Ok in H as (mx' & Hmx & [= <-]).
      rewrite bool_decide_eq_true_2 in Hma by done.
      destruct n as [|n]; cbn [repeat masked_assign] in Hma; [done|].
      apply rbind_Ok in Hma as (nsv' & Hnsv & [= <-]).
      destruct (IH _ _ _ _ Hrs Hmx Hnsv) as [-> HF]. split; [done|].
      constructor; [|done]. unfold bootstrap_value. rewrite Ens.
      exists r. split; [done|]. by apply row_max_largest.
    + rewrite bool_decide_eq_false_2 in Hma by (by intros [? [=]]).
      destruct n as [|n]; cbn [repeat masked_assign] in Hma; [done|].
      apply rbind_Ok in Hma as (nsv' & Hnsv & [= <-]).
      destruct (IH _ _ _ _ Hrs Hmx Hnsv) as [-> HF]. split; [done|].
      constructor; [|done]. unfold bootstrap_value. by rewrite Ens.
Qed.

(** The bootstrapped Q values are the regression targets. *)
Lemma expected_values_are_td_targets need h target trs b ys :
  agent.collate need trs = Ok b ->
  agent.expected_state_action_values torch args h target b = Ok ys ->
  Z.to_nat (batch_size args) = length trs /\
  Forall2 (td_target torch args h target) trs ys.
Proof.
  intros Hb H. apply collate_Ok in Hb as (Hm & Hnf & _ & _ & _ & Hrb & _).
  unfold agent.expected_state_action_values, agent.next_state_values,
    agent.forward_batch in H.
  apply rbind_Ok in H as (nsv & H & Hys).
  apply rbind_Ok in H as (rs & Hrs & H). apply rbind_Ok in H as (mx & Hmx & H).
  rewrite Hnf in Hrs. rewrite Hm in H.
  destruct (masked_bootstrap _ _ _ _ _ _ _ Hrs Hmx H) as [Hn HF].
  split; [done|]. apply scale_add_Ok in Hys as [Hl ->]. rewrite Hrb.
  clear -HF. induction HF as [|tr v trs nsv Hv HF IH]; cbn; [constructor|].
  constructor; [|done]. exists v. split; [done|]. lra.
Qed.

(** The gathered action values of the policy network. *)
Lemma gathered_values_are_taken_action_values h policy trs rs qs :
  mapR (nn.forward torch h policy) (map state trs) = Ok rs ->
  gather_rows (map nn.ret_q rs) (map action trs) = Ok qs ->
  Forall2 (taken_action_value torch h policy) trs qs.
Proof.
  revert rs qs; induction trs as [|tr trs IH]; intros rs qs; cbn.
  - intros [= <-]. cbn. intros [= <-]. constructor.
  - intros H. apply rbind_Ok in H as (r & Hr & H).
    apply rbind_Ok in H as (rs' & Hrs & [= <-]). cbn.
    intros H. apply rbind_Ok in H as (q & Hq & H).
    apply rbind_Ok in H as (qs' & Hqs & [= <-]).
    constructor; [|by eapply IH]. exists r. split; [done|].
    by apply gather_entry_at.
Qed.

(** The primary loss of a batch. *)
Lemma primary_loss_spec need h policy target trs b rs loss :
  agent.collate need trs = Ok b ->
  agent.forward_batch torch h policy (agent.state_batch b) = Ok rs ->
  agent.primary_loss torch args h target b rs = Ok loss ->
  exists qs ys,
    Z.to_nat (batch_size args) = length trs /\
    Forall2 (taken_action_value torch h policy) trs qs /\
    Forall2 (td_target torch args h target) trs ys /\
    loss = mean_squared_error qs ys.
Proof.
  intros Hb Hrs H. unfold agent.primary_loss, agent.gather_column in H.
  apply rbind_Ok in H as (sav & H & H'). apply rbind_Ok in H as (qs & Hqs & [= <-]).
  apply rbind_Ok in H' as (ys & Hys & Hloss).
  destruct (expected_values_are_td_targets _ _ _ _ _ _ Hb Hys) as [Hn Hy].
  apply collate_Ok in Hb as (_ & _ & _ & Hsb & Hab & _).
  unfold agent.forward_batch in Hrs. rewrite Hsb in Hrs. rewrite Hab in Hqs.
  apply MSELoss_columns in Hloss as [_ ->].
  exists qs, ys. split; [done|]. split; [|done].
  by eapply gathered_values_are_taken_action_values.
Qed.

(** The parts of a successful computation of the loss. *)
Lemma loss_of_parts need policy target trs h total :
  agent.loss_of torch args need policy target trs h = Ok total ->
  exists b rs loss,
    agent.collate need trs = Ok b /\
    agent.forward_batch torch h policy (agent.state_batch b) = Ok rs /\
    agent.primary_loss torch args h target b rs = Ok loss /\
    (transfer args = true \/ use_aux args = None -> total = loss) /\
    (transfer args = false -> nn.is_vvf (use_aux args) = true ->
     exists v, agent.vvf_term torch args h target trs b rs = Ok v).
Proof.
  unfold agent.loss_of. intros H.
  apply rbind_Ok in H as (b & Hb & H). apply rbind_Ok in H as (rs & Hrs & H).
  apply rbind_Ok in H as (loss & Hloss & H).
  exists b, rs, loss. do 3 (split; [done|]). split.
  - intros [Ht|Ha]; [rewrite Ht in H|rewrite Ha in H].
    + cbn in H. congruence.
    + destruct (negb _); congruence.
  - intros Ht Hv. rewrite Ht in H. cbn [negb] in H.
    destruct (use_aux args) as [u|] eqn:Eu; [|done].
    apply rbind_Ok in H as (l1 & _ & H). apply rbind_Ok in H as (l2 & _ & H).
    apply rbind_Ok in H as (l3 & _ & H). rewrite Hv in H. cbn [agent.add_if] in H.
    apply rbind_Ok in H as (v & Hvv & _). eauto.
Qed.

(** The parts of an optimisation step that runs. *)
Lemma optimize_runs i (s : Machine) u s' :
  (batch_size args <= Z.of_nat (len (agent.memory s)))%Z ->
  agent.optimize torch env rnd args i s = Ok (u, s') ->
  exists trs total,
    sample (agent.memory s)
      (random_sample rnd (agent.draws s) (len (agent.memory s))
                     (Z.to_nat (batch_size args))) = Ok trs /\
    agent.loss_of torch args (agent.need_next s) (agent.policy_net s)
      (agent.target_net s) trs (agent.heap s) = Ok total.
Proof.
  intros Hn. unfold agent.optimize, agent.draw, bind, get, modify, ret, raise,
    lift.
  cbn [agent.memory agent.set_draws agent.draws agent.heap agent.need_next
       agent.policy_net agent.target_net].
  destruct (Z.ltb_spec (Z.of_nat (len (agent.memory s))) (batch_size args));
    [lia|].
  destruct (_ <? _)%Z; [done|].
  destruct (sample _ _) as [trs|]; [|done].
  destruct (agent.loss_of _ _ _ _ _ _ _) as [total|] eqn:El; [|done].
  intros _. by exists trs, total.
Qed.

End Loss.

Section TargetValues.
Context (torch : Torch) (env : Env) (rnd : Random) (args : Args).

Local Abbreviation Machine := (agent.Machine torch env).
Local Open Scope R_scope.



(** C2.  In an optimisation step that runs, the sampled transitions are
    as many as the batch size; for each of them the regression target is
    [reward + gamma * b], where [b] is 0 if the next state is absent and
    otherwise the largest action value of the target network at the next
    state; and the primary loss is the mean over the batch of the
    squared difference between the action value of the policy network
    at the action taken and this target. *)
Theorem primary_loss_is_mean_squared_td_error i (s : Machine) u s' :
  (batch_size args <= Z.of_nat (len (agent.memory s)))%Z ->
  agent.optimize torch env rnd args i s = Ok (u, s') ->
  exists trs b rs loss qs ys,
    sample (agent.memory s)
      (random_sample rnd (agent.draws s) (len (agent.memory s))
                     (Z.to_nat (batch_size args))) = Ok trs /\
    length trs = Z.to_nat (batch_size args) /\
    agent.collate (agent.need_next s) trs = Ok b /\
    agent.forward_batch torch (agent.heap s) (agent.policy_net s)
      (agent.state_batch b) = Ok rs /\
    agent.primary_loss torch args (agent.heap s) (agent.target_net s) b rs =
      Ok loss /\
    Forall2 (taken_action_value torch (agent.heap s) (agent.policy_net s))
            trs qs /\
    Forall2 (td_target torch args (agent.heap s) (agent.target_net s))
            trs ys /\
    loss = mean_squared_error qs ys.
Proof.
  intros Hn H. apply optimize_runs in H as (trs & total & Htrs & H); [|done].
  apply loss_of_parts in H as (b & rs & loss & Hb & Hrs & Hloss & _).
  destruct (primary_loss_spec _ _ _ _ _ _ _ _ _ _ Hb Hrs Hloss)
    as (qs & ys & Hlen & Hqs & Hys & ->).
  exists trs, b, rs, (mean_squared_error qs ys), qs, ys. by repeat split.
Qed.


End TargetValues.

(** ** Optimisation steps in the small world *)

(** Evaluation that leaves the arithmetic of the real numbers alone. *)
Ltac ev_reals :=
  lazy -[Rplus Rmult Rminus Ropp Rinv Rdiv exp IZR INR Rgt_dec Req_dec_T Rmax].

(** The result of the computation that a hypothesis inspects. *)
Ltac inspect H r E :=
  match type of H with
  | match ?m with _ => _ end => destruct m as [r|] eqn:E; [|contradiction]
  end.

(** One stored transition and batches of one: the optimisation step
    runs and does not fail. *)
Lemma run_optimize_on_one_transition :
  match agent.init toy_torch (toy_env 4 1 0)
          (with_batch_size 1 (toy_args (Some "no_aux") false)) toy_init [] 0 0
  with
  | Ok s0 =>
      match agent.optimize toy_torch (toy_env 4 1 0) toy_random
              (with_batch_size 1 (toy_args (Some "no_aux") false)) 0
              (agent.set_memory
                 (push (agent.memory s0)
                       (toy_transition (Some toy_state) None None)) s0)
      with
      | Ok _ => True
      | Raise _ => False
      end
  | Raise _ => False
  end.
Proof. ev_reals. exact I. Qed.

(** The same under [virtual-reward-1], with a transition that holds its
    next action and a virtual reward. *)
Lemma run_optimize_with_virtual_rewards :
  match agent.init toy_torch (toy_env 4 1 0)
          (with_batch_size 1 (toy_args (Some "virtual-reward-1") false))
          toy_init [] 0 0
  with
  | Ok s0 =>
      match agent.optimize toy_torch (toy_env 4 1 0) toy_random
              (with_batch_size 1 (toy_args (Some "virtual-reward-1") false)) 0
              (agent.set_memory
                 (push (agent.memory s0)
                       (toy_transition (Some toy_state) (Some 0%Z) (Some 1%R)))
                 s0)
      with
      | Ok _ => True
      | Raise _ => False
      end
  | Raise _ => False
  end.
Proof. ev_reals. exact I. Qed.

(** *** Networks whose last layers add a bias to nothing

    When the weight of the last layer of a head is zero, the head
    returns the bias of that layer, whatever the layers before it
    compute. *)
Section BiasOnly.
Context (torch : Torch).
Local Open Scope R_scope.

Lemma dot_zero_row (u x : list R) : Forall (eq 0) u -> nn.dot u x = 0.
Proof.
  unfold nn.dot. intros Hu. revert x.
  induction Hu as [|z u <- Hu IH]; intros [|y x]; cbn; try done.
  rewrite IH. lra.
Qed.

Lemma map_nth_seq_data (l : list R) :
  map (fun j => nth j l 0) (seq 0 (length l)) = l.
Proof.
  apply list_eq. intros k. rewrite list_lookup_fmap.
  destruct (decide (k < length l)%nat) as [Hk|Hk].
  - rewrite lookup_seq_lt by done. cbn. rewrite nth_lookup.
    destruct (lookup_lt_is_Some_2 l k Hk) as [y Hy]. by rewrite Hy.
  - rewrite lookup_seq_ge by lia. cbn. symmetry. apply lookup_ge_None. lia.
Qed.

Lemma Linear_forward_zero_weight h l x v W b :
  nn.Linear_forward h l x = Ok v ->
  h !! nn.weight l = Some W -> h !! nn.bias l = Some b ->
  Forall (eq 0) (data W) -> shape b = [length (data b)] ->
  v = data b.
Proof.
  unfold nn.Linear_forward. intros H HW Hb Hz Hsh. rewrite HW, Hb in H.
  destruct (shape W) as [|o [|i [|]]]; try done.
  case_bool_decide as Hd; [|done]. injection H as <-.
  destruct Hd as [_ Hbs]. rewrite Hsh in Hbs. injection Hbs as <-.
  rewrite <- (map_nth_seq_data (data b)) at 2. apply map_ext. intros j.
  rewrite dot_zero_row; [lra|]. unfold nn.row.
  by apply Forall_take, Forall_drop.
Qed.

Lemma forward_action_values_are_the_bias h net x r W b :
  nn.forward torch h net x = Ok r ->
  h !! nn.weight (nn.q_network_fc3 net) = Some W ->
  h !! nn.bias (nn.q_network_fc3 net) = Some b ->
  Forall (eq 0) (data W) -> shape b = [length (data b)] ->
  nn.ret_q r = data b.
Proof.
  unfold nn.forward. intros H HW Hb Hz Hsh.
  apply rbind_Ok in H as (rep & _ & H). apply rbind_Ok in H as (an & _ & H).
  apply rbind_Ok in H as (q & Hq & [= <-]). cbn. unfold nn.q_head in Hq.
  apply rbind_Ok in Hq as (x1 & _ & Hq). apply rbind_Ok in Hq as (x2 & _ & Hq).
  by eapply Linear_forward_zero_weight.
Qed.


Lemma largest_of_unique (q : list R) m m' :
  largest_of q m -> largest_of q m' -> m = m'.
Proof.
  intros [Hin Hle] [Hin' Hle']. specialize (Hle m' Hin').
  specialize (Hle' m Hin). lra.
Qed.

Lemma largest_of_last_of_four :
  largest_of [1; 2; 3; 4] 4.
Proof.
  split; [by apply list_elem_of_lookup_2 with 3%nat|].
  intros x Hx. rewrite !elem_of_cons, elem_of_nil in Hx.
  destruct Hx as [->|[->|[->|[->|[]]]]]; lra.
Qed.

Lemma Forall2_two {A B} (P : A -> B -> Prop) x y l :
  Forall2 P [x; y] l -> exists u v, l = [u; v] /\ P x u /\ P y v.
Proof.
  intros H. inversion H as [|? u ? l1 Hu H1]; subst.
  inversion H1 as [|? v ? l2 Hv H2]; subst. inversion H2; subst. eauto.
Qed.

End BiasOnly.

(** Two stored transitions, one of them without a next state, and a
    policy network and a target network whose action values are 1, 2,
    3 and 4 at every state: the optimisation step runs and does not
    fail. *)
Lemma run_optimize_on_two_transitions :
  match agent.init toy_torch (toy_env 4 1 0)
          (with_discount (1/2) 2 (toy_args (Some "no_aux") false))
          (toy_init_with [(11%nat, [1; 2; 3; 4]%R)]) [] 0 0
  with
  | Ok s0 =>
      match agent.optimize toy_torch (toy_env 4 1 0) toy_random
              (with_discount (1/2) 2 (toy_args (Some "no_aux") false)) 0
              (agent.set_memory
                 (push (push (agent.memory s0)
                          (toy_move 1 1 (Some toy_state) None None))
                       (toy_move 2 (1/2) None None None)) s0)
      with
      | Ok _ =>
          let h := agent.heap s0 in
          let pol := nn.q_network_fc3 (agent.policy_net s0) in
          let tgt := nn.q_network_fc3 (agent.target_net s0) in
          h !! nn.weight pol = Some (mkTensor [4; 64]%nat (repeat 0%R 256)) /\
          h !! nn.bias pol = Some (mkTensor [4%nat] [1; 2; 3; 4]%R) /\
          h !! nn.weight tgt = Some (mkTensor [4; 64]%nat (repeat 0%R 256)) /\
          h !! nn.bias tgt = Some (mkTensor [4%nat] [1; 2; 3; 4]%R)
      | Raise _ => False
      end
  | Raise _ => False
  end.
Proof. ev_reals. repeat split; reflexivity. Qed.

(** The primary loss of an optimisation step on these two transitions:
    the policy values 2 and 3 are those at the actions 1 and 2, not the
    largest; the targets are [1 + 1/2 * 4] with the largest target value
    and [1/2 + 1/2 * 0] for the transition without a next state. *)
Lemma primary_loss_is_mean_squared_td_error_witness :
  exists s0,
    agent.init toy_torch (toy_env 4 1 0)
      (with_discount (1/2) 2 (toy_args (Some "no_aux") false))
      (toy_init_with [(11%nat, [1; 2; 3; 4]%R)]) [] 0 0 = Ok s0 /\
    let args := with_discount (1/2) 2 (toy_args (Some "no_aux") false) in
    let tr1 := toy_move 1 1 (Some toy_state) None None in
    let tr2 := toy_move 2 (1/2) None None None in
    let s := agent.set_memory (push (push (agent.memory s0) tr1) tr2) s0 in
    exists s',
    agent.optimize toy_torch (toy_env 4 1 0) toy_random args 0 s =
      Ok (tt, s') /\
    exists trs b rs loss qs ys,
      (sample (agent.memory s)
         (random_sample toy_random (agent.draws s) (len (agent.memory s))
                        (Z.to_nat (batch_size args))) = Ok trs /\
       length trs = Z.to_nat (batch_size args) /\
       agent.collate (agent.need_next s) trs = Ok b /\
       agent.forward_batch toy_torch (agent.heap s) (agent.policy_net s)
         (agent.state_batch b) = Ok rs /\
       agent.primary_loss toy_torch args (agent.heap s) (agent.target_net s)
         b rs = Ok loss /\
       Forall2 (taken_action_value toy_torch (agent.heap s)
                  (agent.policy_net s)) trs qs /\
       Forall2 (td_target toy_torch args (agent.heap s) (agent.target_net s))
               trs ys /\
       loss = mean_squared_error qs ys) /\
      trs = [tr1; tr2] /\ qs = [2; 3]%R /\ ys = [3; 1/2]%R /\
      loss = (29/8)%R.
Proof.
  pose proof run_optimize_on_two_transitions as H.
  destruct (init_spec toy_torch (toy_env 4 1 0)
              (with_discount (1/2) 2 (toy_args (Some "no_aux") false))
              (toy_init_with [(11%nat, [1; 2; 3; 4]%R)]) [] 0 0)
    as (s0 & Hi & _ & _ & _ & _ & Hmem & _).
  rewrite Hi in H. exists s0. split; [exact Hi|]. cbn zeta.
  inspect H r Ho. destruct r as [[] s']. cbn zeta in H.
  destruct H as (HWp & Hbp & HWt & Hbt).
  exists s'. split; [reflexivity|].
  assert (Hn : (batch_size
                  (with_discount (1/2) 2 (toy_args (Some "no_aux") false)) <=
                Z.of_nat (len (agent.memory
                  (agent.set_memory
                     (push (push (agent.memory s0)
                              (toy_move 1 1 (Some toy_state) None None))
                           (toy_move 2 (1/2) None None None)) s0))))%Z).
  { cbn [agent.memory agent.set_memory]. rewrite Hmem. by vm_compute. }
  destruct (primary_loss_is_mean_squared_td_error
              toy_torch (toy_env 4 1 0) toy_random
              (with_discount (1/2) 2 (toy_args (Some "no_aux") false)) 0
              _ tt s' Hn Ho)
    as (trs & b & rs & loss & qs & ys & Hs & Hl & Hb & Hrs & Hloss & Hqs
        & Hys & Hmse).
  exists trs, b, rs, loss, qs, ys. split; [by repeat split|].
  cbn [agent.memory agent.set_memory agent.heap agent.policy_net
       agent.target_net] in Hs, Hqs, Hys.
  rewrite Hmem in Hs. cbn in Hs. injection Hs as <-.
  apply Forall2_two in Hqs as (q1 & q2 & -> & (r1 & Hr1 & _ & Hq1)
                               & (r2 & Hr2 & _ & Hq2)).
  apply Forall2_two in Hys as (y1 & y2 & -> & (b1 & (t1 & Ht1 & Hb1) & Hy1)
                               & (b2 & Hb2 & Hy2)).
  rewrite (forward_action_values_are_the_bias _ _ _ _ _ _ _ Hr1 HWp Hbp)
    in Hq1 by (cbn; repeat constructor).
  rewrite (forward_action_values_are_the_bias _ _ _ _ _ _ _ Hr2 HWp Hbp)
    in Hq2 by (cbn; repeat constructor).
  rewrite (forward_action_values_are_the_bias _ _ _ _ _ _ _ Ht1 HWt Hbt)
    in Hb1 by (cbn; repeat constructor).
  cbn in Hq1, Hq2, Hb1, Hb2, Hy1, Hy2. injection Hq1 as <-. injection Hq2 as <-.
  rewrite (largest_of_unique _ _ _ Hb1 largest_of_last_of_four) in Hy1.
  subst b2 y1 y2 loss. split; [reflexivity|]. split; [reflexivity|].
  split; [f_equal; [lra|f_equal; lra]|].
  unfold mean_squared_error. cbn. lra.
Defined.



(** ** The optimisation step on a memory below the batch size *)

Section Skip.
Context (torch : Torch) (env : Env) (rnd : Random) (args : Args).

Local Abbreviation Machine := (agent.Machine torch env).

(** C9.  With fewer stored transitions than [batch_size], the
    optimisation step returns at once without an exception, and the
    machine after it is the machine before it: every parameter of the
    policy network and of the target network has its old value, the
    memory, the optimizer and the random generator are untouched, and
    the trace has no new event. *)
Theorem optimize_below_batch_size_changes_nothing i (s : Machine) :
  (Z.of_nat (len (agent.memory s)) < batch_size args)%Z ->
  exists s',
    agent.optimize torch env rnd args i s = Ok (tt, s') /\
    s' = s /\
    (forall k,
       param (agent.heap s') (nn.named_parameters (agent.policy_net s')) k =
       param (agent.heap s) (nn.named_parameters (agent.policy_net s)) k) /\
    (forall k,
       param (agent.heap s') (nn.named_parameters (agent.target_net s')) k =
       param (agent.heap s) (nn.named_parameters (agent.target_net s)) k) /\
    agent.log s' = agent.log s.
Proof.
  intros H. exists s. split; [|done].
  unfold agent.optimize, bind, get.
  apply Z.ltb_lt in H. by rewrite H.
Qed.

End Skip.

(** The optimisation step of a new agent, whose memory is empty. *)
Lemma optimize_below_batch_size_changes_nothing_witness :
  exists s0,
    agent.init toy_torch (toy_env 4 1 0) (toy_args (Some "no_aux") false)
               toy_init [] 0 0 = Ok s0 /\
    exists s',
      agent.optimize toy_torch (toy_env 4 1 0) toy_random
                     (toy_args (Some "no_aux") false) 0 s0 = Ok (tt, s') /\
      s' = s0 /\
      (forall k,
         param (agent.heap s') (nn.named_parameters (agent.policy_net s')) k =
         param (agent.heap s0) (nn.named_parameters (agent.policy_net s0)) k) /\
      (forall k,
         param (agent.heap s') (nn.named_parameters (agent.target_net s')) k =
         param (agent.heap s0) (nn.named_parameters (agent.target_net s0)) k) /\
      agent.log s' = agent.log s0.
Proof.
  destruct (init_spec toy_torch (toy_env 4 1 0)
              (toy_args (Some "no_aux") false) toy_init [] 0 0)
    as (s0 & Hi & _ & _ & _ & _ & Hmem & _).
  exists s0. split; [exact Hi|].
  apply (optimize_below_batch_size_changes_nothing
           toy_torch (toy_env 4 1 0) toy_random
           (toy_args (Some "no_aux") false) 0 s0).
  rewrite Hmem. reflexivity.
Defined.


(** The threshold at double precision.  The original wording of C6
    says that the threshold is strictly decreasing in [steps_done].
    As Python computes it, with [eps_start = 0.9], [eps_end = 0.05] and
    [eps_decay = 200], it is not: at the counts 160000 and 160001 the
    arguments of [math.exp] are -800.0 and -800.005, where the
    exponential underflows to 0.0, and both thresholds are exactly
    [eps_end]. *)
Section DoublePrecision.
Import PrimFloat.
Local Open Scope float_scope.
#[local] Set Warnings "-inexact-float".


End DoublePrecision.

(** ** The size of the action-value head *)

Section Head.
Context (torch : Torch).

(** The result of a linear layer has as many entries as its weight has
    rows. *)
Lemma Linear_forward_length h l x v :
  nn.Linear_forward h l x = Ok v ->
  exists W o i,
    h !! nn.weight l = Some W /\ shape W = [o; i] /\ length v = o.
Proof.
  unfold nn.Linear_forward.
  destruct (h !! nn.weight l) as [W|]; [|done].
  destruct (h !! nn.bias l) as [b|]; [|done].
  destruct (shape W) as [|o [|i [|]]] eqn:Es; try done.
  case_bool_decide; [|done]. intros [= <-].
  exists W, o, i. by rewrite length_map, length_seq.
Qed.

(** The weight of a new linear layer. *)
Lemma Linear_init_weight ini i o h l h' :
  nn.Linear_init ini i o h = Ok (l, h') ->
  exists W, h' !! nn.weight l = Some W /\ shape W = [o; i].
Proof.
  unfold nn.Linear_init, bind, new_parameter, ret. intros [= <- <-]. cbn.
  exists (new_tensor ini (length h) [o; i]). split; [|done].
  rewrite lookup_app_l by (rewrite length_app; cbn; lia).
  by rewrite lookup_app_r, Nat.sub_diag by done.
Qed.

(** The last layer of the action-value head of a new network. *)
Lemma Network_init_head ini f a h net h' :
  nn.Network_init ini f a h = Ok (net, h') ->
  exists W, h' !! nn.weight (nn.q_network_fc3 net) = Some W /\
            shape W = [4; 64].
Proof.
  unfold nn.Network_init. intros H.
  apply bind_Ok in H as (rep & h1 & _ & H).
  apply bind_Ok in H as (fc1 & h2 & _ & H).
  apply bind_Ok in H as (aux & h3 & _ & H).
  apply bind_Ok in H as (fc2 & h4 & _ & H).
  apply bind_Ok in H as (fc3 & h5 & Hfc3 & H).
  injection H as <- <-. cbn. by eapply Linear_init_weight.
Qed.

(** C5.  The action-value head of a network built by [Network] gives,
    for every input on which the forward pass returns, a vector of
    length 4, on the store after the construction and on every store
    whose tensors keep their shapes; this is the number of actions that
    the environment reports exactly when that number is 4. *)
Theorem action_value_head_has_four_outputs (env : Env) ini f a h net h' h''
    x r :
  nn.Network_init ini f a h = Ok (net, h') ->
  map shape h'' = map shape h' ->
  nn.forward torch h'' net x = Ok r ->
  length (nn.ret_q r) = 4%nat /\
  (Z.of_nat (length (nn.ret_q r)) = action_space_n env <->
   action_space_n env = 4%Z).
Proof.
  intros Hn Hsh H.
  assert (Hl : length (nn.ret_q r) = 4%nat).
  { apply Network_init_head in Hn as (W & HW & Es).
    unfold nn.forward in H. apply rbind_Ok in H as (rep & _ & H).
    apply rbind_Ok in H as (an & _ & H). apply rbind_Ok in H as (q & Hq & [= <-]).
    cbn. unfold nn.q_head in Hq. apply rbind_Ok in Hq as (x1 & _ & Hq).
    apply rbind_Ok in Hq as (x2 & _ & Hq).
    apply Linear_forward_length in Hq as (W' & o & i & HW' & Es' & ->).
    apply (f_equal (fun l => l !! nn.weight (nn.q_network_fc3 net))) in Hsh.
    rewrite !list_lookup_fmap, HW, HW' in Hsh. cbn in Hsh. congruence. }
  split; [done|]. rewrite Hl. split; intros; lia.
Qed.

End Head.

(** The forward pass of a new network in the small world returns. *)
Lemma run_forward :
  match nn.Network_init toy_init false (Some "no_aux") [] with
  | Ok (net, h) =>
      match nn.forward toy_torch h net toy_state with
      | Ok _ => True
      | Raise _ => False
      end
  | Raise _ => False
  end.
Proof. ev_reals. exact I. Qed.

(** The action values of a new network in the small world. *)
Lemma action_value_head_has_four_outputs_witness :
  exists net h r,
    nn.Network_init toy_init false (Some "no_aux") [] = Ok (net, h) /\
    nn.forward toy_torch h net toy_state = Ok r /\
    length (nn.ret_q r) = 4%nat /\
    (Z.of_nat (length (nn.ret_q r)) = action_space_n (toy_env 4 1 0) <->
     action_space_n (toy_env 4 1 0) = 4%Z).
Proof.
  pose proof run_forward as H.
  inspect H nh Hn. destruct nh as [net h]. inspect H r Hr.
  exists net, h, r. split; [reflexivity|]. split; [exact Hr|].
  exact (action_value_head_has_four_outputs
           toy_torch (toy_env 4 1 0) toy_init false (Some "no_aux") [] net h h
           toy_state r Hn eq_refl Hr).
Defined.

(** The agent of an environment with two actions, at the state that the
    environment shows. *)
Lemma run_forward_with_two_actions :
  match agent.init toy_torch (toy_env 2 1 0) (toy_args (Some "no_aux") false)
          toy_init [] 0 0
  with
  | Ok s =>
      match nn.forward toy_torch (agent.heap s) (agent.policy_net s) toy_state
      with
      | Ok r => length (nn.ret_q r) = 4%nat /\ agent.action_space s = 2%Z
      | Raise _ => False
      end
  | Raise _ => False
  end.
Proof. ev_reals. split; reflexivity. Qed.

(** C5, as stated, fails for an environment with two actions: the
    agent records 2 as the size of the action space, and its policy
    network gives four action values. *)
Lemma action_value_head_ignores_the_action_space :
  exists s r,
    agent.init toy_torch (toy_env 2 1 0) (toy_args (Some "no_aux") false)
               toy_init [] 0 0 = Ok s /\
    nn.forward toy_torch (agent.heap s) (agent.policy_net s) toy_state =
      Ok r /\
    action_space_n (toy_env 2 1 0) = 2%Z /\
    agent.action_space s = 2%Z /\
    length (nn.ret_q r) = 4%nat /\
    Z.of_nat (length (nn.ret_q r)) <> action_space_n (toy_env 2 1 0).
Proof.
  pose proof run_forward_with_two_actions as H.
  inspect H s Hs. inspect H r Hr. destruct H as [Hl Ha].
  exists s, r. split; [reflexivity|]. split; [exact Hr|]. split; [reflexivity|].
  split; [exact Ha|]. split; [exact Hl|]. rewrite Hl. cbn. lia.
Qed.

(** * Further properties of the training loop *)

(** ** The counter of selected actions *)

Section Counter.
Context (torch : Torch) (env : Env) (rnd : Random) (args : Args).

Local Abbreviation Machine := (agent.Machine torch env).

Implicit Types s : Machine.

Ltac msimpl :=
  cbn [agent.need_next agent.action_space agent.policy_net agent.target_net
       agent.optimizer agent.memory agent.steps_done agent.reward_in_episode
       agent.heap agent.world agent.draws agent.frame agent.log
       agent.set_optimizer_heap agent.set_heap agent.set_memory
       agent.set_steps_done agent.set_reward_in_episode agent.set_world
       agent.set_draws agent.set_frame agent.set_log fst snd] in *.

Lemma optimize_steps_done i s u s' :
  agent.optimize torch env rnd args i s = Ok (u, s') ->
  agent.steps_done s' = agent.steps_done s.
Proof.
  unfold agent.optimize, agent.draw, bind, get, modify, ret, raise, lift.
  msimpl.
  destruct (_ <? _)%Z; [by intros [= <- <-]|].
  destruct (_ <? _)%Z; [done|].
  destruct (sample _ _) as [trs|]; [|done].
  destruct (agent.loss_of _ _ _ _ _ _ _) as [l|]; [|done].
  destruct (agent.read_all _ _) as [vals|]; [|done].
  by intros [= <- <-].
Qed.

Lemma store_pending_steps_done i a s u s' :
  agent.store_pending torch env rnd args i a s = Ok (u, s') ->
  agent.steps_done s' = agent.steps_done s.
Proof.
  unfold agent.store_pending. intros H.
  apply bind_Ok in H as (v & s1 & Hv & H).
  assert (s1 = s) as ->.
  { destruct (nn.is_vvf _).
    - apply bind_Ok in Hv as (r & s2 & Hr & Hv). injection Hv as _ <-.
      unfold agent.info_virtual_reward in Hr.
      apply bind_Ok in Hr as (inf & s3 & Hi & Hr).
      apply local_inv in Hi as [-> _]. destruct inf; [|done].
      by injection Hr as _ <-.
    - by injection Hv as _ <-. }
  apply bind_Ok in H as (ps & s1 & Hx & H). apply local_inv in Hx as [-> _].
  apply bind_Ok in H as (pa & s1 & Hx & H). apply local_inv in Hx as [-> _].
  apply bind_Ok in H as (st & s1 & Hx & H). apply local_inv in Hx as [-> _].
  apply bind_Ok in H as (r & s1 & Hx & H). apply local_inv in Hx as [-> _].
  apply bind_Ok in H as ([] & s1 & Hp & H).
  rewrite push_transition_eq in Hp. injection Hp as <-.
  by apply optimize_steps_done in H.
Qed.

Lemma soft_update_steps_done s u s' :
  agent.soft_update torch env args s = Ok (u, s') ->
  agent.steps_done s' = agent.steps_done s.
Proof.
  unfold agent.soft_update, agent.on_heap, agent.emit, bind, get, modify, lift.
  msimpl.
  destruct (agent.blend _ _ _ _ _) as [sd|]; [|done].
  destruct (nn.load_state_dict _ _ _) as [[[] h']|]; [|done].
  by intros [= <- <-].
Qed.

(** A step selects one action and counts it. *)
Lemma step_steps_done i t s stop s' :
  agent.step torch env rnd args i t s = Ok (stop, s') ->
  agent.steps_done s' = S (agent.steps_done s).
Proof.
  intros H. apply step_parts in H as (a & done & s1 & s2 & H1 & H2 & H3).
  assert (E1 : agent.steps_done s1 = S (agent.steps_done s)).
  { unfold agent.interact in H1.
    apply bind_Ok in H1 as (st & s0 & Hst & H). apply local_inv in Hst as [-> _].
    apply bind_Ok in H as (a0 & s3 & Hsel & H).
    apply select_action_inv in Hsel as (_ & _ & Hc).
    apply bind_Ok in H as ([] & s4 & Hemit & H).
    unfold agent.emit, modify in Hemit. injection Hemit as <-.
    apply bind_Ok in H as (sg & s4 & Hget & H).
    unfold get in Hget. injection Hget as <- <-.
    apply bind_Ok in H as ([] & s5 & Hpend & H).
    assert (E5 : agent.steps_done s5 = agent.steps_done s3).
    { msimpl. destruct (_ && _); cbn [when] in Hpend.
      - by apply store_pending_steps_done in Hpend.
      - by injection Hpend as <-. }
    apply bind_Ok in H as (sg & s6 & Hget & H).
    unfold get in Hget. injection Hget as <- <-.
    apply bind_Ok in H as ([] & s6 & Hw & H).
    unfold modify in Hw. injection Hw as <-.
    apply bind_Ok in H as (obs & s6 & Hobs & H). apply lift_inv in Hobs as [-> _].
    apply bind_Ok in H as ([] & s6 & Hemit & H).
    unfold agent.emit, modify in Hemit. injection Hemit as <-.
    apply bind_Ok in H as ([] & s6 & Hloc & H).
    unfold agent.set_locals, modify in Hloc. injection Hloc as <-.
    apply bind_Ok in H as ([] & s7 & Himm & H).
    apply bind_Ok in H as ([] & s8 & Hloc & H).
    unfold agent.set_locals, modify in Hloc. injection Hloc as <-.
    unfold ret in H. injection H as _ _ <-. msimpl.
    assert (E7 : agent.steps_done s7 = agent.steps_done s5).
    { destruct (negb _); cbn [when] in Himm.
      - apply bind_Ok in Himm as ([] & s9 & Hpush & Hopt).
        rewrite push_transition_eq in Hpush. injection Hpush as <-.
        by apply optimize_steps_done in Hopt.
      - by injection Himm as <-. }
    rewrite E7, E5, Hc. lia. }
  assert (E2 : agent.steps_done s2 = agent.steps_done s1).
  { unfold agent.sync_step in H2. destruct (soft_target_update args);
      cbn [when] in H2.
    - by apply soft_update_steps_done in H2.
    - by injection H2 as <-. }
  assert (E3 : agent.steps_done s' = agent.steps_done s2).
  { unfold agent.conclude in H3. destruct (_ || _).
    - apply bind_Ok in H3 as (sg & s3 & Hget & H).
      unfold get in Hget. injection Hget as <- <-.
      apply bind_Ok in H as ([] & s3 & Hfl & H).
      apply bind_Ok in H as ([] & s4 & Hfin & H).
      unfold ret in H. injection H as _ <-.
      unfold agent.finish_episode, agent.set_locals, agent.emit, bind, get,
        modify in Hfin. injection Hfin as <-. msimpl.
      destruct (agent.need_next s2); cbn [when] in Hfl.
      + by apply store_pending_steps_done in Hfl.
      + by injection Hfl as <-.
    - by injection H3 as _ <-. }
  congruence.
Qed.

End Counter.

(** ** What an episode leaves in the trace *)

Section TraceProjections.
Context {torch : Torch} {env : Env}.

Lemma env_rewards_app (l1 l2 : list agent.Event) :
  env_rewards (l1 ++ l2) = env_rewards l1 ++ env_rewards l2.
Proof. apply omap_app. Qed.

Lemma env_dones_app (l1 l2 : list agent.Event) :
  env_dones (l1 ++ l2) = env_dones l1 ++ env_dones l2.
Proof. apply omap_app. Qed.

Lemma selections_app (l1 l2 : list agent.Event) :
  selections (l1 ++ l2) = selections l1 ++ selections l2.
Proof. apply omap_app. Qed.

Lemma pushes_app (l1 l2 : list agent.Event) :
  pushes (l1 ++ l2) = pushes l1 ++ pushes l2.
Proof. apply omap_app. Qed.

Lemma episode_ends_app (l1 l2 : list agent.Event) :
  episode_ends (l1 ++ l2) = episode_ends l1 ++ episode_ends l2.
Proof. apply omap_app. Qed.

Lemma env_rewards_pushes trs : env_rewards (map agent.EvPush trs) = [].
Proof. by induction trs. Qed.

Lemma env_dones_pushes trs : env_dones (map agent.EvPush trs) = [].
Proof. by induction trs. Qed.

Lemma selections_pushes trs : selections (map agent.EvPush trs) = [].
Proof. by induction trs. Qed.

Lemma episode_ends_pushes trs : episode_ends (map agent.EvPush trs) = [].
Proof. by induction trs. Qed.

Lemma pushes_pushes trs : pushes (map agent.EvPush trs) = trs.
Proof.
  unfold pushes. induction trs as [|tr trs IH]; [done|]. cbn. by f_equal.
Qed.

End TraceProjections.

(** The projections of the events of one part of the loop. *)
Ltac project :=
  rewrite ?env_rewards_app, ?env_dones_app, ?selections_app, ?pushes_app,
    ?episode_ends_app, ?hard_updates_app, ?env_rewards_pushes,
    ?env_dones_pushes, ?selections_pushes, ?episode_ends_pushes,
    ?pushes_pushes, ?hard_updates_pushes.

Section EpisodeSummary.
Context (torch : Torch) (env : Env) (rnd : Random) (args : Args).

Local Abbreviation Machine := (agent.Machine torch env).
Local Open Scope R_scope.

Implicit Types s : Machine.

(** The events of one step, projected. *)
Lemma step_summary i t s stop s' :
  agent.step torch env rnd args i t s = Ok (stop, s') ->
  exists block a rew done,
    agent.log s' = agent.log s ++ block /\
    stop = done || (horizon args <? Z.of_nat t)%Z /\
    env_rewards block = [rew] /\ env_dones block = [done] /\
    selections block = [a] /\
    episode_ends block = (if stop then [i] else []) /\
    agent.l_reward_in_episode (agent.frame s') =
      agent.l_reward_in_episode (agent.frame s) + rew /\
    agent.l_consecutive_episodes (agent.frame s') =
      (if stop
       then if Req_dec_T (agent.l_reward_in_episode (agent.frame s) + rew) 1
            then (agent.l_consecutive_episodes (agent.frame s) + 1)%Z
            else 0%Z
       else agent.l_consecutive_episodes (agent.frame s)) /\
    agent.reward_in_episode s' =
      (if stop
       then agent.reward_in_episode s ++
            [agent.l_reward_in_episode (agent.frame s) + rew]
       else agent.reward_in_episode s).
Proof.
  intros H. apply step_inv in H
    as (st & a & nxt & rew & inf & done & pend & imm & fl & _ & Hstop & _ & _
        & _ & Hev & _).
  destruct Hev as (_ & _ & _ & _ & _ & Hf & Hr & Hl).
  eexists. exists a, rew, done. split; [exact Hl|]. split; [done|].
  rewrite Hf, Hr. project.
  destruct (soft_target_update args), stop; project; cbn; by repeat split.
Qed.

(** The loop over the steps of an episode: it runs [n + 1] steps; the
    environment reports [done] at none of the first [n]; the last one
    is done or past the horizon. *)
Lemma steps_summary fuel i t s u s' :
  agent.steps torch env rnd args fuel i t s = Ok (u, s') ->
  exists block n d,
    agent.log s' = agent.log s ++ block /\
    env_dones block = repeat false n ++ [d] /\
    length (env_rewards block) = S n /\
    length (selections block) = S n /\
    episode_ends block = [i] /\
    (d = true \/ (horizon args < Z.of_nat (t + n))%Z) /\
    (forall k, (k < n)%nat -> (Z.of_nat (t + k) <= horizon args)%Z) /\
    agent.steps_done s' = (agent.steps_done s + S n)%nat /\
    let total := add_rewards (agent.l_reward_in_episode (agent.frame s))
                             (env_rewards block) in
    agent.reward_in_episode s' = agent.reward_in_episode s ++ [total] /\
    agent.l_consecutive_episodes (agent.frame s') =
      (if Req_dec_T total 1
       then (agent.l_consecutive_episodes (agent.frame s) + 1)%Z else 0%Z).
Proof.
  revert t s; induction fuel as [|fuel IH]; intros t s; [done|].
  rewrite steps_S. intros H. apply bind_Ok in H as (stop & s1 & Hstep & H).
  pose proof (step_steps_done _ _ _ _ _ _ _ _ _ Hstep) as Hc.
  apply step_summary in Hstep
    as (block & a & rew & done & Hl & Hstop & Hrw & Hd & Hsel & Hee & Hre & Hce
        & Hrie).
  destruct stop.
  - unfold ret in H. injection H as _ <-. exists block, 0%nat, done.
    split; [done|]. rewrite Hrw, Hd, Hsel. do 4 (split; [done|]). split.
    { symmetry in Hstop. apply orb_true_iff in Hstop as [->|Hh]; [by left|].
      right. apply Z.ltb_lt in Hh. by rewrite Nat.add_0_r. }
    split; [intros k Hk; lia|]. split; [lia|]. cbn. done.
  - symmetry in Hstop. apply orb_false_iff in Hstop as [-> Hh].
    apply Z.ltb_ge in Hh.
    destruct (IH _ _ H) as (block' & n & d & Hl' & Hd' & Hrw' & Hsel' & Hee'
                             & Hlast & Hbefore & Hc' & Hrie' & Hce').
    exists (block ++ block'), (S n), d.
    split; [by rewrite Hl', Hl, app_assoc|]. project.
    rewrite Hd, Hd', Hrw, Hsel, Hee, Hee'. cbn [app length repeat].
    rewrite Hrw', Hsel'. do 4 (split; [done|]). split.
    { destruct Hlast as [->|Hlast]; [by left|right]. by rewrite Nat.add_succ_r. }
    split.
    { intros [|k] Hk; [by rewrite Nat.add_0_r|].
      rewrite Nat.add_succ_r. apply (Hbefore k). lia. }
    split; [lia|]. cbn zeta in *. unfold add_rewards in *. cbn [foldl].
    rewrite <- Hre, <- Hrie, <- Hce. done.
Qed.

End EpisodeSummary.

Section Episode.
Context (torch : Torch) (env : Env) (rnd : Random) (args : Args).

Local Abbreviation Machine := (agent.Machine torch env).
Local Open Scope R_scope.

Implicit Types s : Machine.

Ltac msimpl :=
  cbn [agent.need_next agent.action_space agent.policy_net agent.target_net
       agent.optimizer agent.memory agent.steps_done agent.reward_in_episode
       agent.heap agent.world agent.draws agent.frame agent.log
       agent.set_optimizer_heap agent.set_heap agent.set_memory
       agent.set_steps_done agent.set_reward_in_episode agent.set_world
       agent.set_draws agent.set_frame agent.set_log fst snd] in *.

Lemma begin_episode_steps_done i s u s' :
  agent.begin_episode torch env i s = Ok (u, s') ->
  agent.steps_done s' = agent.steps_done s.
Proof.
  unfold agent.begin_episode, agent.set_locals, agent.emit, bind, get, modify,
    lift.
  msimpl. destruct (to_state _) as [st|]; [|done]. by intros [= <- <-].
Qed.

Lemma hard_update_steps_done i s u s' :
  agent.hard_update torch env i s = Ok (u, s') ->
  agent.steps_done s' = agent.steps_done s.
Proof.
  unfold agent.hard_update, agent.on_heap, agent.emit, bind, get, modify.
  msimpl. destruct (nn.load_state_dict _ _ _) as [[[] h']|]; [|done].
  by intros [= <- <-].
Qed.

Lemma _save_steps_done s u s' :
  agent._save torch env args s = Ok (u, s') ->
  agent.steps_done s' = agent.steps_done s.
Proof.
  unfold agent._save, agent.emit, modify, ret.
  destruct (_ || _); cbn [when]; by intros [= <- <-].
Qed.

Lemma end_episode_steps_done i s stop s' :
  agent.end_episode torch env args i s = Ok (stop, s') ->
  agent.steps_done s' = agent.steps_done s.
Proof.
  unfold agent.end_episode. intros H.
  apply bind_Ok in H as (sg & s1 & Hget & H).
  unfold get in Hget. injection Hget as <- <-.
  destruct (_ =? _)%Z.
  - apply bind_Ok in H as ([] & s1 & Hs & H). unfold ret in H.
    injection H as _ <-. by apply _save_steps_done in Hs.
  - apply bind_Ok in H as ([] & s1 & Hh & H).
    apply bind_Ok in H as ([] & s2 & Hs & H). unfold ret in H.
    injection H as _ <-.
    assert (agent.steps_done s1 = agent.steps_done s) as <-.
    { revert Hh.
      destruct (negb _); cbn [when]; unfold ret; [|by intros [= <-]].
      destruct (target_update args =? 0)%Z; [done|].
      destruct (i mod target_update args =? 0)%Z; cbn [when]; unfold ret;
        [|by intros [= <-]].
      apply hard_update_steps_done. }
    revert Hs. destruct (save_ratio args =? 0)%Z; [done|].
    destruct (i mod save_ratio args =? 0)%Z; cbn [when]; unfold ret;
      [|by intros [= <-]].
    apply _save_steps_done.
Qed.

(** The loop over the steps does not run the hard update. *)
Lemma steps_hard_updates_none fuel i t s u s' :
  agent.steps torch env rnd args fuel i t s = Ok (u, s') ->
  hard_updates (agent.log s') = hard_updates (agent.log s).
Proof.
  set (I := fun (_ : nat) (m : Machine) =>
    hard_updates (agent.log m) = hard_updates (agent.log s)).
  apply (steps_invariant torch env rnd args I (I 0%nat) i); [|done].
  intros t' m stop m' Hm Hstep. apply step_hard_updates in Hstep.
  unfold I in *. destruct stop; congruence.
Qed.

Lemma save_events_projections :
  env_rewards (save_events args) = [] /\ env_dones (save_events args) = [] /\
  selections (save_events args) = [] /\ episode_ends (save_events args) = [] /\
  pushes (save_events args) = [].
Proof. unfold save_events. by destruct (_ || _). Qed.

(** An episode, from the reset of the environment to the check of the
    streak. *)
Lemma episode_summary i s stop s' :
  agent.episode torch env rnd args i s = Ok (stop, s') ->
  exists block n d,
    agent.log s' = agent.log s ++ block /\
    env_dones block = repeat false n ++ [d] /\
    length (env_rewards block) = S n /\
    length (selections block) = S n /\
    episode_ends block = [i] /\
    (d = true \/ (horizon args < Z.of_nat n)%Z) /\
    (forall k, (k < n)%nat -> (Z.of_nat k <= horizon args)%Z) /\
    agent.steps_done s' = (agent.steps_done s + S n)%nat /\
    let total := add_rewards 0 (env_rewards block) in
    agent.reward_in_episode s' = agent.reward_in_episode s ++ [total] /\
    agent.l_consecutive_episodes (agent.frame s') =
      (if Req_dec_T total 1
       then (agent.l_consecutive_episodes (agent.frame s) + 1)%Z else 0%Z) /\
    stop = (agent.l_consecutive_episodes (agent.frame s') =?
            consecutive_episodes args)%Z /\
    hard_updates block =
      (if negb stop && negb (soft_target_update args) &&
          (i mod target_update args =? 0)%Z
       then [i] else []).
Proof.
  intros H. apply episode_parts in H as (s1 & s2 & Hb & Hs & He).
  pose proof (begin_episode_steps_done _ _ _ _ Hb) as Hc1.
  pose proof (end_episode_steps_done _ _ _ _ He) as Hc3.
  apply begin_episode_inv in Hb as (st & inf & Hev1 & _).
  destruct Hev1 as (_ & _ & _ & _ & _ & Hf1 & Hr1 & Hl1).
  pose proof (steps_hard_updates_none _ _ _ _ _ _ Hs) as Hhu.
  apply steps_summary in Hs
    as (block & n & d & Hl2 & Hd & Hrw & Hsel & Hee & Hlast & Hbefore & Hc2
        & Hrie & Hce).
  apply end_episode_inv in He as (Hstop & Hev3 & _).
  destruct Hev3 as (_ & _ & _ & _ & _ & Hf3 & Hr3 & Hl3).
  destruct save_events_projections as (Sr & Sd & Ss & Se & Sp).
  eexists. exists n, d. split.
  { rewrite Hl3, Hl2, Hl1, <- !app_assoc. reflexivity. }
  rewrite Hf1 in Hrie, Hce. cbn [begun agent.l_reward_in_episode
    agent.l_consecutive_episodes] in Hrie, Hce.
  rewrite Hl2, hard_updates_app in Hhu.
  rewrite <- (app_nil_r (hard_updates (agent.log s1))) in Hhu at 2.
  apply app_inv_head in Hhu.
  project.
  change (env_dones [agent.EvReset i]) with (@nil bool).
  change (env_rewards [agent.EvReset i]) with (@nil R).
  change (selections [agent.EvReset i]) with (@nil Z).
  change (episode_ends [agent.EvReset i]) with (@nil Z).
  change (hard_updates [agent.EvReset i]) with (@nil Z).
  cbn [app]. rewrite Hce in Hstop.
  rewrite Hf3, Hr3, Hrie, Hce, Hr1, Hc3, Hc2, Hc1, Hhu.
  setoid_rewrite Nat.add_0_l in Hlast. setoid_rewrite Nat.add_0_l in Hbefore.
  destruct stop; cbn [negb andb].
  - rewrite Sr, Sd, Ss, Se, hard_updates_save, !app_nil_r.
    by repeat split.
  - destruct (soft_target_update args); cbn [negb andb];
      destruct (i mod target_update args =? 0)%Z;
      destruct (i mod save_ratio args =? 0)%Z; project;
      change (env_dones [agent.EvHardUpdate i]) with (@nil bool);
      change (env_rewards [agent.EvHardUpdate i]) with (@nil R);
      change (selections [agent.EvHardUpdate i]) with (@nil Z);
      change (episode_ends [agent.EvHardUpdate i]) with (@nil Z);
      change (hard_updates [agent.EvHardUpdate i]) with [i];
      change (env_dones []) with (@nil bool);
      change (env_rewards []) with (@nil R);
      change (selections []) with (@nil Z);
      change (episode_ends []) with (@nil Z);
      change (hard_updates []) with (@nil Z);
      rewrite ?Sr, ?Sd, ?Ss, ?Se, ?hard_updates_save, ?app_nil_r;
      by repeat split.
Qed.

End Episode.

(** ** What a training run leaves in the trace *)

Section Training.
Context (torch : Torch) (env : Env) (rnd : Random) (args : Args).

Local Abbreviation Machine := (agent.Machine torch env).
Local Open Scope Z_scope.

Implicit Types s : Machine.

(** The episodes that divide by [target_update]. *)
Local Abbreviation scheduled :=
  (filter (fun j : Z => j mod target_update args = 0)).

Lemma seqZ_S (i : Z) (k : nat) :
  seqZ i (Z.of_nat (S k)) = i :: seqZ (i + 1) (Z.of_nat k).
Proof.
  rewrite seqZ_cons by lia. f_equal. f_equal; lia.
Qed.

(** The loop over the episodes: [k] episodes that do not complete the
    streak, then either no more episode, when all [n] have run, or one
    that completes it. *)
Lemma episodes_summary n i s u s' :
  agent.episodes torch env rnd args n i s = Ok (u, s') ->
  exists block rs (k : nat),
    agent.log s' = agent.log s ++ block /\
    agent.reward_in_episode s' = agent.reward_in_episode s ++ rs /\
    episode_ends block = seqZ i (Z.of_nat (length rs)) /\
    agent.l_consecutive_episodes (agent.frame s') =
      streak (agent.l_consecutive_episodes (agent.frame s)) rs /\
    (length rs = k /\ k = n \/
     length rs = S k /\ (S k <= n)%nat /\
     agent.l_consecutive_episodes (agent.frame s') =
       consecutive_episodes args) /\
    (forall j, (j < k)%nat ->
       streak (agent.l_consecutive_episodes (agent.frame s))
              (take (S j) rs) <> consecutive_episodes args) /\
    hard_updates block =
      (if soft_target_update args then []
       else scheduled (seqZ i (Z.of_nat k))) /\
    agent.steps_done s' =
      (agent.steps_done s + length (selections block))%nat /\
    length (env_rewards block) = length (selections block).
Proof.
  revert i s; induction n as [|n IH]; intros i s; cbn [agent.episodes].
  - unfold ret. intros [= <- <-]. exists [], [], 0%nat.
    rewrite !app_nil_r. do 4 (split; [reflexivity|]). split; [by left|].
    split; [intros j Hj; lia|]. split; [|split; [cbn; lia|done]].
    cbn. by destruct (soft_target_update args).
  - intros H. apply bind_Ok in H as (stop & s1 & Hep & H).
    apply episode_summary in Hep
      as (block & m & d & Hl & _ & Hrw & Hsel & Hee & _ & _ & Hc & Hrie & Hce
          & Hstop & Hhu).
    cbn zeta in Hrie, Hce. set (total := add_rewards 0 (env_rewards block)) in *.
    assert (Hs1 : agent.l_consecutive_episodes (agent.frame s1) =
                  streak (agent.l_consecutive_episodes (agent.frame s)) [total])
      by (by rewrite Hce).
    destruct stop.
    + unfold ret in H. injection H as _ <-. exists block, [total], 0%nat.
      split; [done|]. split; [done|]. split; [by rewrite Hee|].
      split; [done|]. split.
      { right. split; [done|]. split; [lia|]. symmetry in Hstop.
        by apply Z.eqb_eq in Hstop. }
      split; [intros j Hj; lia|]. split.
      { rewrite Hhu. cbn. by destruct (soft_target_update args). }
      split; [|lia]. rewrite Hc, Hsel. done.
    + destruct (IH _ _ H)
        as (block' & rs & k & Hl' & Hrie' & Hee' & Hce' & Hk & Hbefore & Hhu'
            & Hc' & Hlen').
      exists (block ++ block'), (total :: rs), (S k).
      split; [by rewrite Hl', Hl, app_assoc|].
      split; [by rewrite Hrie', Hrie, <- app_assoc|]. project.
      split. { rewrite Hee, Hee'. cbn [length app]. by rewrite seqZ_S. }
      split. { rewrite Hce', Hs1. done. }
      split.
      { destruct Hk as [[Hk ->]|(Hk & Hn & Hr)]; [left|right]; cbn [length].
        - by rewrite Hk.
        - rewrite Hk. split; [done|]. split; [lia|done]. }
      split.
      { intros [|j] Hj.
        - cbn [firstn]. rewrite take_0, <- Hs1. symmetry in Hstop.
          by apply Z.eqb_neq in Hstop.
        - cbn [firstn]. change (streak ?c (total :: ?l))
            with (streak (streak c [total]) l). rewrite <- Hs1.
          apply Hbefore. lia. }
      split.
      { rewrite Hhu, Hhu'. cbn [negb andb].
        destruct (soft_target_update args); cbn [negb andb]; [done|].
        rewrite seqZ_S. destruct (Z.eqb_spec (i mod target_update args) 0).
        - by rewrite filter_cons_True.
        - by rewrite filter_cons_False. }
      rewrite !length_app. split; lia.
Qed.

End Training.

Section Streak.
Local Open Scope Z_scope.

Lemma streak_snoc c rs r :
  streak c (rs ++ [r]) =
  if Req_dec_T r 1 then streak c rs + 1 else 0.
Proof. unfold streak. by rewrite foldl_app. Qed.

(** The count is the length of the run of rewards 1 at the end. *)
Lemma streak_ones rs :
  0 <= streak 0 rs /\
  exists pre,
    rs = pre ++ repeat 1%R (Z.to_nat (streak 0 rs)) /\
    forall x, last pre = Some x -> x <> 1%R.
Proof.
  induction rs as [|r rs (Hc & pre & Hrs & Hlast)] using rev_ind.
  - split; [done|]. exists []. split; [done|]. by intros x [=].
  - rewrite streak_snoc. destruct (Req_dec_T r 1) as [->|Hr].
    + split; [lia|]. exists pre. split; [|done].
      replace (Z.to_nat (streak 0 rs + 1)) with (S (Z.to_nat (streak 0 rs)))
        by lia.
      cbn [repeat]. rewrite repeat_cons, app_assoc. by rewrite <- Hrs.
    + split; [done|]. exists (rs ++ [r]). split; [by rewrite app_nil_r|].
      intros x. rewrite last_snoc. by intros [= <-].
Qed.

End Streak.

Section TrainingRuns.
Context (torch : Torch) (env : Env) (rnd : Random) (args : Args).

Local Abbreviation Machine := (agent.Machine torch env).

Implicit Types s : Machine.

(** The reward recorded for an episode is the sum of the rewards of its
    environment steps, built from 0 in the order of the steps; the
    count of consecutive successful episodes goes up by one if this sum
    is exactly 1 and back to 0 otherwise, and the training loop is left
    exactly when the count equals [consecutive_episodes]. *)
Theorem episode_reward_is_the_sum_of_its_step_rewards i s stop s' :
  agent.episode torch env rnd args i s = Ok (stop, s') ->
  exists block,
    agent.log s' = agent.log s ++ block /\
    episode_ends block = [i] /\
    let total := add_rewards 0 (env_rewards block) in
    agent.reward_in_episode s' = agent.reward_in_episode s ++ [total] /\
    agent.l_consecutive_episodes (agent.frame s') =
      (if Req_dec_T total 1
       then (agent.l_consecutive_episodes (agent.frame s) + 1)%Z else 0%Z) /\
    stop = (agent.l_consecutive_episodes (agent.frame s') =?
            consecutive_episodes args)%Z.
Proof.
  intros H. apply episode_summary in H
    as (block & n & d & Hl & _ & _ & _ & Hee & _ & _ & _ & Hrie & Hce & Hstop
        & _).
  by exists block.
Qed.

(** An episode has at least one step.  The environment reports [done] at
    its last step or at none; when at none, the episode has exactly
    [max 0 (horizon + 1) + 1] steps: the loop is left at the first step
    whose number is greater than [horizon], so that a horizon of 100
    gives 102 steps.  Every step selects one action, and the counter of
    selected actions goes up by the number of steps. *)
Theorem episode_runs_until_done_or_past_the_horizon i s stop s' :
  agent.episode torch env rnd args i s = Ok (stop, s') ->
  exists block (n : nat) d,
    agent.log s' = agent.log s ++ block /\
    env_dones block = repeat false n ++ [d] /\
    length (selections block) = S n /\
    (Z.of_nat n <= Z.max 0 (horizon args + 1))%Z /\
    (d = false -> Z.of_nat n = Z.max 0 (horizon args + 1)) /\
    agent.steps_done s' = (agent.steps_done s + S n)%nat.
Proof.
  intros H. apply episode_summary in H
    as (block & n & d & Hl & Hd & _ & Hsel & _ & Hlast & Hbefore & Hc & _).
  exists block, n, d. do 3 (split; [done|]).
  assert (Hle : (Z.of_nat n <= Z.max 0 (horizon args + 1))%Z).
  { destruct n as [|n]; [lia|]. specialize (Hbefore n). lia. }
  split; [done|]. split; [|done].
  intros ->. destruct Hlast as [|Hlast]; [done|]. lia.
Qed.

(** The start of [train]: the count of successful episodes is 0. *)
Lemma train_parts s u s' :
  agent.train torch env rnd args s = Ok (u, s') ->
  exists s0,
    agent.episodes torch env rnd args (Z.to_nat (max_episodes args)) 0 s0 =
      Ok (u, s') /\
    agent.log s0 = agent.log s /\
    agent.reward_in_episode s0 = agent.reward_in_episode s /\
    agent.steps_done s0 = agent.steps_done s /\
    agent.l_consecutive_episodes (agent.frame s0) = 0%Z.
Proof.
  unfold agent.train. intros H. apply bind_Ok in H as ([] & s0 & H0 & H).
  unfold agent.set_locals, modify in H0. injection H0 as <-.
  eexists. split; [exact H|]. done.
Qed.

(** Over a whole training run the counter of selected actions goes up
    by the number of actions selected, episode after episode, and every
    selected action is sent to the environment. *)
Theorem training_counts_every_selected_action s u s' :
  agent.train torch env rnd args s = Ok (u, s') ->
  exists block,
    agent.log s' = agent.log s ++ block /\
    agent.steps_done s' =
      (agent.steps_done s + length (selections block))%nat /\
    length (env_rewards block) = length (selections block) /\
    length (env_dones block) = length (selections block).
Proof.
  intros H. apply train_parts in H as (s0 & H & Hl & _ & Hc & _).
  apply episodes_summary in H
    as (block & rs & k & Hl' & _ & _ & _ & _ & _ & _ & Hc' & Hlen).
  exists block. rewrite Hl', Hc', Hl, Hc. do 3 (split; [done|]).
  rewrite <- Hlen. unfold env_rewards, env_dones.
  clear. induction block as [|[] block IH]; cbn; auto.
Qed.

(** A training run appends one reward per episode, at most
    [max_episodes]; the episodes are numbered from 0.  The count of
    successful episodes at the end is the length of the run of rewards
    1 at the end of these rewards.  When fewer than [max_episodes]
    episodes have run, this count is [consecutive_episodes], and it was
    never so after an earlier episode. *)
Theorem training_ends_early_only_at_the_streak s u s' :
  agent.train torch env rnd args s = Ok (u, s') ->
  exists block rs pre,
    agent.log s' = agent.log s ++ block /\
    agent.reward_in_episode s' = agent.reward_in_episode s ++ rs /\
    (length rs <= Z.to_nat (max_episodes args))%nat /\
    episode_ends block = seqZ 0 (Z.of_nat (length rs)) /\
    agent.l_consecutive_episodes (agent.frame s') = streak 0 rs /\
    (0 <= streak 0 rs)%Z /\
    rs = pre ++ repeat 1%R (Z.to_nat (streak 0 rs)) /\
    (forall x, last pre = Some x -> x <> 1%R) /\
    ((length rs < Z.to_nat (max_episodes args))%nat ->
     streak 0 rs = consecutive_episodes args) /\
    (forall j, (S j < length rs)%nat ->
       streak 0 (take (S j) rs) <> consecutive_episodes args).
Proof.
  intros H. apply train_parts in H as (s0 & H & Hl & Hr & _ & Hc0).
  apply episodes_summary in H
    as (block & rs & k & Hl' & Hrie & Hee & Hce & Hk & Hbefore & _).
  rewrite Hc0 in Hce, Hbefore.
  destruct (streak_ones rs) as (Hpos & pre & Hrs & Hlast).
  exists block, rs, pre. rewrite Hl', Hrie, Hl, Hr.
  do 2 (split; [done|]). split; [destruct Hk as [[]|(? & ? & ?)]; lia|].
  do 5 (split; [done|]). split.
  - intros Hlt. destruct Hk as [[]|(_ & _ & Hk)]; [lia|]. by rewrite <- Hce.
  - intros j Hj. apply Hbefore. destruct Hk as [[]|(? & ? & ?)]; lia.
Qed.

(** Without soft updates the hard updates of a training run are, in
    order, those of the episodes whose number divides by
    [target_update], among all the episodes but the one that completes
    the streak. *)
Theorem hard_updates_follow_the_episode_numbers s u s' :
  soft_target_update args = false ->
  agent.train torch env rnd args s = Ok (u, s') ->
  exists block (k m : nat),
    agent.log s' = agent.log s ++ block /\
    episode_ends block = seqZ 0 (Z.of_nat m) /\
    hard_updates block =
      filter (fun j : Z => (j mod target_update args = 0)%Z)
             (seqZ 0 (Z.of_nat k)) /\
    (m = k /\ k = Z.to_nat (max_episodes args) \/
     m = S k /\
     agent.l_consecutive_episodes (agent.frame s') =
       consecutive_episodes args).
Proof.
  intros Hsoft H. apply train_parts in H as (s0 & H & Hl & _).
  apply episodes_summary in H
    as (block & rs & k & Hl' & _ & Hee & _ & Hk & _ & Hhu & _).
  rewrite Hsoft in Hhu. exists block, k, (length rs).
  rewrite Hl', Hl. do 3 (split; [done|]).
  destruct Hk as [[]|(? & ? & ?)]; [by left|by right].
Qed.

End TrainingRuns.

(** The episode of one step with reward 1/2 in the small world. *)
Lemma episode_reward_is_the_sum_of_its_step_rewards_witness :
  exists s0,
    agent.init toy_torch (toy_env 4 (1/2) 0) (toy_args (Some "no_aux") false)
               toy_init [] 0 0 = Ok s0 /\
    exists s',
    agent.episode toy_torch (toy_env 4 (1/2) 0) toy_random
                  (toy_args (Some "no_aux") false) 0 s0 = Ok (false, s') /\
    exists block,
      agent.log s' = agent.log s0 ++ block /\
      episode_ends block = [0%Z] /\
      let total := add_rewards 0 (env_rewards block) in
      agent.reward_in_episode s' = agent.reward_in_episode s0 ++ [total] /\
      agent.l_consecutive_episodes (agent.frame s') =
        (if Req_dec_T total 1
         then (agent.l_consecutive_episodes (agent.frame s0) + 1)%Z
         else 0%Z) /\
      false = (agent.l_consecutive_episodes (agent.frame s') =?
               consecutive_episodes (toy_args (Some "no_aux") false))%Z.
Proof.
  destruct run_episode_with_hard_update as (s0 & Hi & _ & _ & s' & He).
  exists s0. split; [exact Hi|]. exists s'. split; [exact He|].
  exact (episode_reward_is_the_sum_of_its_step_rewards
           toy_torch (toy_env 4 (1/2) 0) toy_random
           (toy_args (Some "no_aux") false) 0 s0 false s' He).
Defined.

(** The same episode: one step, at which the environment is done. *)
Lemma episode_runs_until_done_or_past_the_horizon_witness :
  exists s0,
    agent.init toy_torch (toy_env 4 (1/2) 0) (toy_args (Some "no_aux") false)
               toy_init [] 0 0 = Ok s0 /\
    exists s',
    agent.episode toy_torch (toy_env 4 (1/2) 0) toy_random
                  (toy_args (Some "no_aux") false) 0 s0 = Ok (false, s') /\
    exists block (n : nat) d,
      agent.log s' = agent.log s0 ++ block /\
      env_dones block = repeat false n ++ [d] /\
      length (selections block) = S n /\
      (Z.of_nat n <=
       Z.max 0 (horizon (toy_args (Some "no_aux") false) + 1))%Z /\
      (d = false ->
       Z.of_nat n = Z.max 0 (horizon (toy_args (Some "no_aux") false) + 1)) /\
      agent.steps_done s' = (agent.steps_done s0 + S n)%nat.
Proof.
  destruct run_episode_with_hard_update as (s0 & Hi & _ & _ & s' & He).
  exists s0. split; [exact Hi|]. exists s'. split; [exact He|].
  exact (episode_runs_until_done_or_past_the_horizon
           toy_torch (toy_env 4 (1/2) 0) toy_random
           (toy_args (Some "no_aux") false) 0 s0 false s' He).
Defined.

(** The training run of one episode in the small world. *)
Lemma training_counts_every_selected_action_witness :
  exists s0,
    agent.init toy_torch (toy_env 4 1 0) (toy_args (Some "no_aux") false)
               toy_init [] 0 0 = Ok s0 /\
    exists s',
    agent.train toy_torch (toy_env 4 1 0) toy_random
                (toy_args (Some "no_aux") false) s0 = Ok (tt, s') /\
    exists block,
      agent.log s' = agent.log s0 ++ block /\
      agent.steps_done s' =
        (agent.steps_done s0 + length (selections block))%nat /\
      length (env_rewards block) = length (selections block) /\
      length (env_dones block) = length (selections block).
Proof.
  destruct run_one_terminal_step as (s0 & Hi & s' & Ht & _).
  exists s0. split; [exact Hi|]. exists s'. split; [exact Ht|].
  exact (training_counts_every_selected_action
           toy_torch (toy_env 4 1 0) toy_random
           (toy_args (Some "no_aux") false) s0 tt s' Ht).
Defined.

(** The streak of one successful episode ends the training run. *)
Lemma training_ends_early_only_at_the_streak_witness :
  let args := toy_args (Some "no_aux") false in
  exists s0,
    agent.init toy_torch (toy_env 4 1 0) args toy_init [] 0 0 = Ok s0 /\
    exists s',
    agent.train toy_torch (toy_env 4 1 0) toy_random args s0 = Ok (tt, s') /\
    exists block rs pre,
      agent.log s' = agent.log s0 ++ block /\
      agent.reward_in_episode s' = agent.reward_in_episode s0 ++ rs /\
      (length rs <= Z.to_nat (max_episodes args))%nat /\
      episode_ends block = seqZ 0 (Z.of_nat (length rs)) /\
      agent.l_consecutive_episodes (agent.frame s') = streak 0 rs /\
      (0 <= streak 0 rs)%Z /\
      rs = pre ++ repeat 1%R (Z.to_nat (streak 0 rs)) /\
      (forall x, last pre = Some x -> x <> 1%R) /\
      ((length rs < Z.to_nat (max_episodes args))%nat ->
       streak 0 rs = consecutive_episodes args) /\
      (forall j, (S j < length rs)%nat ->
         streak 0 (take (S j) rs) <> consecutive_episodes args).
Proof.
  intros args.
  destruct run_one_terminal_step as (s0 & Hi & s' & Ht & _).
  exists s0. split; [exact Hi|]. exists s'. split; [exact Ht|].
  exact (training_ends_early_only_at_the_streak
           toy_torch (toy_env 4 1 0) toy_random args s0 tt s' Ht).
Defined.

(** No hard update in a run whose only episode completes the streak. *)
Lemma hard_updates_follow_the_episode_numbers_witness :
  let args := toy_args (Some "no_aux") false in
  exists s0,
    agent.init toy_torch (toy_env 4 1 0) args toy_init [] 0 0 = Ok s0 /\
    exists s',
    agent.train toy_torch (toy_env 4 1 0) toy_random args s0 = Ok (tt, s') /\
    exists block (k m : nat),
      agent.log s' = agent.log s0 ++ block /\
      episode_ends block = seqZ 0 (Z.of_nat m) /\
      hard_updates block =
        filter (fun j : Z => (j mod target_update args = 0)%Z)
               (seqZ 0 (Z.of_nat k)) /\
      (m = k /\ k = Z.to_nat (max_episodes args) \/
       m = S k /\
       agent.l_consecutive_episodes (agent.frame s') =
         consecutive_episodes args).
Proof.
  intros args.
  destruct run_one_terminal_step as (s0 & Hi & s' & Ht & _).
  exists s0. split; [exact Hi|]. exists s'. split; [exact Ht|].
  exact (hard_updates_follow_the_episode_numbers
           toy_torch (toy_env 4 1 0) toy_random args s0 tt s' eq_refl Ht).
Defined.

(** ** The optional fields of the stored transitions *)

Section StoredFields.
Context (torch : Torch) (env : Env) (rnd : Random) (args : Args).

Local Abbreviation Machine := (agent.Machine torch env).

Implicit Types s : Machine.

Lemma is_vvf_requires_next u :
  nn.is_vvf u = true -> agent.requires_next u = true.
Proof.
  unfold nn.is_vvf, agent.requires_next.
  destruct (nn.aux_is u "virtual-reward-1"), (nn.aux_is u "virtual-reward-5");
    rewrite ?orb_true_r; done.
Qed.

(** The transition stored with delay. *)
Lemma store_pending_fits i a s u s' :
  agent.need_next s = agent.requires_next (use_aux args) ->
  agent.need_next s = true ->
  agent.store_pending torch env rnd args i a s = Ok (u, s') ->
  exists tr, agent.log s' = agent.log s ++ [agent.EvPush tr] /\
             fits_variant args tr.
Proof.
  intros Hn Ht H. apply store_pending_inv in H as (v & tr & Hp & Hv & Hev & _).
  destruct Hev as (_ & _ & _ & _ & _ & _ & _ & Hl).
  exists tr. split; [done|]. unfold pending in Hp.
  destruct (agent.l_previous_state (agent.frame s)),
    (agent.l_previous_action (agent.frame s)), (agent.l_state (agent.frame s)),
    (agent.l_reward (agent.frame s)); try done.
  injection Hp as <-. unfold fits_variant. cbn. rewrite <- Hn, Ht. split.
  - split; [done|by eexists].
  - rewrite <- not_eq_None_Some, Hv. by destruct (nn.is_vvf _).
Qed.

(** The transition stored at once. *)
Lemma immediate_fits s st a nxt rew :
  agent.need_next s = agent.requires_next (use_aux args) ->
  agent.need_next s = false ->
  fits_variant args (immediate st a nxt rew).
Proof.
  intros Hn Hf. rewrite Hf in Hn. unfold fits_variant. cbn. rewrite <- Hn.
  split; (split; [by intros [? [=]]|]); [done|].
  intros Hv. apply is_vvf_requires_next in Hv. congruence.
Qed.

Lemma stores_fitting_refl s : stores_fitting args s s.
Proof. split; [done|]. exists []. by rewrite app_nil_r. Qed.

Lemma stores_fitting_trans s s1 s2 :
  stores_fitting args s s1 -> stores_fitting args s1 s2 ->
  stores_fitting args s s2.
Proof.
  intros (Hn1 & b1 & Hl1 & Hf1) (Hn2 & b2 & Hl2 & Hf2). split; [congruence|].
  exists (b1 ++ b2). split; [by rewrite Hl2, Hl1, app_assoc|].
  project. by apply Forall_app.
Qed.

Lemma stores_fitting_evolves s s' m f r evs :
  evolves s s' m f r evs -> pushes evs = [] -> stores_fitting args s s'.
Proof.
  intros (Hn & _ & _ & _ & _ & _ & _ & Hl) He. split; [done|].
  exists evs. split; [done|]. by rewrite He.
Qed.

Ltac msimpl :=
  cbn [agent.need_next agent.action_space agent.policy_net agent.target_net
       agent.optimizer agent.memory agent.steps_done agent.reward_in_episode
       agent.heap agent.world agent.draws agent.frame agent.log
       agent.set_optimizer_heap agent.set_heap agent.set_memory
       agent.set_steps_done agent.set_reward_in_episode agent.set_world
       agent.set_draws agent.set_frame agent.set_log fst snd] in *.

Lemma store_pending_stores_fitting i a s u s' :
  agent.need_next s = agent.requires_next (use_aux args) ->
  agent.need_next s = true ->
  agent.store_pending torch env rnd args i a s = Ok (u, s') ->
  stores_fitting args s s'.
Proof.
  intros Hn Ht H. pose proof H as H'.
  apply store_pending_inv in H' as (_ & _ & _ & _ & (Hn' & _) & _).
  apply store_pending_fits in H as (tr & Hl & Hf); [|done..].
  split; [done|]. exists [agent.EvPush tr]. split; [done|].
  by apply Forall_singleton.
Qed.

(** The first part of a step. *)
Lemma interact_stores_fitting i t s r s' :
  agent.need_next s = agent.requires_next (use_aux args) ->
  agent.interact torch env rnd args i t s = Ok (r, s') ->
  stores_fitting args s s'.
Proof.
  intros Hn H. unfold agent.interact in H.
  apply bind_Ok in H as (st & s0 & Hst & H). apply local_inv in Hst as [-> _].
  apply bind_Ok in H as (a & s1 & Hsel & H).
  apply select_action_inv in Hsel as (Hsil & _).
  assert (G1 : stores_fitting args s s1)
    by (by eapply stores_fitting_evolves).
  apply bind_Ok in H as ([] & s2 & Hemit & H).
  unfold agent.emit, modify in Hemit. injection Hemit as <-.
  apply bind_Ok in H as (sg & s2 & Hget & H).
  unfold get in Hget. injection Hget as <- <-.
  apply bind_Ok in H as ([] & s3 & Hpend & H). msimpl.
  set (s2 := agent.set_log (agent.log s1 ++ [agent.EvSelect st a]) s1) in *.
  assert (G2 : stores_fitting args s1 s2).
  { split; [done|]. exists [agent.EvSelect st a]. by split. }
  assert (Hn2 : agent.need_next s2 = agent.need_next s)
    by (destruct G1; done).
  assert (G3 : stores_fitting args s2 s3).
  { revert Hpend. change (agent.need_next s1) with (agent.need_next s2).
    destruct (agent.need_next s2) eqn:En; cbn [andb when].
    - destruct (0 <? t)%nat; cbn [when].
      + apply store_pending_stores_fitting; congruence.
      + unfold ret. intros [= <-]. apply stores_fitting_refl.
    - unfold ret. intros [= <-]. apply stores_fitting_refl. }
  assert (Hn3 : agent.need_next s3 = agent.need_next s)
    by (destruct G3; congruence).
  apply bind_Ok in H as (sg & s4 & Hget & H).
  unfold get in Hget. injection Hget as <- <-.
  apply bind_Ok in H as ([] & s4 & Hw & H).
  unfold modify in Hw. injection Hw as <-.
  apply bind_Ok in H as (obs & s4 & Hobs & H). apply lift_inv in Hobs as [-> _].
  apply bind_Ok in H as ([] & s4 & Hemit & H).
  unfold agent.emit, modify in Hemit. injection Hemit as <-.
  apply bind_Ok in H as ([] & s4 & Hloc & H).
  unfold agent.set_locals, modify in Hloc. injection Hloc as <-.
  apply bind_Ok in H as ([] & s5 & Himm & H).
  apply bind_Ok in H as ([] & s6 & Hloc & H).
  unfold agent.set_locals, modify in Hloc. injection Hloc as <-.
  unfold ret in H. injection H as _ <-. msimpl.
  apply (stores_fitting_trans _ _ _ G1).
  apply (stores_fitting_trans _ _ _ G2).
  apply (stores_fitting_trans _ _ _ G3).
  revert Himm. destruct (agent.need_next s3) eqn:En; cbn [negb when].
  - unfold ret. intros [= <-]. split; [done|]. msimpl. eexists.
    split; [reflexivity|]. constructor.
  - intros Himm. apply bind_Ok in Himm as ([] & s7 & Hpush & Hopt).
    rewrite push_transition_eq in Hpush. injection Hpush as <-.
    apply optimize_inv in Hopt as [(Hn7 & _ & _ & _ & _ & _ & _ & Hl7) _].
    rewrite app_nil_r in Hl7. msimpl. split; [done|]. msimpl. rewrite Hl7.
    eexists. rewrite <- app_assoc. split; [reflexivity|].
    change (pushes ?l) with (pushes l). cbn. apply Forall_singleton.
    apply (immediate_fits s3); congruence.
Qed.

(** A step. *)
Lemma step_stores_fitting i t s stop s' :
  agent.need_next s = agent.requires_next (use_aux args) ->
  agent.step torch env rnd args i t s = Ok (stop, s') ->
  stores_fitting args s s'.
Proof.
  intros Hn H. apply step_parts in H as (a & done & s1 & s2 & H1 & H2 & H3).
  apply interact_stores_fitting in H1 as G1; [|done].
  apply (stores_fitting_trans _ _ _ G1).
  apply sync_step_inv in H2 as (Hev2 & _).
  assert (G2 : stores_fitting args s1 s2).
  { eapply stores_fitting_evolves; [exact Hev2|].
    by destruct (soft_target_update args). }
  apply (stores_fitting_trans _ _ _ G2).
  assert (Hn2 : agent.need_next s2 = agent.requires_next (use_aux args)).
  { destruct G1 as [E1 _], G2 as [E2 _]. congruence. }
  unfold agent.conclude in H3. destruct (_ || _).
  2:{ injection H3 as _ <-. apply stores_fitting_refl. }
  apply bind_Ok in H3 as (sg & s3 & Hget & H).
  unfold get in Hget. injection Hget as <- <-.
  apply bind_Ok in H as ([] & s3 & Hfl & H).
  apply bind_Ok in H as ([] & s4 & Hfin & H).
  unfold ret in H. injection H as _ <-.
  assert (G3 : stores_fitting args s2 s3).
  { revert Hfl. destruct (agent.need_next s2) eqn:En; cbn [when].
    - apply store_pending_stores_fitting; congruence.
    - unfold ret. intros [= <-]. apply stores_fitting_refl. }
  apply (stores_fitting_trans _ _ _ G3).
  unfold agent.finish_episode, agent.set_locals, agent.emit, bind, get, modify
    in Hfin. injection Hfin as <-. split; [done|]. msimpl. eexists.
  split; [reflexivity|]. constructor.
Qed.

(** The loop over the steps, and an episode. *)
Lemma steps_stores_fitting fuel i t s u s' :
  agent.need_next s = agent.requires_next (use_aux args) ->
  agent.steps torch env rnd args fuel i t s = Ok (u, s') ->
  stores_fitting args s s'.
Proof.
  revert t s; induction fuel as [|fuel IH]; intros t s Hn; [done|].
  rewrite steps_S. intros H. apply bind_Ok in H as (stop & s1 & Hstep & H).
  apply step_stores_fitting in Hstep as G1; [|done].
  destruct stop.
  - unfold ret in H. by injection H as _ <-.
  - apply (stores_fitting_trans _ _ _ G1). apply IH in H; [done|].
    destruct G1. congruence.
Qed.

Lemma episode_stores_fitting i s stop s' :
  agent.need_next s = agent.requires_next (use_aux args) ->
  agent.episode torch env rnd args i s = Ok (stop, s') ->
  stores_fitting args s s'.
Proof.
  intros Hn H. apply episode_parts in H as (s1 & s2 & Hb & Hs & He).
  apply begin_episode_inv in Hb as (st & inf & Hev1 & _).
  assert (G1 : stores_fitting args s s1)
    by (by eapply stores_fitting_evolves).
  apply (stores_fitting_trans _ _ _ G1).
  apply steps_stores_fitting in Hs as G2; [|destruct G1; congruence].
  apply (stores_fitting_trans _ _ _ G2).
  apply end_episode_inv in He as (_ & Hev3 & _).
  eapply stores_fitting_evolves; [exact Hev3|].
  destruct (save_events_projections args) as (_ & _ & _ & _ & Sp).
  destruct stop; [done|].
  destruct (_ && _), (i mod save_ratio args =? 0)%Z; project;
    by rewrite ?Sp.
Qed.

Lemma episodes_stores_fitting n i s u s' :
  agent.need_next s = agent.requires_next (use_aux args) ->
  agent.episodes torch env rnd args n i s = Ok (u, s') ->
  stores_fitting args s s'.
Proof.
  revert i s; induction n as [|n IH]; intros i s Hn; cbn [agent.episodes].
  - unfold ret. intros [= <- <-]. apply stores_fitting_refl.
  - intros H. apply bind_Ok in H as (stop & s1 & Hep & H).
    apply episode_stores_fitting in Hep as G1; [|done].
    destruct stop; [unfold ret in H; by injection H as _ <-|].
    apply (stores_fitting_trans _ _ _ G1). apply IH in H; [done|].
    destruct G1. congruence.
Qed.

(** Every transition that a training run stores holds a next action
    exactly when the variant is one of [sf], [sf+reward],
    [virtual-reward-1] and [virtual-reward-5], and a virtual reward
    exactly when it is [virtual-reward-1] or [virtual-reward-5]: what a
    transition holds is a matter of the configuration alone. *)
Theorem stored_fields_fit_the_variant s u s' :
  agent.need_next s = agent.requires_next (use_aux args) ->
  agent.train torch env rnd args s = Ok (u, s') ->
  exists block,
    agent.log s' = agent.log s ++ block /\
    forall tr, tr ∈ pushes block ->
      (is_Some (next_action tr) <->
       use_aux args ∈ [Some "sf"; Some "sf+reward"; Some "virtual-reward-1";
                       Some "virtual-reward-5"]%string) /\
      (is_Some (virtual_reward tr) <->
       use_aux args ∈ [Some "virtual-reward-1";
                       Some "virtual-reward-5"]%string).
Proof.
  intros Hn H. unfold agent.train in H.
  apply bind_Ok in H as ([] & s0 & H0 & H).
  unfold agent.set_locals, modify in H0. injection H0 as <-.
  apply episodes_stores_fitting in H as G; [|done].
  destruct G as (_ & block & Hl & Hf). exists block. split; [done|].
  intros tr Htr. rewrite Forall_forall in Hf. destruct (Hf tr Htr) as [Ha Hv].
  rewrite Ha, Hv. split; [apply requires_next_spec|].
  unfold nn.is_vvf, nn.aux_is. rewrite !elem_of_cons, elem_of_nil.
  destruct (use_aux args) as [u0|].
  - rewrite orb_true_iff, !String.eqb_eq. split.
    + intros [->| ->]; auto.
    + intros [[= ->]|[[= ->]|[]]]; auto.
  - split; [done|]. by intros [[=]|[[=]|[]]].
Qed.

End StoredFields.

(** The two transitions stored in the run of two steps under
    [sf+reward]. *)
Lemma stored_fields_fit_the_variant_witness :
  let args := toy_args (Some "sf+reward") false in
  exists s0,
    agent.init toy_torch (toy_env 4 (1/2) 1) args toy_init [] 0 0 = Ok s0 /\
    exists s',
    agent.train toy_torch (toy_env 4 (1/2) 1) toy_random args s0 =
      Ok (tt, s') /\
    exists block,
      agent.log s' = agent.log s0 ++ block /\
      forall tr, tr ∈ pushes block ->
        (is_Some (next_action tr) <->
         use_aux args ∈ [Some "sf"; Some "sf+reward"; Some "virtual-reward-1";
                         Some "virtual-reward-5"]%string) /\
        (is_Some (virtual_reward tr) <->
         use_aux args ∈ [Some "virtual-reward-1";
                         Some "virtual-reward-5"]%string).
Proof.
  intros args.
  destruct run_two_steps_sf_reward as (s0 & Hi & s' & Ht & Hn & _).
  exists s0. split; [exact Hi|]. exists s'. split; [exact Ht|].
  exact (stored_fields_fit_the_variant
           toy_torch (toy_env 4 (1/2) 1) toy_random args s0 tt s' Hn Ht).
Defined.

(** ** The blend at the ends of the range of [tau] *)

Section Blend.
Local Open Scope R_scope.

Lemma zip_with_left (f : R -> R -> R) (xs ys : list R) :
  (forall x y, f x y = x) -> length xs = length ys -> zip_with f xs ys = xs.
Proof.
  intros Hf. revert ys; induction xs as [|x xs IH]; intros [|y ys] Hl;
    cbn in *; try done.
  rewrite Hf, IH; [done|lia].
Qed.

Lemma zip_with_right (f : R -> R -> R) (xs ys : list R) :
  (forall x y, f x y = y) -> length xs = length ys -> zip_with f xs ys = ys.
Proof.
  intros Hf. revert ys; induction xs as [|x xs IH]; intros [|y ys] Hl;
    cbn in *; try done.
  rewrite Hf, IH; [done|lia].
Qed.

Lemma soft_blend_one p t : sig p = sig t -> soft_blend 1 p t = p.
Proof.
  unfold sig. intros [= Hs Hl]. unfold soft_blend. rewrite <- Hs.
  rewrite zip_with_left; [by destruct p|intros; lra|done].
Qed.

Lemma soft_blend_zero p t : sig p = sig t -> soft_blend 0 p t = t.
Proof.
  unfold sig. intros [= Hs Hl]. unfold soft_blend.
  rewrite zip_with_right; [by destruct t|intros; lra|done].
Qed.

End Blend.

(** ** What the optimisation step writes *)

Section OptimizerFrame.
Context (torch : Torch) (env : Env) (rnd : Random) (args : Args).

Local Abbreviation Machine := (agent.Machine torch env).

Implicit Types s : Machine.

(** An optimisation step writes the parameters of the policy network
    and nothing else in the store: every other tensor is as before and
    every tensor keeps its shape and size; so no parameter of a target
    network in separate storage changes.  The step stores nothing,
    counts no action and leaves no event. *)
Theorem optimizer_step_writes_only_policy_parameters i s u s' :
  agent.optimize torch env rnd args i s = Ok (u, s') ->
  (forall l, l ∉ map snd (nn.named_parameters (agent.policy_net s)) ->
     agent.heap s' !! l = agent.heap s !! l) /\
  (forall l, sig <$> agent.heap s' !! l = sig <$> agent.heap s !! l) /\
  (mirror (agent.heap s) (nn.named_parameters (agent.policy_net s))
          (nn.named_parameters (agent.target_net s)) ->
   forall k,
     param (agent.heap s') (nn.named_parameters (agent.target_net s)) k =
     param (agent.heap s) (nn.named_parameters (agent.target_net s)) k) /\
  agent.memory s' = agent.memory s /\
  agent.steps_done s' = agent.steps_done s /\
  agent.log s' = agent.log s.
Proof.
  intros H. pose proof (optimize_steps_done _ _ _ _ _ _ _ _ H) as Hc.
  pose proof (optimize_inv _ _ _ _ _ _ _ _ H) as [Hsil Hk].
  destruct Hsil as (_ & _ & _ & _ & Hm & _ & _ & Hl).
  rewrite app_nil_r in Hl.
  assert (Hh : agent.heap s' = agent.heap s \/
               exists upd, agent.heap s' =
                 agent.update_all upd
                   (map snd (nn.named_parameters (agent.policy_net s)))
                   (agent.heap s)).
  { revert H.
    unfold agent.optimize, agent.draw, bind, get, modify, ret, raise, lift.
    cbn [agent.memory agent.set_draws agent.draws agent.heap agent.need_next
         agent.policy_net agent.target_net agent.optimizer].
    destruct (_ <? _)%Z; [intros [= <- <-]; by left|].
    destruct (_ <? _)%Z; [done|].
    destruct (sample _ _) as [trs|]; [|done].
    destruct (agent.loss_of _ _ _ _ _ _ _) as [l|]; [|done].
    destruct (agent.read_all _ _) as [vals|]; [|done].
    intros [= <- <-]. right. eexists. reflexivity. }
  split; [|split; [|split; [by intros Hmi; apply Hk|done]]].
  - intros l Hl'. destruct Hh as [->|[upd ->]]; [done|].
    by apply update_all_spec.
  - intros l. destruct Hh as [->|[upd ->]]; [done|].
    by apply update_all_spec.
Qed.

(** After an episode that does not complete the streak the loop
    computes [i % target_update], unless the updates are soft, and then
    [i % save_ratio]: with hard updates and [target_update = 0], or with
    [save_ratio = 0], it raises [ZeroDivisionError], whatever the number
    of the episode. *)
Theorem end_of_episode_divides_by_zero i s :
  agent.l_consecutive_episodes (agent.frame s) <> consecutive_episodes args ->
  mirror (agent.heap s) (nn.named_parameters (agent.policy_net s))
         (nn.named_parameters (agent.target_net s)) ->
  soft_target_update args = false /\ target_update args = 0%Z \/
  save_ratio args = 0%Z ->
  agent.end_episode torch env args i s = Raise ZeroDivisionError.
Proof.
  intros Hc Hm Hz. unfold agent.end_episode, bind, get.
  apply Z.eqb_neq in Hc. rewrite Hc.
  destruct (soft_target_update args) eqn:Es; cbn [negb when].
  - destruct Hz as [[? _]|Hz]; [done|]. unfold ret. by rewrite Hz.
  - destruct (Z.eqb_spec (target_update args) 0) as [|Hne]; [done|].
    destruct Hz as [[_ ?]|Hz]; [done|].
    destruct (i mod target_update args =? 0)%Z; cbn [when].
    + destruct (hard_update_total torch env i s Hm) as [s1 ->].
      by rewrite Hz.
    + unfold ret. by rewrite Hz.
Qed.

(** The soft update with [tau = 1] is a hard update: afterwards every
    parameter of the target network has the value of the policy
    parameter of its key. *)
Theorem soft_update_with_tau_one_copies_the_policy s u s' :
  tau args = 1%R ->
  mirror (agent.heap s) (nn.named_parameters (agent.policy_net s))
         (nn.named_parameters (agent.target_net s)) ->
  agent.soft_update torch env args s = Ok (u, s') ->
  in_sync (agent.heap s') (nn.named_parameters (agent.policy_net s))
          (nn.named_parameters (agent.target_net s)) /\
  forall k,
    param (agent.heap s') (nn.named_parameters (agent.policy_net s)) k =
    param (agent.heap s) (nn.named_parameters (agent.policy_net s)) k.
Proof.
  intros Htau Hm H. apply soft_update_inv in H as [_ H].
  destruct (H Hm) as [Hm' [Hsu Hpol]]. split; [|done].
  rewrite Htau in Hsu. intros k. rewrite Hpol.
  destruct Hm as (Hkeys & _ & _ & Hsig).
  destruct (decide (k ∈ map fst (nn.named_parameters (agent.target_net s))))
    as [Hk|Hk].
  - destruct (Hsu k Hk) as (p & t & Hp & Ht & ->). rewrite Hp. f_equal.
    rewrite Hkeys in Hk. destruct (Hsig k Hk) as (p' & t' & Hp' & Ht' & Hs).
    rewrite Hp in Hp'. rewrite Ht in Ht'. injection Hp' as <-.
    injection Ht' as <-. by apply soft_blend_one.
  - unfold param. pose proof Hk as Hk'. rewrite Hkeys in Hk'.
    rewrite <- dict_get_is_Some, <- not_eq_None_Some in Hk, Hk'.
    apply dec_stable in Hk, Hk'. by rewrite Hk, Hk'.
Qed.

(** The soft update with [tau = 0] leaves the target network as it
    is. *)
Theorem soft_update_with_tau_zero_changes_nothing s u s' :
  tau args = 0%R ->
  mirror (agent.heap s) (nn.named_parameters (agent.policy_net s))
         (nn.named_parameters (agent.target_net s)) ->
  agent.soft_update torch env args s = Ok (u, s') ->
  (forall k,
     param (agent.heap s') (nn.named_parameters (agent.target_net s)) k =
     param (agent.heap s) (nn.named_parameters (agent.target_net s)) k) /\
  forall k,
    param (agent.heap s') (nn.named_parameters (agent.policy_net s)) k =
    param (agent.heap s) (nn.named_parameters (agent.policy_net s)) k.
Proof.
  intros Htau Hm H. apply soft_update_inv in H as [_ H].
  destruct (H Hm) as [Hm' [Hsu Hpol]]. split; [|done].
  rewrite Htau in Hsu. intros k.
  destruct Hm as (Hkeys & _ & _ & Hsig).
  destruct Hm' as (_ & _ & _ & Hsig').
  destruct (decide (k ∈ map fst (nn.named_parameters (agent.target_net s))))
    as [Hk|Hk].
  - destruct (Hsu k Hk) as (p & t & Hp & Ht & ->). rewrite Ht. f_equal.
    rewrite Hkeys in Hk. destruct (Hsig k Hk) as (p' & t' & Hp' & Ht' & Hs).
    rewrite Hp in Hp'. rewrite Ht in Ht'. injection Hp' as <-.
    injection Ht' as <-. by apply soft_blend_zero.
  - unfold param. rewrite <- dict_get_is_Some, <- not_eq_None_Some in Hk.
    apply dec_stable in Hk. by rewrite Hk.
Qed.

End OptimizerFrame.

(** The optimisation step on one stored transition in the small world. *)
Lemma optimizer_step_writes_only_policy_parameters_witness :
  exists s0,
    agent.init toy_torch (toy_env 4 1 0)
      (with_batch_size 1 (toy_args (Some "no_aux") false)) toy_init [] 0 0 =
    Ok s0 /\
    let s := agent.set_memory
               (push (agent.memory s0)
                     (toy_transition (Some toy_state) None None)) s0 in
    exists s',
    agent.optimize toy_torch (toy_env 4 1 0) toy_random
      (with_batch_size 1 (toy_args (Some "no_aux") false)) 0 s = Ok (tt, s') /\
    (forall l, l ∉ map snd (nn.named_parameters (agent.policy_net s)) ->
       agent.heap s' !! l = agent.heap s !! l) /\
    (forall l, sig <$> agent.heap s' !! l = sig <$> agent.heap s !! l) /\
    (mirror (agent.heap s) (nn.named_parameters (agent.policy_net s))
            (nn.named_parameters (agent.target_net s)) ->
     forall k,
       param (agent.heap s') (nn.named_parameters (agent.target_net s)) k =
       param (agent.heap s) (nn.named_parameters (agent.target_net s)) k) /\
    agent.memory s' = agent.memory s /\
    agent.steps_done s' = agent.steps_done s /\
    agent.log s' = agent.log s.
Proof.
  pose proof run_optimize_on_one_transition as H.
  destruct (init_spec toy_torch (toy_env 4 1 0)
              (with_batch_size 1 (toy_args (Some "no_aux") false))
              toy_init [] 0 0)
    as (s0 & Hi & _).
  rewrite Hi in H. exists s0. split; [exact Hi|]. cbn zeta.
  inspect H r Ho. destruct r as [[] s']. exists s'. split; [reflexivity|].
  exact (optimizer_step_writes_only_policy_parameters
           toy_torch (toy_env 4 1 0) toy_random _ 0 _ tt s' Ho).
Defined.

(** A new agent with [target_update = 0] at the end of episode 3. *)
Lemma end_of_episode_divides_by_zero_witness :
  let args := with_schedule 0 1 0.1 (toy_args (Some "no_aux") false) in
  exists s0,
    agent.init toy_torch (toy_env 4 1 0) args toy_init [] 0 0 = Ok s0 /\
    agent.end_episode toy_torch (toy_env 4 1 0) args 3 s0 =
      Raise ZeroDivisionError.
Proof.
  intros args.
  destruct (init_spec toy_torch (toy_env 4 1 0) args toy_init [] 0 0)
    as (s0 & Hi & Hm & _ & _ & _ & _ & _ & _ & _ & _ & Hf & _).
  exists s0. split; [exact Hi|].
  apply (end_of_episode_divides_by_zero toy_torch (toy_env 4 1 0) args 3 s0).
  - rewrite Hf. cbn. lia.
  - exact Hm.
  - left. split; reflexivity.
Defined.

(** The soft update of a new agent with [tau = 1]. *)
Lemma soft_update_with_tau_one_copies_the_policy_witness :
  let args := with_schedule 1 1 1 (toy_args (Some "no_aux") true) in
  exists s0,
    agent.init toy_torch (toy_env 4 1 0) args toy_init [] 0 0 = Ok s0 /\
    exists s',
    agent.soft_update toy_torch (toy_env 4 1 0) args s0 = Ok (tt, s') /\
    in_sync (agent.heap s') (nn.named_parameters (agent.policy_net s0))
            (nn.named_parameters (agent.target_net s0)) /\
    forall k,
      param (agent.heap s') (nn.named_parameters (agent.policy_net s0)) k =
      param (agent.heap s0) (nn.named_parameters (agent.policy_net s0)) k.
Proof.
  intros args.
  destruct (init_spec toy_torch (toy_env 4 1 0) args toy_init [] 0 0)
    as (s0 & Hi & Hm & _).
  exists s0. split; [exact Hi|].
  destruct (soft_update_total toy_torch (toy_env 4 1 0) args s0 Hm)
    as [s' Hs].
  exists s'. split; [exact Hs|].
  exact (soft_update_with_tau_one_copies_the_policy
           toy_torch (toy_env 4 1 0) args s0 tt s' eq_refl Hm Hs).
Defined.

(** The soft update of a new agent with [tau = 0]. *)
Lemma soft_update_with_tau_zero_changes_nothing_witness :
  let args := with_schedule 1 1 0 (toy_args (Some "no_aux") true) in
  exists s0,
    agent.init toy_torch (toy_env 4 1 0) args toy_init [] 0 0 = Ok s0 /\
    exists s',
    agent.soft_update toy_torch (toy_env 4 1 0) args s0 = Ok (tt, s') /\
    (forall k,
       param (agent.heap s') (nn.named_parameters (agent.target_net s0)) k =
       param (agent.heap s0) (nn.named_parameters (agent.target_net s0)) k) /\
    forall k,
      param (agent.heap s') (nn.named_parameters (agent.policy_net s0)) k =
      param (agent.heap s0) (nn.named_parameters (agent.policy_net s0)) k.
Proof.
  intros args.
  destruct (init_spec toy_torch (toy_env 4 1 0) args toy_init [] 0 0)
    as (s0 & Hi & Hm & _).
  exists s0. split; [exact Hi|].
  destruct (soft_update_total toy_torch (toy_env 4 1 0) args s0 Hm)
    as [s' Hs].
  exists s'. split; [exact Hs|].
  exact (soft_update_with_tau_zero_changes_nothing
           toy_torch (toy_env 4 1 0) args s0 tt s' eq_refl Hm Hs).
Defined.

(** ** The auxiliary terms of the loss *)

Section AuxiliaryTerms.
Context (torch : Torch) (args : Args).

Local Open Scope R_scope.

Lemma aux_is_elem (u : option string) (k : string) :
  nn.aux_is u k = true <-> u = Some k.
Proof.
  unfold nn.aux_is. destruct u as [v|]; [|done].
  rewrite String.eqb_eq. split; [by intros ->|by intros [= ->]].
Qed.

Lemma aux_is_false (u : option string) (k : string) :
  u <> Some k -> nn.aux_is u k = false.
Proof.
  intros Hne. destruct (nn.aux_is u k) eqn:E; [|done].
  by apply aux_is_elem in E.
Qed.

(** For a transfer task, and for every variant other than [ir],
    [reward], [sf], [virtual-reward-1] and [virtual-reward-5], the loss
    of the optimisation step is the primary loss alone; [sf+reward] and
    [no_aux] are such variants. *)
Theorem loss_without_auxiliary_term need policy target trs h total :
  transfer args = true \/
  use_aux args ∉ [Some "ir"; Some "reward"; Some "sf";
                  Some "virtual-reward-1"; Some "virtual-reward-5"]%string ->
  agent.loss_of torch args need policy target trs h = Ok total ->
  exists b rs,
    agent.collate need trs = Ok b /\
    agent.forward_batch torch h policy (agent.state_batch b) = Ok rs /\
    agent.primary_loss torch args h target b rs = Ok total.
Proof.
  intros Hv H. unfold agent.loss_of in H.
  apply rbind_Ok in H as (b & Hb & H). apply rbind_Ok in H as (rs & Hrs & H).
  apply rbind_Ok in H as (loss & Hloss & H).
  exists b, rs. do 2 (split; [done|]). rewrite Hloss. f_equal.
  destruct Hv as [Ht|Hv]; [rewrite Ht in H; cbn in H; congruence|].
  destruct (negb (transfer args)); [|congruence].
  destruct (use_aux args) as [u|] eqn:Eu; [|congruence].
  rewrite !not_elem_of_cons in Hv.
  destruct Hv as (Hir & Hre & Hsf & Hv1 & Hv5 & _).
  unfold nn.is_vvf in H.
  rewrite !aux_is_false in H by done. cbn in H. congruence.
Qed.

(** The weight of the auxiliary loss enters the loss under [ir] and
    [sf] only: under every other variant, [reward] and the virtual
    value functions among them, the loss is the same whatever the
    weight. *)
Theorem aux_loss_weight_is_used_by_ir_and_sf_only w need policy target trs h :
  use_aux args ∉ [Some "ir"; Some "sf"]%string ->
  agent.loss_of torch (with_aux_loss_weight w args) need policy target trs h =
  agent.loss_of torch args need policy target trs h.
Proof.
  intros Hv. rewrite !not_elem_of_cons in Hv. destruct Hv as (Hir & Hsf & _).
  unfold agent.loss_of. cbn [transfer use_aux with_aux_loss_weight].
  rewrite (aux_is_false _ "ir"), (aux_is_false _ "sf") by done.
  reflexivity.
Qed.

Lemma rows_of_Forall2 (f : nn.NetReturn -> option (list R)) rs vs :
  agent.rows_of f rs = Ok vs -> Forall2 (fun r v => f r = Some v) rs vs.
Proof.
  unfold agent.rows_of. intros H. apply mapR_Forall2 in H.
  eapply Forall2_impl; [exact H|]. intros r v. cbn.
  destruct (f r); [by intros [= ->]|done].
Qed.

Lemma columns_of_width_one (a : list (list R)) (v : list R) :
  map length a = map length (unsqueeze_1 v) -> a = unsqueeze_1 (concat a).
Proof.
  unfold unsqueeze_1. revert v; induction a as [|row a IH]; intros [|x v];
    cbn; try done.
  intros [= Hr Ha]. destruct row as [|y [|]]; try done. cbn. f_equal.
  by eapply IH.
Qed.

(** Under [reward] the loss is the primary loss plus the mean squared
    difference between the single output of the auxiliary head at the
    state and the reward of each transition; the weight of the
    auxiliary loss does not enter. *)
Theorem reward_variant_adds_the_unweighted_error need policy target trs h
    total :
  transfer args = false ->
  use_aux args = Some "reward"%string ->
  agent.loss_of torch args need policy target trs h = Ok total ->
  exists b rs loss auxs,
    agent.collate need trs = Ok b /\
    agent.forward_batch torch h policy (agent.state_batch b) = Ok rs /\
    agent.primary_loss torch args h target b rs = Ok loss /\
    Forall2 (fun r a => nn.ret_aux r = Some [a]) rs auxs /\
    length trs = Z.to_nat (batch_size args) /\
    total = loss + mean_squared_error auxs (map reward trs).
Proof.
  intros Ht Hu H. unfold agent.loss_of in H.
  apply rbind_Ok in H as (b & Hb & H). apply rbind_Ok in H as (rs & Hrs & H).
  apply rbind_Ok in H as (loss & Hloss & H).
  rewrite Ht, Hu in H. cbn in H.
  apply rbind_Ok in H as (l1 & H1 & H). apply rbind_Ok in H1 as (x & Hx & [= <-]).
  injection H as <-.
  unfold agent.reward_term in Hx. apply rbind_Ok in Hx as (aux & Haux & Hx).
  destruct (Nat.eqb_spec (length (agent.reward_batch b))
                         (Z.to_nat (batch_size args))) as [Hlen|]; [|done].
  pose proof Hb as Hb'.
  apply collate_Ok in Hb' as (_ & _ & _ & _ & _ & Hrb & _).
  rewrite Hrb in Hx, Hlen. rewrite length_map in Hlen.
  assert (Hcol : aux = unsqueeze_1 (concat aux)).
  { unfold MSELoss, same_shape in Hx. case_bool_decide as Hs; [|done].
    by eapply columns_of_width_one. }
  rewrite Hcol in Hx. apply MSELoss_columns in Hx as [_ ->].
  exists b, rs, loss, (concat aux). do 3 (split; [done|]).
  split; [|done]. apply rows_of_Forall2 in Haux. rewrite Hcol in Haux.
  unfold unsqueeze_1 in Haux. by rewrite Forall2_fmap_r in Haux.
Qed.

End AuxiliaryTerms.

(** The loss of one stored transition under [sf+reward] and under
    [reward], with batches of one. *)
Lemma run_loss_under_sf_reward :
  match agent.init toy_torch (toy_env 4 1 0)
          (with_batch_size 1 (toy_args (Some "sf+reward") false))
          toy_init [] 0 0
  with
  | Ok s0 =>
      match agent.loss_of toy_torch
              (with_batch_size 1 (toy_args (Some "sf+reward") false))
              (agent.need_next s0) (agent.policy_net s0) (agent.target_net s0)
              [toy_transition (Some toy_state) (Some 0%Z) None] (agent.heap s0)
      with
      | Ok _ => True
      | Raise _ => False
      end
  | Raise _ => False
  end.
Proof. ev_reals. exact I. Qed.

Lemma run_loss_under_reward :
  match agent.init toy_torch (toy_env 4 1 0)
          (with_batch_size 1 (toy_args (Some "reward") false))
          toy_init [] 0 0
  with
  | Ok s0 =>
      match agent.loss_of toy_torch
              (with_batch_size 1 (toy_args (Some "reward") false))
              (agent.need_next s0) (agent.policy_net s0) (agent.target_net s0)
              [toy_transition (Some toy_state) None None] (agent.heap s0)
      with
      | Ok _ => True
      | Raise _ => False
      end
  | Raise _ => False
  end.
Proof. ev_reals. exact I. Qed.

Lemma loss_without_auxiliary_term_witness :
  let args := with_batch_size 1 (toy_args (Some "sf+reward") false) in
  let trs := [toy_transition (Some toy_state) (Some 0%Z) None] in
  exists s0 tot,
    agent.init toy_torch (toy_env 4 1 0) args toy_init [] 0 0 = Ok s0 /\
    agent.loss_of toy_torch args (agent.need_next s0) (agent.policy_net s0)
      (agent.target_net s0) trs (agent.heap s0) = Ok tot /\
    exists b rs,
      agent.collate (agent.need_next s0) trs = Ok b /\
      agent.forward_batch toy_torch (agent.heap s0) (agent.policy_net s0)
        (agent.state_batch b) = Ok rs /\
      agent.primary_loss toy_torch args (agent.heap s0) (agent.target_net s0)
        b rs = Ok tot.
Proof.
  intros args trs. pose proof run_loss_under_sf_reward as H.
  inspect H s0 Hi. inspect H tot Hl. exists s0, tot.
  split; [exact Hi|]. split; [exact Hl|].
  apply (loss_without_auxiliary_term toy_torch args (agent.need_next s0)
           (agent.policy_net s0) (agent.target_net s0) trs (agent.heap s0)
           tot); [|exact Hl].
  right. rewrite !not_elem_of_cons. cbn. repeat split; try congruence.
  apply not_elem_of_nil.
Defined.

Lemma aux_loss_weight_is_used_by_ir_and_sf_only_witness :
  let args := with_batch_size 1 (toy_args (Some "reward") false) in
  let trs := [toy_transition (Some toy_state) None None] in
  exists s0,
    agent.init toy_torch (toy_env 4 1 0) args toy_init [] 0 0 = Ok s0 /\
    agent.loss_of toy_torch (with_aux_loss_weight 5 args) (agent.need_next s0)
      (agent.policy_net s0) (agent.target_net s0) trs (agent.heap s0) =
    agent.loss_of toy_torch args (agent.need_next s0)
      (agent.policy_net s0) (agent.target_net s0) trs (agent.heap s0).
Proof.
  intros args trs.
  destruct (init_spec toy_torch (toy_env 4 1 0) args toy_init [] 0 0)
    as (s0 & Hi & _).
  exists s0. split; [exact Hi|].
  apply (aux_loss_weight_is_used_by_ir_and_sf_only toy_torch args).
  rewrite !not_elem_of_cons. cbn. repeat split; try congruence.
  apply not_elem_of_nil.
Defined.

Lemma reward_variant_adds_the_unweighted_error_witness :
  let args := with_batch_size 1 (toy_args (Some "reward") false) in
  let trs := [toy_transition (Some toy_state) None None] in
  exists s0 tot,
    agent.init toy_torch (toy_env 4 1 0) args toy_init [] 0 0 = Ok s0 /\
    agent.loss_of toy_torch args (agent.need_next s0) (agent.policy_net s0)
      (agent.target_net s0) trs (agent.heap s0) = Ok tot /\
    exists b rs loss auxs,
      agent.collate (agent.need_next s0) trs = Ok b /\
      agent.forward_batch toy_torch (agent.heap s0) (agent.policy_net s0)
        (agent.state_batch b) = Ok rs /\
      agent.primary_loss toy_torch args (agent.heap s0) (agent.target_net s0)
        b rs = Ok loss /\
      Forall2 (fun r a => nn.ret_aux r = Some [a]) rs auxs /\
      length trs = Z.to_nat (batch_size args) /\
      tot = (loss + mean_squared_error auxs (map reward trs))%R.
Proof.
  intros args trs. pose proof run_loss_under_reward as H.
  inspect H s0 Hi. inspect H tot Hl. exists s0, tot.
  split; [exact Hi|]. split; [exact Hl|].
  exact (reward_variant_adds_the_unweighted_error toy_torch args
           (agent.need_next s0) (agent.policy_net s0) (agent.target_net s0)
           trs (agent.heap s0) tot eq_refl eq_refl Hl).
Defined.

(** ** The parts of the result of the forward pass *)

Section ForwardParts.
Context (torch : Torch).

(** What [Network.forward] returns beside the action values depends on
    the variant alone: an auxiliary output exactly under [reward], [sf],
    [ir], [virtual-reward-1] and [virtual-reward-5], and a prediction of
    the next state exactly under [sf]. *)
Theorem forward_returns_the_parts_of_the_variant h net x r :
  nn.forward torch h net x = Ok r ->
  (is_Some (nn.ret_aux r) <->
   nn.use_aux net ∈ [Some "reward"; Some "sf"; Some "ir";
                     Some "virtual-reward-1"; Some "virtual-reward-5"]%string)
  /\
  (is_Some (nn.ret_next_rep r) <-> nn.use_aux net = Some "sf"%string).
Proof.
  unfold nn.forward. intros H. apply rbind_Ok in H as (rep & _ & H).
  apply rbind_Ok in H as (an & Han & H). apply rbind_Ok in H as (q & _ & [= <-]).
  cbn [nn.ret_aux nn.ret_next_rep]. unfold nn.forward_aux, nn.is_vvf in Han.
  rewrite !elem_of_cons, elem_of_nil.
  destruct (nn.aux_is (nn.use_aux net) "no_aux") eqn:E0; cbn [negb] in Han.
  { injection Han as <-. apply aux_is_elem in E0. rewrite E0. cbn. split.
    - split; [by intros [? [=]]|]. intros [[=]|[[=]|[[=]|[[=]|[[=]|[]]]]]].
    - split; [by intros [? [=]]|]. by intros [=]. }
  destruct (nn.aux_is (nn.use_aux net) "reward") eqn:E1.
  { apply rbind_Ok in Han as (a & _ & [= <-]). apply aux_is_elem in E1.
    rewrite E1. cbn. split.
    - split; [auto|by eexists].
    - split; [by intros [? [=]]|]. by intros [=]. }
  destruct (nn.aux_is (nn.use_aux net) "sf") eqn:E2.
  { apply rbind_Ok in Han as (a & _ & Han).
    apply rbind_Ok in Han as (n & _ & [= <-]). apply aux_is_elem in E2.
    rewrite E2. cbn. split; (split; [auto|by eexists]). }
  destruct (nn.aux_is (nn.use_aux net) "ir") eqn:E3.
  { apply rbind_Ok in Han as (a & _ & [= <-]). apply aux_is_elem in E3.
    rewrite E3. cbn. split.
    - split; [auto|by eexists].
    - split; [by intros [? [=]]|]. by intros [=]. }
  destruct (nn.aux_is (nn.use_aux net) "virtual-reward-1") eqn:E4.
  { cbn [orb] in Han. apply rbind_Ok in Han as (a & _ & [= <-]).
    apply aux_is_elem in E4. rewrite E4. cbn. split.
    - split; [auto 6|by eexists].
    - split; [by intros [? [=]]|]. by intros [=]. }
  destruct (nn.aux_is (nn.use_aux net) "virtual-reward-5") eqn:E5.
  { cbn [orb] in Han. apply rbind_Ok in Han as (a & _ & [= <-]).
    apply aux_is_elem in E5. rewrite E5. cbn. split.
    - split; [auto 6|by eexists].
    - split; [by intros [? [=]]|]. by intros [=]. }
  cbn [orb] in Han. injection Han as <-. cbn. split.
  - split; [by intros [? [=]]|].
    intros [Hu|[Hu|[Hu|[Hu|[Hu|[]]]]]]; apply aux_is_elem in Hu; congruence.
  - split; [by intros [? [=]]|]. intros Hu. apply aux_is_elem in Hu.
    congruence.
Qed.

End ForwardParts.

(** ** The widths of the layers of a new network *)

Section Layers.
Context (torch : Torch) (ini : Init).

Lemma allocates_prefix {A} (m : ST Heap A) params h a h' :
  allocates m params -> m h = Ok (a, h') -> h `prefix_of` h'.
Proof.
  intros (keys & sigs & Hal) H. destruct (Hal h) as (a0 & ts & E & _).
  rewrite H in E. injection E as _ ->. by exists ts.
Qed.

Lemma layer_prefix h1 h2 l i o :
  layer h1 l i o -> h1 `prefix_of` h2 -> layer h2 l i o.
Proof.
  intros (W & HW & Hs) Hp. exists W. split; [|done].
  by eapply prefix_lookup_Some.
Qed.

Lemma layer_shapes h1 h2 l i o :
  map shape h2 = map shape h1 -> layer h1 l i o -> layer h2 l i o.
Proof.
  intros Hsh (W & HW & Hs).
  apply (f_equal (fun s => s !! nn.weight l)) in Hsh.
  rewrite !list_lookup_fmap, HW in Hsh.
  destruct (h2 !! nn.weight l) as [W'|] eqn:E; [|done]. injection Hsh as Hsh.
  exists W'. split; [done|congruence].
Qed.

Lemma Linear_init_layer i o h l h' :
  nn.Linear_init ini i o h = Ok (l, h') -> layer h' l i o.
Proof. apply Linear_init_weight. Qed.

Lemma Linear_forward_layer h l x v i o :
  nn.Linear_forward h l x = Ok v -> layer h l i o ->
  length x = i /\ length v = o.
Proof.
  unfold nn.Linear_forward. intros H (W & HW & Hs). rewrite HW in H.
  destruct (h !! nn.bias l) as [b|]; [|done]. rewrite Hs in H.
  case_bool_decide as Hd; [|done]. injection H as <-.
  destruct Hd as [Hx _]. split; [done|]. by rewrite length_map, length_seq.
Qed.

Lemma relu_length v : length (nn.relu v) = length v.
Proof. unfold nn.relu. by rewrite length_map. Qed.

(** The layers that decide the widths of the result: the last layer of
    the representation network, the first layer of the action-value
    head, and the last layer of the auxiliary head. *)
Lemma Network_init_layers f a h net h' :
  nn.Network_init ini f a h = Ok (net, h') ->
  nn.rep_use_fta (nn.rep_net net) = f /\
  nn.use_aux net = a /\
  layer h' (nn.rep_fc1 (nn.rep_net net)) 1024 32 /\
  layer h' (nn.q_network_fc1 net) (if f then 640 else 32) 64 /\
  exists h2 h3,
    nn.AuxNetwork_init ini f a h2 = Ok (nn.aux_network net, h3) /\
    h3 `prefix_of` h'.
Proof.
  unfold nn.Network_init. intros H.
  apply bind_Ok in H as (rep & h1 & Hrep & H).
  apply bind_Ok in H as (fc1 & h2 & Hfc1 & H).
  apply bind_Ok in H as (aux & h3 & Haux & H).
  apply bind_Ok in H as (fc2 & h4 & Hfc2 & H).
  apply bind_Ok in H as (fc3 & h5 & Hfc3 & H).
  unfold ret in H. injection H as <- <-. cbn.
  pose proof (allocates_prefix _ _ _ _ _
                (Linear_init_if_allocates ini f 640 32 64) Hfc1) as P12.
  pose proof (allocates_prefix _ _ _ _ _
                (AuxNetwork_init_allocates ini f a) Haux) as P23.
  pose proof (allocates_prefix _ _ _ _ _
                (Linear_init_allocates ini 64 64) Hfc2) as P34.
  pose proof (allocates_prefix _ _ _ _ _
                (Linear_init_allocates ini 64 4) Hfc3) as P45.
  assert (P35 : h3 `prefix_of` h5) by (by etrans).
  assert (P25 : h2 `prefix_of` h5) by (by etrans).
  assert (P15 : h1 `prefix_of` h5) by (by etrans).
  unfold nn.RepresentationNetwork_init in Hrep.
  apply bind_Ok in Hrep as (c1 & g1 & _ & Hrep).
  apply bind_Ok in Hrep as (c2 & g2 & _ & Hrep).
  apply bind_Ok in Hrep as (l & g3 & Hl & Hrep).
  unfold ret in Hrep. injection Hrep as <- <-. cbn.
  do 2 (split; [done|]). split.
  { apply layer_prefix with g3; [|done]. by apply Linear_init_layer in Hl. }
  split.
  { apply layer_prefix with h2; [|done].
    destruct f; by apply Linear_init_layer in Hfc1. }
  by exists h2, h3.
Qed.

(** The representation that [Network.forward] returns has 32 entries,
    or 640 with the FTA activation: the first layer of the action-value
    head accepts no other width. *)
Theorem representation_has_the_width_of_the_variant f a h net h' h'' x r :
  nn.Network_init ini f a h = Ok (net, h') ->
  map shape h'' = map shape h' ->
  nn.forward torch h'' net x = Ok r ->
  length (nn.ret_rep r) = (if f then 640 else 32)%nat.
Proof.
  intros Hn Hsh H. apply Network_init_layers in Hn as (_ & _ & _ & Hfc1 & _).
  apply (layer_shapes _ _ _ _ _ Hsh) in Hfc1.
  unfold nn.forward in H. apply rbind_Ok in H as (rep & _ & H).
  apply rbind_Ok in H as (an & _ & H). apply rbind_Ok in H as (q & Hq & [= <-]).
  cbn. unfold nn.q_head in Hq. apply rbind_Ok in Hq as (x1 & Hx1 & _).
  by destruct (Linear_forward_layer _ _ _ _ _ _ Hx1 Hfc1).
Qed.

(** The auxiliary output that [Network.forward] returns has one entry
    under [reward], four entries, as many as there are action values,
    under [virtual-reward-1] and [virtual-reward-5], and as many entries
    as the representation under [sf]. *)
Theorem auxiliary_output_has_the_width_of_the_variant f a h net h' h'' x r
    aux :
  nn.Network_init ini f a h = Ok (net, h') ->
  map shape h'' = map shape h' ->
  nn.forward torch h'' net x = Ok r ->
  nn.ret_aux r = Some aux ->
  (a = Some "reward"%string -> length aux = 1%nat) /\
  (a ∈ [Some "virtual-reward-1"; Some "virtual-reward-5"]%string ->
   length aux = 4%nat /\ length aux = length (nn.ret_q r)) /\
  (a = Some "sf"%string -> length aux = length (nn.ret_rep r)).
Proof.
  intros Hn Hsh H Haux.
  pose proof (Network_init_head _ _ _ _ _ _ Hn) as (W3 & HW3 & Hs3).
  assert (Hfc3 : layer h'' (nn.q_network_fc3 net) 64 4).
  { apply (layer_shapes h'); [done|]. by exists W3. }
  apply Network_init_layers in Hn
    as (_ & Hu & _ & Hfc1 & h2 & h3 & Hai & Hp).
  apply (layer_shapes _ _ _ _ _ Hsh) in Hfc1.
  unfold nn.forward in H. apply rbind_Ok in H as (rep & _ & H).
  apply rbind_Ok in H as (an & Han & H). apply rbind_Ok in H as (q & Hq & [= <-]).
  cbn in *. unfold nn.q_head in Hq. apply rbind_Ok in Hq as (x1 & Hx1 & Hq).
  apply rbind_Ok in Hq as (x2 & _ & Hq).
  destruct (Linear_forward_layer _ _ _ _ _ _ Hx1 Hfc1) as [Hrep _].
  destruct (Linear_forward_layer _ _ _ _ _ _ Hq Hfc3) as [_ Hql].
  unfold nn.forward_aux in Han. rewrite Hu in Han.
  split; [|split].
  - intros ->. cbn in Han, Hai.
    apply bind_Ok in Hai as (m & g & Hm & Hai). unfold ret in Hai.
    injection Hai as Ha ->. rewrite <- Ha in Han. cbn in Han.
    apply rbind_Ok in Han as (v & Hv & [= <-]). cbn in Haux.
    injection Haux as ->. unfold nn.Reward_init in Hm.
    apply bind_Ok in Hm as (l1 & g1 & _ & Hm).
    apply bind_Ok in Hm as (l2 & g2 & _ & Hm).
    apply bind_Ok in Hm as (l3 & g3 & Hl3 & Hm). unfold ret in Hm.
    injection Hm as <- <-. apply Linear_init_layer in Hl3.
    apply (layer_prefix _ h') in Hl3; [|done].
    apply (layer_shapes _ _ _ _ _ Hsh) in Hl3.
    unfold nn.Reward_forward in Hv. cbn in Hv.
    apply rbind_Ok in Hv as (y1 & _ & Hv). apply rbind_Ok in Hv as (y2 & _ & Hv).
    by destruct (Linear_forward_layer _ _ _ _ _ _ Hv Hl3).
  - intros Ha. rewrite !elem_of_cons, elem_of_nil in Ha.
    assert (exists m g, nn.VirtualValueFunction_init ini f h2 = Ok (m, g) /\
                        g = h3 /\ nn.aux_network net = nn.AuxVVF m /\
                        exists v, nn.VirtualValueFunction_forward h'' m rep =
                                    Ok v /\ aux = v)
      as (m & g & Hm & -> & Ea & v & Hv & ->).
    { destruct Ha as [->|[->|[]]]; cbn in Han, Hai;
        apply bind_Ok in Hai as (m & g & Hm & Hai); unfold ret in Hai;
        injection Hai as Ha ->; rewrite <- Ha in Han; cbn in Han;
        apply rbind_Ok in Han as (v & Hv & [= <-]); cbn in Haux;
        injection Haux as ->; by exists m, h3; eauto 10. }
    unfold nn.VirtualValueFunction_init in Hm.
    apply bind_Ok in Hm as (l1 & g1 & _ & Hm).
    apply bind_Ok in Hm as (l2 & g2 & _ & Hm).
    apply bind_Ok in Hm as (l3 & g3 & Hl3 & Hm). unfold ret in Hm.
    injection Hm as <- <-. apply Linear_init_layer in Hl3.
    apply (layer_prefix _ h') in Hl3; [|done].
    apply (layer_shapes _ _ _ _ _ Hsh) in Hl3.
    unfold nn.VirtualValueFunction_forward in Hv. cbn in Hv.
    apply rbind_Ok in Hv as (y1 & _ & Hv). apply rbind_Ok in Hv as (y2 & _ & Hv).
    destruct (Linear_forward_layer _ _ _ _ _ _ Hv Hl3) as [_ Hv4].
    split; congruence.
  - intros ->. cbn in Han, Hai.
    apply bind_Ok in Hai as (m & g & Hm & Hai).
    apply bind_Ok in Hai as (n & g' & Hn' & Hai). unfold ret in Hai.
    injection Hai as Ha ->.
    assert (Hp' : g `prefix_of` h').
    { etrans; [|exact Hp].
      eapply allocates_prefix;
        [apply (InputReconstruction_init_allocates ini f)|exact Hn']. }
    rewrite <- Ha in Han. cbn in Han.
    apply rbind_Ok in Han as (v & Hv & Han).
    apply rbind_Ok in Han as (w & _ & [= <-]). cbn in Haux.
    injection Haux as ->. unfold nn.SFNetwork_forward in Hv.
    apply rbind_Ok in Hv as (y1 & _ & Hv). rewrite Hrep.
    unfold nn.SFNetwork_init in Hm. destruct f.
    + apply bind_Ok in Hm as (l1 & g1 & _ & Hm).
      apply bind_Ok in Hm as (l2 & g2 & Hl2 & Hm). unfold ret in Hm.
      injection Hm as <- <-. apply Linear_init_layer in Hl2.
      apply (layer_prefix _ h') in Hl2; [|done].
      apply (layer_shapes _ _ _ _ _ Hsh) in Hl2. cbn in Hv.
      by destruct (Linear_forward_layer _ _ _ _ _ _ Hv Hl2).
    + apply bind_Ok in Hm as (l1 & g1 & _ & Hm).
      apply bind_Ok in Hm as (l2 & g2 & Hl2 & Hm). unfold ret in Hm.
      injection Hm as <- <-. apply Linear_init_layer in Hl2.
      apply (layer_prefix _ h') in Hl2; [|done].
      apply (layer_shapes _ _ _ _ _ Hsh) in Hl2. cbn in Hv.
      by destruct (Linear_forward_layer _ _ _ _ _ _ Hv Hl2).
Qed.

End Layers.

(** The forward pass of a new network with successor features in the
    small world returns, with an auxiliary output. *)
Lemma run_forward_with_successor_features :
  match nn.Network_init toy_init false (Some "sf") [] with
  | Ok (net, h) =>
      match nn.forward toy_torch h net toy_state with
      | Ok r => match nn.ret_aux r with Some _ => True | None => False end
      | Raise _ => False
      end
  | Raise _ => False
  end.
Proof. ev_reals. exact I. Qed.

(** The forward pass of a new network with a reward head in the small
    world returns. *)
Lemma run_forward_with_reward_head :
  match nn.Network_init toy_init false (Some "reward") [] with
  | Ok (net, h) =>
      match nn.forward toy_torch h net toy_state with
      | Ok _ => True
      | Raise _ => False
      end
  | Raise _ => False
  end.
Proof. ev_reals. exact I. Qed.

(** A new network with a reward head in the small world: an auxiliary
    output and no prediction of the next state. *)
Lemma forward_returns_the_parts_of_the_variant_witness :
  exists net h r,
    nn.Network_init toy_init false (Some "reward") [] = Ok (net, h) /\
    nn.forward toy_torch h net toy_state = Ok r /\
    (is_Some (nn.ret_aux r) <->
     nn.use_aux net ∈ [Some "reward"; Some "sf"; Some "ir";
                       Some "virtual-reward-1"; Some "virtual-reward-5"]%string)
    /\
    (is_Some (nn.ret_next_rep r) <-> nn.use_aux net = Some "sf"%string).
Proof.
  pose proof run_forward_with_reward_head as H.
  inspect H nh Hn. destruct nh as [net h]. inspect H r Hr.
  exists net, h, r. split; [reflexivity|]. split; [exact Hr|].
  exact (forward_returns_the_parts_of_the_variant toy_torch h net toy_state r
           Hr).
Defined.

(** A new network without FTA in the small world: a representation of
    32 entries. *)
Lemma representation_has_the_width_of_the_variant_witness :
  exists net h r,
    nn.Network_init toy_init false (Some "no_aux") [] = Ok (net, h) /\
    nn.forward toy_torch h net toy_state = Ok r /\
    length (nn.ret_rep r) = 32%nat.
Proof.
  pose proof run_forward as H.
  inspect H nh Hn. destruct nh as [net h]. inspect H r Hr.
  exists net, h, r. split; [reflexivity|]. split; [exact Hr|].
  exact (representation_has_the_width_of_the_variant
           toy_torch toy_init false (Some "no_aux") [] net h h toy_state r
           Hn eq_refl Hr).
Defined.

(** A new network with successor features in the small world: the
    auxiliary output is as wide as the representation. *)
Lemma auxiliary_output_has_the_width_of_the_variant_witness :
  exists net h r aux,
    nn.Network_init toy_init false (Some "sf") [] = Ok (net, h) /\
    nn.forward toy_torch h net toy_state = Ok r /\
    nn.ret_aux r = Some aux /\
    length aux = length (nn.ret_rep r).
Proof.
  pose proof run_forward_with_successor_features as H.
  inspect H nh Hn. destruct nh as [net h]. inspect H r Hr.
  destruct (nn.ret_aux r) as [aux|] eqn:Ha; [|destruct H].
  exists net, h, r, aux. split; [reflexivity|]. split; [exact Hr|].
  split; [exact Ha|].
  exact (proj2 (proj2 (auxiliary_output_has_the_width_of_the_variant
           toy_torch toy_init false (Some "sf") [] net h h toy_state r aux
           Hn eq_refl Hr Ha)) eq_refl).
Defined.

(** ** The greedy action *)

Section Greedy.
Context (torch : Torch) (env : Env) (rnd : Random) (args : Args).
Local Open Scope R_scope.

(** [argmax_from] walks the row from position [length pre] on, where
    [best] is the largest entry of [pre] and [bi] its first position. *)
Lemma argmax_from_first_largest (q : list R) :
  forall (pre : list R) (best : R) (bi : nat),
  pre !! bi = Some best ->
  (forall (j : nat) x,
     pre !! j = Some x -> x <= best /\ ((j < bi)%nat -> x < best)) ->
  exists v,
    (pre ++ q) !! argmax_from best bi (length pre) q = Some v /\
    forall (j : nat) x, (pre ++ q) !! j = Some x ->
      x <= v /\ ((j < argmax_from best bi (length pre) q)%nat -> x < v).
Proof.
  induction q as [|y q IH]; intros pre best bi Hb Hpre.
  { cbn [argmax_from]. rewrite app_nil_r. by exists best. }
  cbn [argmax_from].
  replace (pre ++ y :: q) with ((pre ++ [y]) ++ q) by by rewrite <- app_assoc.
  replace (S (length pre)) with (length (pre ++ [y]))
    by (rewrite length_app; cbn; lia).
  assert (Hlt : (bi < length pre)%nat) by by eapply lookup_lt_Some.
  destruct (Rgt_dec y best) as [Hy|Hy].
  - apply IH.
    + by rewrite lookup_app_r, Nat.sub_diag.
    + intros j x Hj. destruct (decide (j < length pre)%nat) as [Hjl|Hjl].
      * rewrite lookup_app_l in Hj by done.
        destruct (Hpre j x Hj) as [Hle _]. split; [lra|]. intros _. lra.
      * rewrite lookup_app_r in Hj by lia.
        destruct (j - length pre)%nat eqn:E; [|by destruct n].
        injection Hj as <-. split; [lra|lia].
  - apply IH.
    + by rewrite lookup_app_l.
    + intros j x Hj. destruct (decide (j < length pre)%nat) as [Hjl|Hjl].
      * rewrite lookup_app_l in Hj by done. by apply Hpre.
      * rewrite lookup_app_r in Hj by lia.
        destruct (j - length pre)%nat eqn:E; [|by destruct n].
        injection Hj as <-. split; [lra|lia].
Qed.

Lemma row_argmax_first_largest (q : list R) a :
  row_argmax q = Ok a ->
  (0 <= a)%Z /\
  exists v,
    q !! Z.to_nat a = Some v /\
    forall (j : nat) x,
      q !! j = Some x -> x <= v /\ ((j < Z.to_nat a)%nat -> x < v).
Proof.
  destruct q as [|y q]; [done|]. intros [= <-]. split; [lia|].
  rewrite Nat2Z.id.
  apply (argmax_from_first_largest q [y] y 0%nat); [done|].
  intros [|j] x [=]. subst. split; [lra|lia].
Qed.

Lemma select_action_greedy st s eps r a :
  agent.eps_threshold args (agent.steps_done s) = Ok eps ->
  random_random rnd (agent.draws s) > eps ->
  nn.forward torch (agent.heap s) (agent.policy_net s) st = Ok r ->
  row_argmax (nn.ret_q r) = Ok a ->
  agent.select_action torch env rnd args st s =
    Ok (a, agent.set_draws (S (agent.draws s))
             (agent.set_steps_done (agent.steps_done s + 1) s)).
Proof.
  intros He Hs Hr Ha.
  unfold agent.select_action, agent.draw, bind, get, modify, ret, lift.
  cbn [agent.draws agent.set_draws agent.steps_done agent.set_steps_done
       agent.heap agent.policy_net].
  rewrite He. destruct (Rgt_dec _ _); [|done]. by rewrite Hr, Ha.
Qed.

(** When the random sample exceeds the exploration threshold,
    [select_action] returns the first position of the largest action
    value that the policy network gives for the state, and the
    parameters stay as they are. *)
Theorem greedy_action_has_the_largest_action_value st s eps a s' :
  agent.eps_threshold args (agent.steps_done s) = Ok eps ->
  random_random rnd (agent.draws s) > eps ->
  agent.select_action torch env rnd args st s = Ok (a, s') ->
  agent.heap s' = agent.heap s /\
  exists r v,
    nn.forward torch (agent.heap s) (agent.policy_net s) st = Ok r /\
    (0 <= a)%Z /\
    nn.ret_q r !! Z.to_nat a = Some v /\
    forall (j : nat) x, nn.ret_q r !! j = Some x ->
      x <= v /\ ((j < Z.to_nat a)%nat -> x < v).
Proof.
  intros He Hs H.
  pose proof (select_action_inv _ _ _ _ _ _ _ _ H) as (_ & Hh & _).
  split; [done|]. revert H.
  unfold agent.select_action, agent.draw, bind, get, modify, ret, lift.
  cbn [agent.draws agent.set_draws agent.steps_done agent.set_steps_done
       agent.heap agent.policy_net].
  rewrite He. destruct (Rgt_dec _ _) as [_|]; [|done].
  destruct (nn.forward _ _ _ _) as [r|]; [|done].
  destruct (row_argmax (nn.ret_q r)) as [b|] eqn:Hb; [|done].
  intros [= <- <-]. apply row_argmax_first_largest in Hb as (H0 & v & Hv & Hall).
  by exists r, v.
Qed.

End Greedy.

(** The policy network of a new agent in the small world gives action
    values for the state, with a first largest one. *)
Lemma run_greedy_choice :
  match agent.init toy_torch (toy_env 4 1 0)
          (with_exploration (-1)%R (-1)%R 1%R (toy_args (Some "no_aux") false))
          toy_init [] 0 0
  with
  | Ok s =>
      match nn.forward toy_torch (agent.heap s) (agent.policy_net s) toy_state
      with
      | Ok r => match row_argmax (nn.ret_q r) with
                | Ok _ => agent.steps_done s = 0%nat
                | Raise _ => False
                end
      | Raise _ => False
      end
  | Raise _ => False
  end.
Proof. ev_reals. reflexivity. Qed.

(** A new agent in the small world whose exploration threshold is
    constantly -1: the sample 0 exceeds it, and the action is greedy. *)
Lemma greedy_action_has_the_largest_action_value_witness :
  exists s a s',
    agent.init toy_torch (toy_env 4 1 0)
      (with_exploration (-1)%R (-1)%R 1%R (toy_args (Some "no_aux") false))
      toy_init [] 0 0 = Ok s /\
    agent.select_action toy_torch (toy_env 4 1 0) toy_random
      (with_exploration (-1)%R (-1)%R 1%R (toy_args (Some "no_aux") false))
      toy_state s = Ok (a, s') /\
    agent.heap s' = agent.heap s /\
    exists r v,
      nn.forward toy_torch (agent.heap s) (agent.policy_net s) toy_state =
        Ok r /\
      (0 <= a)%Z /\
      nn.ret_q r !! Z.to_nat a = Some v /\
      forall (j : nat) x, nn.ret_q r !! j = Some x ->
        (x <= v)%R /\ ((j < Z.to_nat a)%nat -> (x < v)%R).
Proof.
  pose proof run_greedy_choice as H.
  inspect H s Hs. inspect H r Hr.
  destruct (row_argmax (nn.ret_q r)) as [a|] eqn:Ha; [|destruct H].
  assert (He : agent.eps_threshold
                 (with_exploration (-1)%R (-1)%R 1%R
                    (toy_args (Some "no_aux") false))
                 (agent.steps_done s) =
               Ok (-1 + (-1 - -1) * exp (-1 * INR (agent.steps_done s) / 1))%R).
  { unfold agent.eps_threshold. cbn [eps_decay eps_start eps_end
      with_exploration]. destruct (Req_dec_T 1%R 0%R); [lra|reflexivity]. }
  assert (Hgt : (random_random toy_random (agent.draws s) >
                 -1 + (-1 - -1) * exp (-1 * INR (agent.steps_done s) / 1))%R).
  { cbn [random_random toy_random]. lra. }
  pose proof (select_action_greedy toy_torch (toy_env 4 1 0) toy_random _
                toy_state s _ r a He Hgt Hr Ha) as Hsel.
  eexists s, a, _. split; [reflexivity|]. split; [exact Hsel|].
  exact (greedy_action_has_the_largest_action_value
           toy_torch (toy_env 4 1 0) toy_random _ toy_state s _ a _
           He Hgt Hsel).
Defined.

(** ** Every environment step is stored *)

Section StoredSteps.
Context (torch : Torch) (env : Env) (rnd : Random) (args : Args).

Local Abbreviation Machine := (agent.Machine torch env).

Implicit Types s : Machine.

Lemma env_steps_app (l1 l2 : list agent.Event) :
  env_steps (l1 ++ l2) = env_steps l1 ++ env_steps l2.
Proof. apply omap_app. Qed.

Lemma env_steps_pushes trs : env_steps (map agent.EvPush trs) = [].
Proof. by induction trs. Qed.

Lemma stores_steps_refl s : stores_steps s s.
Proof. split; [done|]. exists []. by rewrite app_nil_r. Qed.

Lemma stores_steps_evolves s s' f r evs :
  evolves s s' (agent.memory s) f r evs -> pushes evs = [] ->
  env_steps evs = [] -> stores_steps s s'.
Proof.
  intros (Hn & _ & _ & _ & Hm & _ & _ & Hl) Hp He. split; [done|].
  exists evs. by rewrite Hp, He.
Qed.

Lemma stores_steps_trans s s1 s2 :
  stores_steps s s1 -> stores_steps s1 s2 -> stores_steps s s2.
Proof.
  intros (Hn1 & b1 & Hl1 & Hm1 & He1) (Hn2 & b2 & Hl2 & Hm2 & He2).
  split; [congruence|]. exists (b1 ++ b2).
  split; [by rewrite Hl2, Hl1, app_assoc|].
  rewrite pushes_app, env_steps_app, map_app, foldl_app, <- Hm1, He1, He2.
  done.
Qed.

(** One step stores the step that waits, and either stores its own
    environment step or leaves it waiting. *)
Lemma step_records i t s stop s' q :
  agent.step torch env rnd args i t s = Ok (stop, s') ->
  owed (agent.need_next s) t (agent.frame s) q ->
  exists block q',
    agent.log s' = agent.log s ++ block /\
    agent.need_next s' = agent.need_next s /\
    agent.memory s' = foldl push (agent.memory s) (pushes block) /\
    q ++ env_steps block = map recorded (pushes block) ++ q' /\
    (if stop then q' = [] else owed (agent.need_next s) (S t) (agent.frame s') q').
Proof.
  intros H Hq. apply step_inv in H
    as (st & a & nxt & rew & inf & done & pend & imm & fl & Hst & Hstop
        & Hpend & Himm & Hfl & Hev & _).
  destruct Hev as (Hn & _ & _ & _ & Hm & Hf & _ & Hl).
  assert (Hfl' : stop = false -> fl = []) by (by intros ->).
  eexists. exists (if stop then [] else
                     if agent.need_next s then [(st, a, Some nxt, rew)] else []).
  split; [exact Hl|]. split; [done|].
  assert (Hpu : pushes ([agent.EvSelect st a] ++ map agent.EvPush pend ++
                 [agent.EvEnvStep st a nxt rew done] ++ map agent.EvPush imm ++
                 (if soft_target_update args then [agent.EvSoftUpdate] else [])
                 ++ (if stop then map agent.EvPush fl ++ [agent.EvEpisodeEnd i]
                     else [])) = pend ++ imm ++ fl).
  { destruct stop; [|rewrite (Hfl' eq_refl)]; project;
      destruct (soft_target_update args); project; cbn;
      rewrite ?app_nil_r; done. }
  assert (Hes : env_steps ([agent.EvSelect st a] ++ map agent.EvPush pend ++
                 [agent.EvEnvStep st a nxt rew done] ++ map agent.EvPush imm ++
                 (if soft_target_update args then [agent.EvSoftUpdate] else [])
                 ++ (if stop then map agent.EvPush fl ++ [agent.EvEpisodeEnd i]
                     else [])) = [(st, a, Some nxt, rew)]).
  { rewrite !env_steps_app, !env_steps_pushes.
    destruct (soft_target_update args), stop;
      rewrite ?env_steps_app, ?env_steps_pushes; done. }
  rewrite Hpu, Hes. split; [done|]. unfold owed in *.
  destruct (agent.need_next s) eqn:En; cbn [andb] in *.
  - subst imm. destruct (0 <? t)%nat.
    + destruct Hq as (ps & pa & st0 & r & Hps & Hpa & Hst0 & Hr & ->).
      destruct Hpend as (v & tr & Hp & ->). unfold pending in Hp.
      rewrite Hps, Hpa, Hst0, Hr in Hp. injection Hp as <-.
      destruct stop; cbn [andb] in Hfl.
      * destruct Hfl as (v' & ->). done.
      * subst fl. split; [done|]. rewrite Hf. by exists st, a, nxt, rew.
    + subst q pend. destruct stop; cbn [andb] in Hfl.
      * destruct Hfl as (v' & ->). done.
      * subst fl. split; [done|]. rewrite Hf. by exists st, a, nxt, rew.
  - subst q pend imm. rewrite andb_false_r in Hfl. subst fl.
    by destruct stop.
Qed.

(** The loop over the steps stores what waits and all its environment
    steps. *)
Lemma steps_records fuel i t s u s' q :
  agent.steps torch env rnd args fuel i t s = Ok (u, s') ->
  owed (agent.need_next s) t (agent.frame s) q ->
  exists block,
    agent.log s' = agent.log s ++ block /\
    agent.need_next s' = agent.need_next s /\
    agent.memory s' = foldl push (agent.memory s) (pushes block) /\
    q ++ env_steps block = map recorded (pushes block).
Proof.
  revert t s q; induction fuel as [|fuel IH]; intros t s q; [done|].
  rewrite steps_S. intros H Hq. apply bind_Ok in H as (stop & s1 & Hstep & H).
  destruct (step_records _ _ _ _ _ _ Hstep Hq)
    as (block & q' & Hl & Hn & Hm & He & Hq').
  destruct stop.
  - unfold ret in H. injection H as _ <-. subst q'. exists block.
    by rewrite app_nil_r in He.
  - rewrite <- Hn in Hq'.
    destruct (IH _ _ _ H Hq') as (block' & Hl' & Hn' & Hm' & He').
    exists (block ++ block'). split; [by rewrite Hl', Hl, app_assoc|].
    split; [congruence|].
    rewrite pushes_app, env_steps_app, map_app, foldl_app, <- Hm.
    split; [done|]. by rewrite app_assoc, He, <- app_assoc, He'.
Qed.

Lemma episode_stores_steps i s stop s' :
  agent.episode torch env rnd args i s = Ok (stop, s') -> stores_steps s s'.
Proof.
  intros H. apply episode_parts in H as (s1 & s2 & Hb & Hs & He).
  apply begin_episode_inv in Hb as (st & inf & Hev1 & _).
  assert (G1 : stores_steps s s1) by (by eapply stores_steps_evolves).
  apply (stores_steps_trans _ _ _ G1).
  assert (G2 : stores_steps s1 s2).
  { destruct (steps_records _ _ _ _ _ _ [] Hs) as (block & Hl & Hn & Hm & Hr).
    - unfold owed. by rewrite andb_false_r.
    - split; [done|]. by exists block. }
  apply (stores_steps_trans _ _ _ G2).
  apply end_episode_inv in He as (_ & Hev3 & _).
  destruct (save_events_projections args) as (_ & _ & _ & _ & Sp).
  assert (Se : env_steps (save_events args) = [])
    by (unfold save_events; by destruct (_ || _)).
  eapply stores_steps_evolves; [exact Hev3|..]; destruct stop; try done;
    destruct (_ && _), (i mod save_ratio args =? 0)%Z;
    rewrite ?pushes_app, ?env_steps_app, ?Sp, ?Se; done.
Qed.

Lemma episodes_stores_steps n i s u s' :
  agent.episodes torch env rnd args n i s = Ok (u, s') -> stores_steps s s'.
Proof.
  revert i s; induction n as [|n IH]; intros i s; cbn [agent.episodes].
  - unfold ret. intros [= <- <-]. apply stores_steps_refl.
  - intros H. apply bind_Ok in H as (stop & s1 & Hep & H).
    apply episode_stores_steps in Hep as G1.
    destruct stop; [unfold ret in H; by injection H as _ <-|].
    apply (stores_steps_trans _ _ _ G1). by apply IH in H.
Qed.

(** A training run stores every step of the environment once, in the
    order of the steps, with the state and the action of the step, the
    observation as next state and the reward, whether the variant stores
    at once or with delay; the replay memory is fed these transitions
    and nothing else. *)
Theorem every_environment_step_is_stored_once s u s' :
  agent.train torch env rnd args s = Ok (u, s') ->
  exists block,
    agent.log s' = agent.log s ++ block /\
    agent.memory s' = foldl push (agent.memory s) (pushes block) /\
    map recorded (pushes block) = env_steps block.
Proof.
  intros H. unfold agent.train in H.
  apply bind_Ok in H as ([] & s0 & H0 & H).
  unfold agent.set_locals, modify in H0. injection H0 as <-.
  apply episodes_stores_steps in H as (_ & block & Hl & Hm & He).
  by exists block.
Qed.

End StoredSteps.

(** The run of two steps under [sf+reward]: two environment steps, two
    stored transitions. *)
Lemma every_environment_step_is_stored_once_witness :
  let args := toy_args (Some "sf+reward") false in
  exists s0,
    agent.init toy_torch (toy_env 4 (1/2) 1) args toy_init [] 0 0 = Ok s0 /\
    exists s',
    agent.train toy_torch (toy_env 4 (1/2) 1) toy_random args s0 =
      Ok (tt, s') /\
    exists block,
      agent.log s' = agent.log s0 ++ block /\
      agent.memory s' = foldl push (agent.memory s0) (pushes block) /\
      map recorded (pushes block) = env_steps block.
Proof.
  intros args.
  destruct run_two_steps_sf_reward as (s0 & Hi & s' & Ht & _).
  exists s0. split; [exact Hi|]. exists s'. split; [exact Ht|].
  exact (every_environment_step_is_stored_once
           toy_torch (toy_env 4 (1/2) 1) toy_random args s0 tt s' Ht).
Defined.
